(** * NICSSIM: the tag-store control loop, its physics tick and the attack dispatcher

    A shallow embedding of [src/PLC1.py], [src/FactorySimulation.py],
    [src/AttackerRemote.py] and the constants of [src/Configs.py].

    Tag values are Python floats and small integers.  They are modelled as
    exact rationals [Q]: comparisons, [min]/[max] and truthiness follow the
    Python expressions literally, rounding is not modelled. *)

From Stdlib Require Import QArith Lqa ZArith Lia Ascii String.
From stdpp Require Import gmap strings list.

Open Scope Q_scope.

(** ** Python numerics *)

(** [a < b] on numbers, as a boolean. *)
Definition Qltb (x y : Q) : bool := negb (Qle_bool y x).

(** [a > b]. *)
Definition Qgtb (x y : Q) : bool := Qltb y x.

(** Python's [max(a, b)]: [a] unless [b > a]. *)
Definition py_max (a b : Q) : Q := if Qgtb b a then b else a.

(** Python's [min(a, b)]: [a] unless [b < a]. *)
Definition py_min (a b : Q) : Q := if Qltb b a then b else a.

(** Truthiness of a number: anything but zero. *)
Definition truthy (v : Q) : bool := negb (Qeq_bool v 0).

(** ** Configs.py *)

Module PHYSICS.
Definition AMBIENT_TEMP : Q := 290.
Definition HEAT_GAIN_K : Q := 0.008.
Definition COOLING_K : Q := 0.004.

Definition PRESSURE_K_TEMP : Q := 0.035.
Definition PRESSURE_K_HEATER : Q := 0.020.
Definition PRESSURE_K_SPRAY : Q := 0.030.
Definition PRESSURE_K_RELIEF : Q := 0.080.

Definition FLOW_INERTIA : Q := 0.003.
Definition VALVE_INERTIA : Q := 0.003.
Definition FLUX_INERTIA : Q := 0.002.

Definition RAD_BASELINE : Q := 0.02.
Definition RAD_SPIKE_MAX : Q := 0.50.
Definition RAD_SPIKE_PROB : Q := 0.0005.
Definition RAD_SPIKE_SEC : Q * Q := (3, 12).
End PHYSICS.

Module TAG.
Open Scope string_scope.
Definition TAG_CORE_NEUTRON_FLUX_VALUE := "core_neutron_flux_value".
Definition TAG_CORE_TEMP_IN_VALUE := "core_temp_in_value".
Definition TAG_CORE_TEMP_OUT_VALUE := "core_temp_out_value".
Definition TAG_CORE_PRESSURE_VALUE := "core_pressure_value".
Definition TAG_CORE_FLOW_VALUE := "core_flow_value".
Definition TAG_SG_IN_PRESSURE_VALUE := "sg_in_pressure_value".
Definition TAG_PRIMARY_RAD_MON_VALUE := "primary_rad_mon_value".
Definition TAG_PRIMARY_LOOP_VALVE_POS_VALUE := "primary_loop_valve_pos_value".

Definition TAG_CORE_CONTROL_ROD_POS_VALUE := "core_control_rod_pos_value".
Definition TAG_CORE_CONTROL_ROD_MODE := "core_control_rod_mode".
Definition TAG_CORE_NEUTRON_FLUX_SP := "core_neutron_flux_sp".
Definition TAG_CORE_RCP_SPEED_CMD := "core_rcp_speed_cmd".
Definition TAG_CORE_RCP_MODE := "core_rcp_mode".
Definition TAG_CORE_COOLANT_VALVE_CMD := "core_coolant_valve_cmd".
Definition TAG_CORE_COOLANT_VALVE_MODE := "core_coolant_valve_mode".
Definition TAG_PRIMARY_LOOP_VALVE_CMD := "primary_loop_valve_cmd".
Definition TAG_PRIMARY_LOOP_VALVE_MODE := "primary_loop_valve_mode".

Definition TAG_CORE_PRESSURIZER_HEATER_CMD := "core_pressurizer_heater_cmd".
Definition TAG_CORE_PRESSURIZER_HEATER_MODE := "core_pressurizer_heater_mode".
Definition TAG_CORE_PRESSURIZER_SPRAY_CMD := "core_pressurizer_spray_cmd".
Definition TAG_CORE_PRESSURIZER_SPRAY_MODE := "core_pressurizer_spray_mode".
Definition TAG_CORE_PRESSURIZER_VALVE_CMD := "core_pressurizer_valve_cmd".
Definition TAG_CORE_PRESSURIZER_VALVE_MODE := "core_pressurizer_valve_mode".
Definition TAG_CORE_RELIEF_VALVE_STATUS := "core_relief_valve_status".

Definition TAG_CORE_TEMP_OUT_MAX := "core_temp_out_max".
Definition TAG_CORE_PRESSURE_MAX := "core_pressure_max".
Definition TAG_CORE_PRESSURE_HIHI := "core_pressure_hihi".
Definition TAG_CORE_FLOW_MIN := "core_flow_min".
Definition TAG_PRIMARY_RAD_ALARM_MAX := "primary_rad_alarm_max".
Definition TAG_CORE_ALARM_STATUS := "core_alarm_status".

(** The primary-loop part of [TAG_LIST]: tag name and seed value. *)
Definition TAG_LIST : list (string * Q) :=
  [ (TAG_CORE_NEUTRON_FLUX_VALUE, 0.8);
    (TAG_CORE_TEMP_IN_VALUE, 290);
    (TAG_CORE_TEMP_OUT_VALUE, 300);
    (TAG_CORE_PRESSURE_VALUE, 15);
    (TAG_CORE_FLOW_VALUE, 0.6);
    (TAG_SG_IN_PRESSURE_VALUE, 14.9);
    (TAG_PRIMARY_RAD_MON_VALUE, 0.02);
    (TAG_PRIMARY_LOOP_VALVE_POS_VALUE, 0.5);
    (TAG_CORE_CONTROL_ROD_POS_VALUE, 50);
    (TAG_CORE_CONTROL_ROD_MODE, 3);
    (TAG_CORE_NEUTRON_FLUX_SP, 0.9);
    (TAG_CORE_RCP_SPEED_CMD, 0.6);
    (TAG_CORE_RCP_MODE, 3);
    (TAG_CORE_COOLANT_VALVE_CMD, 0.5);
    (TAG_CORE_COOLANT_VALVE_MODE, 3);
    (TAG_PRIMARY_LOOP_VALVE_CMD, 0.5);
    (TAG_PRIMARY_LOOP_VALVE_MODE, 3);
    (TAG_CORE_PRESSURIZER_HEATER_CMD, 0.2);
    (TAG_CORE_PRESSURIZER_HEATER_MODE, 3);
    (TAG_CORE_PRESSURIZER_SPRAY_CMD, 0);
    (TAG_CORE_PRESSURIZER_SPRAY_MODE, 3);
    (TAG_CORE_PRESSURIZER_VALVE_CMD, 0);
    (TAG_CORE_PRESSURIZER_VALVE_MODE, 3);
    (TAG_CORE_RELIEF_VALVE_STATUS, 0);
    (TAG_CORE_TEMP_OUT_MAX, 320);
    (TAG_CORE_PRESSURE_MAX, 15.5);
    (TAG_CORE_PRESSURE_HIHI, 15.9);
    (TAG_CORE_FLOW_MIN, 0.5);
    (TAG_PRIMARY_RAD_ALARM_MAX, 0.20);
    (TAG_CORE_ALARM_STATUS, 0) ].
End TAG.

(** ** The tag store and the device monad *)

(** One row of the store: the latest value of a tag and when it was written. *)
Record row := Row { value : Q; last_write : Z }.

Inductive store_error :=
| UnknownTag (name : string)
| Unavailable.

Inductive result (A : Type) :=
| Ok (a : A)
| Err (e : store_error).
Arguments Ok {A} a.
Arguments Err {A} e.

(** What a device cannot control: whether its [k]-th store access reaches
    the backing store, and the wall clock at that access. *)
Record env := Env { avail : nat -> bool; wall : nat -> Z }.

(** The world of one device: its own attributes [self], the shared table
    [rows], the writes the device has performed so far (latest first) and
    the number of store accesses it has made. *)
Record world (D : Type) := World {
  self : D;
  rows : gmap string row;
  writes : list (string * Q);
  accesses : nat }.
Arguments World {D} _ _ _ _.
Arguments self {D} _.
Arguments rows {D} _.
Arguments writes {D} _.
Arguments accesses {D} _.

(** A device computation.  A raised exception is an [Err] result; the world
    it is returned with is the world at the raise: nothing is rolled back. *)
Definition M (D A : Type) : Type := env -> world D -> result A * world D.

Definition ret {D A} (a : A) : M D A := fun _ w => (Ok a, w).

Definition bind {D A B} (m : M D A) (k : A -> M D B) : M D B :=
  fun e w =>
    match m e w with
    | (Ok a, w') => k a e w'
    | (Err x, w') => (Err x, w')
    end.

Declare Scope dev_scope.
Delimit Scope dev_scope with dev.
Notation "x <- c ;; k" := (bind c (fun x => k))
  (at level 100, c at next level, right associativity) : dev_scope.
Notation "c ;;; k" := (bind c (fun _ => k))
  (at level 100, right associativity) : dev_scope.
Open Scope dev_scope.

(** Reading and writing the device's own attributes. *)
Definition get_self {D} : M D D := fun _ w => (Ok (self w), w).

Definition put_self {D} (d : D) : M D unit :=
  fun _ w => (Ok tt, World d (rows w) (writes w) (accesses w)).

Definition bump {D} (w : world D) : world D :=
  World (self w) (rows w) (writes w) (S (accesses w)).

(** Modelled from the spec: the device's [_get] (ics_sim.Device, not under
    src/) is TagStore [get(name)]: it fails with [Unavailable] when the backing
    store cannot be reached and with [UnknownTag] when the tag is not
    registered, and otherwise returns the latest value. *)
Definition _get {D} (name : string) : M D Q :=
  fun e w =>
    if avail e (accesses w) then
      match rows w !! name with
      | Some r => (Ok (value r), bump w)
      | None => (Err (UnknownTag name), bump w)
      end
    else (Err Unavailable, bump w).

(** Modelled from the spec: the device's [_set] (ics_sim.Device, not under
    src/) is TagStore [set(name, value)]: same failure modes as [get]; a
    successful [set] replaces the value and updates [last_write]. *)
Definition _set {D} (name : string) (v : Q) : M D unit :=
  fun e w =>
    if avail e (accesses w) then
      match rows w !! name with
      | Some _ =>
          (Ok tt, World (self w)
                        (<[name := Row v (wall e (accesses w))]> (rows w))
                        ((name, v) :: writes w)
                        (S (accesses w)))
      | None => (Err (UnknownTag name), bump w)
      end
    else (Err Unavailable, bump w).

(** The value a tag holds, if it is registered. *)
Definition tag_value {D} (w : world D) (name : string) : option Q :=
  value <$> rows w !! name.

(** ** PLC1.py *)

Module PLC1.
Definition HYST : Q := 0.5.
Definition P_HYST : Q := 0.05.
Definition RAD_HYST : Q := 0.02.

(** A mode tag holds 1 or 2 for manual and 3 for automatic. *)
Definition is_manual (mode : Q) : bool := Qeq_bool mode 1 || Qeq_bool mode 2.

(** Modelled from the spec: [PLC._check_manual_input] (ics_sim.Device, not
    under src/) is the manual/auto guard: it reads the paired mode tag and
    answers whether it signals manual; the command tag retains whatever was
    written through the manual path. *)
Definition _check_manual_input (control_tag actuator_tag : string)
    : M unit bool :=
  mode <- _get control_tag ;;
  ret (is_manual mode).

Definition _logic : M unit unit :=
  (* --- Read sensors --- *)
  flux <- _get TAG.TAG_CORE_NEUTRON_FLUX_VALUE ;;
  t_in <- _get TAG.TAG_CORE_TEMP_IN_VALUE ;;
  t_out <- _get TAG.TAG_CORE_TEMP_OUT_VALUE ;;
  p_core <- _get TAG.TAG_CORE_PRESSURE_VALUE ;;
  p_sg_in <- _get TAG.TAG_SG_IN_PRESSURE_VALUE ;;
  flow <- _get TAG.TAG_CORE_FLOW_VALUE ;;
  rad <- _get TAG.TAG_PRIMARY_RAD_MON_VALUE ;;
  (* --- Read SPs / limits --- *)
  flux_sp <- _get TAG.TAG_CORE_NEUTRON_FLUX_SP ;;
  tmax <- _get TAG.TAG_CORE_TEMP_OUT_MAX ;;
  pmax <- _get TAG.TAG_CORE_PRESSURE_MAX ;;
  phihi <- _get TAG.TAG_CORE_PRESSURE_HIHI ;;
  fmin <- _get TAG.TAG_CORE_FLOW_MIN ;;
  radmax <- _get TAG.TAG_PRIMARY_RAD_ALARM_MAX ;;
  (* === Control rods (reactivity) === *)
  (manual <- _check_manual_input TAG.TAG_CORE_CONTROL_ROD_MODE
                                 TAG.TAG_CORE_CONTROL_ROD_POS_VALUE ;;
   if negb manual then
     rod <- _get TAG.TAG_CORE_CONTROL_ROD_POS_VALUE ;;
     let err := flux - flux_sp in
     let rod := rod + err * 4 in
     let rod := py_min (py_max rod 0) 100 in
     _set TAG.TAG_CORE_CONTROL_ROD_POS_VALUE rod
   else ret tt) ;;;
  (* === Primary pump speed (flow) === *)
  (manual <- _check_manual_input TAG.TAG_CORE_RCP_MODE
                                 TAG.TAG_CORE_RCP_SPEED_CMD ;;
   if negb manual then
     cmd <- _get TAG.TAG_CORE_RCP_SPEED_CMD ;;
     let cmd :=
       if Qgtb t_out (tmax - 3) || Qltb flow (fmin + 0.05) then cmd + 0.02
       else if Qltb t_out (tmax - 8) && Qgtb flow (fmin + 0.2) then cmd - 0.01
       else cmd in
     _set TAG.TAG_CORE_RCP_SPEED_CMD (py_min (py_max cmd 0) 1)
   else ret tt) ;;;
  (* === Heat removal valve === *)
  (manual <- _check_manual_input TAG.TAG_CORE_COOLANT_VALVE_MODE
                                 TAG.TAG_CORE_COOLANT_VALVE_CMD ;;
   if negb manual then
     v <- _get TAG.TAG_CORE_COOLANT_VALVE_CMD ;;
     let v :=
       if Qgtb t_out (tmax - 2) then v + 0.02
       else if Qltb t_out (tmax - 10) then v - 0.01
       else v in
     _set TAG.TAG_CORE_COOLANT_VALVE_CMD (py_min (py_max v 0) 1)
   else ret tt) ;;;
  (* === Primary loop flow-control valve === *)
  (manual <- _check_manual_input TAG.TAG_PRIMARY_LOOP_VALVE_MODE
                                 TAG.TAG_PRIMARY_LOOP_VALVE_CMD ;;
   if negb manual then
     lv <- _get TAG.TAG_PRIMARY_LOOP_VALVE_CMD ;;
     let lv :=
       if Qltb flow (fmin + 0.05) || Qgtb t_out (tmax - 5) then lv + 0.02
       else if Qgtb flow (fmin + 0.2) && Qltb t_out (tmax - 12) then lv - 0.01
       else lv in
     _set TAG.TAG_PRIMARY_LOOP_VALVE_CMD (py_min (py_max lv 0) 1)
   else ret tt) ;;;
  (* === Pressurizer: heater & spray === *)
  (manual <- _check_manual_input TAG.TAG_CORE_PRESSURIZER_HEATER_MODE
                                 TAG.TAG_CORE_PRESSURIZER_HEATER_CMD ;;
   if negb manual then
     h <- _get TAG.TAG_CORE_PRESSURIZER_HEATER_CMD ;;
     let h :=
       if Qltb p_core (pmax - P_HYST) then h + 0.03
       else if Qgtb p_core (pmax + 0.02) then h - 0.02
       else h in
     _set TAG.TAG_CORE_PRESSURIZER_HEATER_CMD (py_min (py_max h 0) 1)
   else ret tt) ;;;
  (manual <- _check_manual_input TAG.TAG_CORE_PRESSURIZER_SPRAY_MODE
                                 TAG.TAG_CORE_PRESSURIZER_SPRAY_CMD ;;
   if negb manual then
     s <- _get TAG.TAG_CORE_PRESSURIZER_SPRAY_CMD ;;
     let s :=
       if Qgtb p_core (pmax + 0.03) then s + 0.03
       else if Qltb p_core (pmax - P_HYST) then s - 0.02
       else s in
     _set TAG.TAG_CORE_PRESSURIZER_SPRAY_CMD (py_min (py_max s 0) 1)
   else ret tt) ;;;
  (* === Pressurizer relief (auto high-high) === *)
  relief_open <- _get TAG.TAG_CORE_RELIEF_VALVE_STATUS ;;
  let relief_open :=
    if Qgtb p_core phihi then 1
    else if Qltb p_core (pmax - 0.05) then 0
    else relief_open in
  _set TAG.TAG_CORE_RELIEF_VALVE_STATUS relief_open ;;;
  (manual <- _check_manual_input TAG.TAG_CORE_PRESSURIZER_VALVE_MODE
                                 TAG.TAG_CORE_PRESSURIZER_VALVE_CMD ;;
   if negb manual then
     let pv := if truthy relief_open then 1 else 0 in
     _set TAG.TAG_CORE_PRESSURIZER_VALVE_CMD pv
   else ret tt) ;;;
  (* === Alarm logic (latched) === *)
  alarm <- _get TAG.TAG_CORE_ALARM_STATUS ;;
  let trip := Qgtb t_out tmax || Qgtb p_core pmax
              || Qltb flow fmin || Qgtb rad radmax in
  if truthy alarm then
    if Qltb t_out (tmax - HYST) && Qltb p_core (pmax - P_HYST)
       && Qgtb flow (fmin + 0.02) && Qltb rad (radmax - RAD_HYST)
    then _set TAG.TAG_CORE_ALARM_STATUS 0
    else ret tt
  else
    if trip then _set TAG.TAG_CORE_ALARM_STATUS 1
    else ret tt.
End PLC1.

(** ** FactorySimulation.py *)

Module FactorySimulation.
Import PHYSICS.

(** The dict [self._rad_spike]. *)
Record rad_spike := RadSpike { active : bool; until : Q; level : Q }.

(** The attributes of the device that [_logic] uses; the two loop times
    (milliseconds) are kept by the HIL base class. *)
Record t := Self {
  _current_loop_time : Q;
  _last_loop_time : Q;
  _valve_eff : Q;
  _loop_valve_eff : Q;
  _rad_spike : rad_spike }.

(** What one tick draws from [random] and from the wall clock: the standard
    normal sample behind each [random.gauss] call, the unit sample behind
    each [random.random] and [random.uniform] call, and [datetime.now()]
    in seconds. *)
Record entropy := Entropy {
  z_flux : Q;
  z_temp : Q;
  z_pressure : Q;
  z_sg : Q;
  z_rad : Q;
  u_spike : Q;
  u_sec : Q;
  u_level : Q;
  now : Q }.

(** [random.gauss(mu, sigma)] on the sample [z]. *)
Definition gauss (mu sigma z : Q) : Q := mu + z * sigma.

(** [random.uniform(a, b)] on the sample [u]. *)
Definition uniform (a b u : Q) : Q := a + (b - a) * u.

Definition set_valve_eff (s : t) (v : Q) : t :=
  Self (_current_loop_time s) (_last_loop_time s) v (_loop_valve_eff s)
       (_rad_spike s).

Definition set_loop_valve_eff (s : t) (v : Q) : t :=
  Self (_current_loop_time s) (_last_loop_time s) (_valve_eff s) v
       (_rad_spike s).

Definition set_rad_spike (s : t) (r : rad_spike) : t :=
  Self (_current_loop_time s) (_last_loop_time s) (_valve_eff s)
       (_loop_valve_eff s) r.

(** Line 48: [max(0.05, 1.0 - (rod_pos / 120.0))]. *)
Definition reactivity (rod_pos : Q) : Q := py_max 0.05 (1 - rod_pos / 120).

(** Line 49: [max(0.0, flux_sp * reactivity)]. *)
Definition flux_target (flux_sp rod_pos : Q) : Q :=
  py_max 0 (flux_sp * reactivity rod_pos).

(** Line 66: the temperature-derived baseline. *)
Definition pressure_base (temp_out : Q) : Q :=
  14.7 + PRESSURE_K_TEMP * py_max 0 (temp_out - AMBIENT_TEMP).

(** Lines 69-75: the pressure model, on the pressure read at the start of
    the tick, the updated outlet temperature and the noise sample. *)
Definition pressure_model (pressure temp_out heater_cmd spray_cmd
    relief_open dt_s noise : Q) : Q :=
  let pressure := pressure + PRESSURE_K_HEATER * heater_cmd * dt_s in
  let pressure := pressure - PRESSURE_K_SPRAY * spray_cmd * dt_s in
  let pressure := pressure - PRESSURE_K_RELIEF * relief_open * dt_s in
  let pressure := 0.98 * pressure + 0.02 * pressure_base temp_out in
  pressure + noise.

(** Lines 15-17: the elapsed milliseconds, at least 1. *)
Definition loop_dt (s : t) : Q :=
  let dt := _current_loop_time s - _last_loop_time s in
  if Qle_bool dt 0 then 1 else dt.

Definition _logic (rnd : entropy) : M t unit :=
  s <- get_self ;;
  let dt := loop_dt s in
  let dt_s := dt / 1000 in
  (* Read current state (sensors) *)
  flux <- _get TAG.TAG_CORE_NEUTRON_FLUX_VALUE ;;
  temp_in <- _get TAG.TAG_CORE_TEMP_IN_VALUE ;;
  temp_out <- _get TAG.TAG_CORE_TEMP_OUT_VALUE ;;
  pressure <- _get TAG.TAG_CORE_PRESSURE_VALUE ;;
  flow <- _get TAG.TAG_CORE_FLOW_VALUE ;;
  (* Commands / setpoints *)
  rcp_cmd <- _get TAG.TAG_CORE_RCP_SPEED_CMD ;;
  cool_valve <- _get TAG.TAG_CORE_COOLANT_VALVE_CMD ;;
  loop_valve <- _get TAG.TAG_PRIMARY_LOOP_VALVE_CMD ;;
  rod_pos <- _get TAG.TAG_CORE_CONTROL_ROD_POS_VALUE ;;
  flux_sp <- _get TAG.TAG_CORE_NEUTRON_FLUX_SP ;;
  (* Pressurizer actions *)
  heater_cmd <- _get TAG.TAG_CORE_PRESSURIZER_HEATER_CMD ;;
  spray_cmd <- _get TAG.TAG_CORE_PRESSURIZER_SPRAY_CMD ;;
  relief_status <- _get TAG.TAG_CORE_RELIEF_VALVE_STATUS ;;
  let relief_open := if truthy relief_status then 1 else 0 in
  (* --- Actuator dynamics (approach commands) --- *)
  let flow := flow + (rcp_cmd - flow) * (FLOW_INERTIA * dt) in
  s <- get_self ;;
  put_self (set_valve_eff s
    (py_max 0 (py_min 1 (_valve_eff s
       + (cool_valve - _valve_eff s) * (VALVE_INERTIA * dt))))) ;;;
  s <- get_self ;;
  put_self (set_loop_valve_eff s
    (py_max 0 (py_min 1 (_loop_valve_eff s
       + (loop_valve - _loop_valve_eff s) * (VALVE_INERTIA * dt))))) ;;;
  (* Provide a measured position for the loop valve *)
  s <- get_self ;;
  _set TAG.TAG_PRIMARY_LOOP_VALVE_POS_VALUE (_loop_valve_eff s) ;;;
  (* --- Reactivity / flux --- *)
  let flux_target := flux_target flux_sp rod_pos in
  let flux := flux + (flux_target - flux) * (FLUX_INERTIA * dt) in
  let flux := py_max 0 (flux + gauss 0 0.002 (z_flux rnd)) in
  (* --- Thermal balance --- *)
  let heat_gain := HEAT_GAIN_K * flux * dt in
  s <- get_self ;;
  let effective_cooling_valve := _valve_eff s * _loop_valve_eff s in
  let cool_loss := COOLING_K * (flow * effective_cooling_valve)
                   * py_max 0 (temp_out - AMBIENT_TEMP) * dt in
  let temp_in := temp_in + (AMBIENT_TEMP - temp_in) * 0.001 * dt in
  let temp_out := temp_out + heat_gain - cool_loss in
  let temp_out := temp_out + gauss 0 0.02 (z_temp rnd) in
  (* --- Pressure model --- *)
  let pressure := pressure_model pressure temp_out heater_cmd spray_cmd
                    relief_open dt_s (gauss 0 0.002 (z_pressure rnd)) in
  (* SG inlet pressure *)
  let sg_pin := py_max 0 (pressure - 0.05 + gauss 0 0.001 (z_sg rnd)) in
  (* Radiation monitor along primary piping *)
  let now := now rnd in
  s <- get_self ;;
  (if negb (active (_rad_spike s)) && Qltb (u_spike rnd) RAD_SPIKE_PROB then
     let sec := uniform (fst RAD_SPIKE_SEC) (snd RAD_SPIKE_SEC) (u_sec rnd) in
     put_self (set_rad_spike s
       (RadSpike true (now + sec)
          (uniform (RAD_BASELINE * 2) RAD_SPIKE_MAX (u_level rnd))))
   else ret tt) ;;;
  s <- get_self ;;
  (if active (_rad_spike s) && Qle_bool (until (_rad_spike s)) now then
     put_self (set_rad_spike s
       (RadSpike false (until (_rad_spike s)) (level (_rad_spike s))))
   else ret tt) ;;;
  s <- get_self ;;
  let rad := if active (_rad_spike s) then level (_rad_spike s)
             else RAD_BASELINE in
  let rad := rad + gauss 0 0.005 (z_rad rnd) in
  let rad := py_max 0 rad in
  (* Clamp a few things to keep them sane *)
  let flow := py_min (py_max flow 0) 1.2 in
  (* --- Write back sensors --- *)
  _set TAG.TAG_CORE_NEUTRON_FLUX_VALUE flux ;;;
  _set TAG.TAG_CORE_TEMP_IN_VALUE temp_in ;;;
  _set TAG.TAG_CORE_TEMP_OUT_VALUE temp_out ;;;
  _set TAG.TAG_CORE_PRESSURE_VALUE pressure ;;;
  _set TAG.TAG_CORE_FLOW_VALUE flow ;;;
  _set TAG.TAG_SG_IN_PRESSURE_VALUE sg_pin ;;;
  _set TAG.TAG_PRIMARY_RAD_MON_VALUE rad.

(** [init]: seed the store with the defaults and read the two inertias. *)
Definition seeded : gmap string row :=
  list_to_map (map (fun p => (fst p, Row (snd p) 0)) TAG.TAG_LIST).
End FactorySimulation.

(** ** AttackerRemote.py *)

Module AttackerRemote.
Open Scope string_scope.

(** A JSON value of a command field. *)
Inductive jvalue :=
| JNull
| JBool (b : bool)
| JNum (n : Z)
| JStr (s : string).

(** What [json.loads(payload.decode("utf-8"))] gives for a payload: it
    raises, or it yields an object, a string, a number, a boolean or null,
    or an array (of an array only its elements that are strings matter
    below; any other element may be given as [JNull]). *)
Inductive payload :=
| NotJson
| JObject (fields : gmap string jvalue)
| JOther (v : jvalue)
| JArray (items : list jvalue).

(** A message of the command channel; [ident] tells deliveries apart. *)
Record message := Message { ident : nat; topic : string; body : payload }.

(** The calls into the attack primitives of AttackerBase. *)
Inductive attack_call :=
| scan_scapy_attack
| ddos_attack (timeout : jvalue) (target : string) (num_process : Z)
| scan_nmap_attack
| mitm_scapy_attack (target : string) (timeout : jvalue)
| replay_scapy_attack (target : string) (timeout : jvalue)
    (replay_count : jvalue).

(** The exceptions [process_messages] can meet. *)
Inductive exn :=
| DecodeError
| CannotFindTag (tag : string)
| AttackNotRecognized (attack : jvalue)
| TargetNotRecognized (device_name : string)
| TypeError
| PrimitiveFailed (call : attack_call).

Inductive report :=
| Received (m : message)
| Discarded (m : message)
| StartProcessing (msg_json : payload)
| Failure (e : exn).

(** The attributes of the dispatcher that the two threads share, and the
    record of what it has reported and launched. *)
Record t := Self {
  enabled : bool;
  applying_attack : bool;
  attacksQueue : list message;
  reports : list report;
  launched : list attack_call }.

Definition set_enabled (s : t) (b : bool) : t :=
  Self b (applying_attack s) (attacksQueue s) (reports s) (launched s).
Definition set_applying (s : t) (b : bool) : t :=
  Self (enabled s) b (attacksQueue s) (reports s) (launched s).
Definition set_queue (s : t) (q : list message) : t :=
  Self (enabled s) (applying_attack s) q (reports s) (launched s).
Definition do_report (s : t) (r : report) : t :=
  Self (enabled s) (applying_attack s) (attacksQueue s) (r :: reports s)
       (launched s).
Definition do_launch (s : t) (c : attack_call) : t :=
  Self (enabled s) (applying_attack s) (attacksQueue s) (reports s)
       (c :: launched s).

(** [str.lower()].  A [str] is held as its UTF-8 bytes.  On a string of
    ASCII characters the result has a-z for A-Z and is otherwise the same;
    on a string with any other character it is what the interpreter's
    Unicode tables give, the [unicode_lower] of the surroundings. *)
Definition lower_ascii (c : ascii) : ascii :=
  let n := nat_of_ascii c in
  if (65 <=? n)%nat && (n <=? 90)%nat then ascii_of_nat (n + 32) else c.

Fixpoint is_ascii (s : string) : bool :=
  match s with
  | EmptyString => true
  | String c r => (nat_of_ascii c <? 128)%nat && is_ascii r
  end.

Fixpoint ascii_lower (s : string) : string :=
  match s with
  | EmptyString => EmptyString
  | String c r => String (lower_ascii c) (ascii_lower r)
  end.

Definition lower (unicode_lower : string -> string) (s : string) : string :=
  if is_ascii s then ascii_lower s else unicode_lower s.

(** [tag in s] for two strings: [tag] is a substring of [s]. *)
Fixpoint contains (s tag : string) : bool :=
  String.prefix tag s
  || match s with
     | EmptyString => false
     | String _ r => contains r tag
     end.

(** Code that may raise: the exception or the value. *)
Definition try_ (A : Type) : Type := exn + A.
Definition raise {A} (e : exn) : try_ A := inl e.
Definition pure {A} (a : A) : try_ A := inr a.
Definition and_then {A B} (c : try_ A) (k : A -> try_ B) : try_ B :=
  match c with
  | inl e => inl e
  | inr a => k a
  end.

Declare Scope try_scope.
Delimit Scope try_scope with try.
Notation "x <~ c ;; k" := (and_then c (fun x => k))
  (at level 100, c at next level, right associativity) : try_scope.

(** [find_tag_in_msg].  On a document that is not an object [tag not in
    msg] is a substring test on a string and a membership test on an array,
    and raises on a number, a boolean or null; where the test lets the tag
    pass, [msg[tag]] raises, a string or an array having no string index. *)
Definition find_tag_in_msg (msg : payload) (tag : string) : try_ jvalue :=
  match msg with
  | JObject fields =>
      match fields !! tag with
      | None => raise (CannotFindTag tag)
      | Some v => pure v
      end
  | JOther (JStr s) =>
      if contains s tag then raise TypeError else raise (CannotFindTag tag)
  | JArray items =>
      if existsb (fun v => match v with
                           | JStr a => String.eqb a tag
                           | _ => false
                           end) items
      then raise TypeError else raise (CannotFindTag tag)
  | JOther _ => raise TypeError
  | NotJson => raise DecodeError
  end.

Section Environment.
(** [str.lower()] on a string that is not ASCII. *)
Variable unicode_lower : string -> string.
(** [os.getenv]. *)
Variable getenv : string -> option string.
(** Whether a call into an attack primitive of AttackerBase raises. *)
Variable primitive_raises : attack_call -> bool.

Definition env_host (key : string) : option string :=
  if String.eqb key "plc1" then getenv "PLC1_HOST"
  else if String.eqb key "plc2" then getenv "PLC2_HOST"
  else if String.eqb key "hmi1" then getenv "HMI1_HOST"
  else if String.eqb key "hmi2" then getenv "HMI2_HOST"
  else None.

Definition find_device_address (device_name : jvalue) : try_ string :=
  match device_name with
  | JStr name =>
      let key := lower unicode_lower name in
      match env_host key with
      | Some (String c r) => pure (String c r)
      | _ =>
          if String.eqb key "plc1" then pure "192.168.0.11"
          else if String.eqb key "plc2" then pure "192.168.0.12"
          else if String.eqb key "hmi1" then pure "192.168.0.21"
          else if String.eqb key "hmi2" then pure "192.168.0.22"
          else raise (TargetNotRecognized name)
      end
  | _ => raise TypeError
  end.

(** [mode.lower() == 'link']. *)
Definition mode_is_link (mode : jvalue) : try_ bool :=
  match mode with
  | JStr m => pure (String.eqb (lower unicode_lower m) "link")
  | _ => raise TypeError
  end.

(** The target of a mitm or replay command. *)
Definition link_target (msg : payload) (mode : jvalue) : try_ string :=
  (link <~ mode_is_link mode ;;
   if link then
     target_1 <~ find_tag_in_msg msg "target1" ;;
     target_2 <~ find_tag_in_msg msg "target2" ;;
     a1 <~ find_device_address target_1 ;;
     a2 <~ find_device_address target_2 ;;
     pure (a1 ++ "," ++ a2)
   else pure "192.168.0.1/24")%try.

(** [attack == kind]: a field that is not a string equals none. *)
Definition attack_is (attack : jvalue) (kind : string) : bool :=
  match attack with
  | JStr a => String.eqb a kind
  | _ => false
  end.

(** The attack the [try] block decides to launch, or the exception it
    raises before launching anything. *)
Definition decide_attack (msg : payload) : try_ attack_call :=
  (attack <~ find_tag_in_msg msg "attack" ;;
   if attack_is attack "ip-scan" then pure scan_scapy_attack
   else if attack_is attack "ddos" then
     timeout <~ find_tag_in_msg msg "timeout" ;;
     target <~ find_tag_in_msg msg "target" ;;
     target <~ find_device_address target ;;
     pure (ddos_attack timeout target 5)
   else if attack_is attack "port-scan" then pure scan_nmap_attack
   else if attack_is attack "mitm" then
     mode <~ find_tag_in_msg msg "mode" ;;
     timeout <~ find_tag_in_msg msg "timeout" ;;
     target <~ link_target msg mode ;;
     pure (mitm_scapy_attack target timeout)
   else if attack_is attack "replay" then
     mode <~ find_tag_in_msg msg "mode" ;;
     timeout <~ find_tag_in_msg msg "timeout" ;;
     replay <~ find_tag_in_msg msg "replay" ;;
     target <~ link_target msg mode ;;
     pure (replay_scapy_attack target timeout replay)
   else raise (AttackNotRecognized attack))%try.

(** The [try] block of [process_messages]: decode, report the start,
    decide, launch.  It returns the state it leaves behind and the
    exception it ends with, if any. *)
Definition try_block (msg : message) (s : t) : t * option exn :=
  match body msg with
  | NotJson => (s, Some DecodeError)
  | msg_json =>
      let s := do_report s (StartProcessing msg_json) in
      match decide_attack msg_json with
      | inl e => (s, Some e)
      | inr call =>
          let s := do_launch s call in
          if primitive_raises call then (s, Some (PrimitiveFailed call))
          else (s, None)
      end
  end.

(** [except Exception as e: self.report(str(e))]. *)
Definition except_block (r : t * option exn) : t :=
  match r with
  | (s, Some e) => do_report s (Failure e)
  | (s, None) => s
  end.

(** [process_messages], start to end on the dispatcher's thread. *)
Definition process_messages (msg : message) (s : t) : t :=
  let s := set_applying s true in
  let s := except_block (try_block msg s) in
  set_applying s false.

(** [on_message], run by the channel's receive thread. *)
Definition on_message (msg : message) (s : t) : t :=
  let s := do_report s (Received msg) in
  if applying_attack s then do_report s (Discarded msg)
  else set_queue s (attacksQueue s ++ [msg]).

(** *** The two threads, statement by statement *)

(** Where the dispatcher's thread stands: between two [_logic] calls,
    holding a message taken from the queue ([process_messages] called
    but the flag not yet set), or inside the [try] block. *)
Inductive dispatcher_pc :=
| Idle
| Fetched (m : message)
| Applying (m : message).

(** Where the receive thread stands: outside [on_message], or past the
    test of the flag and about to [put]. *)
Inductive receiver_pc :=
| Waiting
| Putting (m : message).

Record config := Config {
  state : t;
  dpc : dispatcher_pc;
  rpc : receiver_pc;
  (** the commands whose [try] block has run to its end, latest first *)
  completed : list message }.

Inductive event :=
| TryEnable (found : bool)   (* [_logic] while not enabled *)
| Disconnect                 (* [on_disconnect] *)
| Arrive (m : message)       (* [on_message] up to the test of the flag *)
| Put                        (* [on_message]: [attacksQueue.put] *)
| Poll                       (* [_logic]: [attacksQueue.get()] *)
| Begin                      (* [process_messages]: set the flag *)
| Finish.                    (* the [try] block, then reset the flag *)

(** One statement of one of the two threads; an event that is not
    enabled in the configuration leaves it unchanged. *)
Definition step (c : config) (ev : event) : config :=
  let s := state c in
  match ev, dpc c, rpc c with
  | TryEnable found, Idle, _ =>
      if enabled s then c
      else Config (set_enabled s found) Idle (rpc c) (completed c)
  | Disconnect, _, Waiting =>
      Config (set_enabled s false) (dpc c) Waiting (completed c)
  | Arrive m, _, Waiting =>
      let s := do_report s (Received m) in
      if applying_attack s
      then Config (do_report s (Discarded m)) (dpc c) Waiting (completed c)
      else Config s (dpc c) (Putting m) (completed c)
  | Put, _, Putting m =>
      Config (set_queue s (attacksQueue s ++ [m])) (dpc c) Waiting
             (completed c)
  | Poll, Idle, _ =>
      if enabled s then
        match attacksQueue s with
        | m :: q => Config (set_queue s q) (Fetched m) (rpc c) (completed c)
        | [] => c
        end
      else c
  | Begin, Fetched m, _ =>
      Config (set_applying s true) (Applying m) (rpc c) (completed c)
  | Finish, Applying m, _ =>
      Config (set_applying (except_block (try_block m s)) false) Idle
             (rpc c) (m :: completed c)
  | _, _, _ => c
  end.

Definition run (c : config) (evs : list event) : config :=
  fold_left step evs c.

Definition initial : config :=
  Config (Self false false [] [] []) Idle Waiting [].

(** The message in the dispatcher's hands, if any. *)
Definition in_flight (c : config) : list message :=
  match dpc c with
  | Idle => []
  | Fetched m => [m]
  | Applying m => [m]
  end.

(** The message the receive thread is about to put, if any. *)
Definition pending_put (c : config) : list message :=
  match rpc c with
  | Waiting => []
  | Putting m => [m]
  end.

(** Whether the dispatcher is inside a [try] block. *)
Definition executing (c : config) : bool :=
  match dpc c with
  | Applying _ => true
  | _ => false
  end.

(** The arrivals of a run that found no command executing, in order of
    arrival. *)
Fixpoint accepted (c : config) (evs : list event) : list message :=
  match evs with
  | [] => []
  | ev :: rest =>
      let here :=
        match ev, rpc c with
        | Arrive m, Waiting => if executing c then [] else [m]
        | _, _ => []
        end in
      here ++ accepted (step c ev) rest
  end.

(** The arrivals of a run that found a command executing. *)
Fixpoint refused (c : config) (evs : list event) : list message :=
  match evs with
  | [] => []
  | ev :: rest =>
      let here :=
        match ev, rpc c with
        | Arrive m, Waiting => if executing c then [m] else []
        | _, _ => []
        end in
      here ++ refused (step c ev) rest
  end.
End Environment.

(** The fields a command of a recognized kind must carry, given the
    fields it does carry (the link targets are required in link mode). *)
Definition required (unicode_lower : string -> string) (kind : string)
    (fields : gmap string jvalue) : list string :=
  let link :=
    match fields !! "mode" with
    | Some (JStr m) => String.eqb (lower unicode_lower m) "link"
    | _ => false
    end in
  let targets := if link then ["target1"; "target2"] else [] in
  if String.eqb kind "ddos" then ["timeout"; "target"]
  else if String.eqb kind "mitm" then ["mode"; "timeout"] ++ targets
  else if String.eqb kind "replay" then ["mode"; "timeout"; "replay"] ++ targets
  else [].

Definition recognized (attack : jvalue) : bool :=
  match attack with
  | JStr k =>
      String.eqb k "ip-scan" || String.eqb k "ddos" || String.eqb k "port-scan"
      || String.eqb k "mitm" || String.eqb k "replay"
  | _ => false
  end.
End AttackerRemote.

(** ** AttackerRemote.py: the dispatcher's loop *)

Module AttackerLoop.
Open Scope string_scope.

(** A value of the connection parameters: a [str], or anything else. *)
Inductive param :=
| PStr (s : string)
| POther.

(** What [__try_enable] reports. *)
Inductive report :=
| NotFound (checked : list string)
| ParseFailed (path : string)
| MissingKeys (path : string)
| Placeholders (path : string)
| ParamsFound (params : gmap string param).

(** The dispatcher: the attributes the command channel uses, and those of
    [__try_enable]: the connection file, whether a client thread object
    exists, the client threads started so far and the reports of
    [__try_enable]. *)
Record t := Self {
  base : AttackerRemote.t;
  remote_connection_file : string;
  mqtt_thread : bool;
  threads_started : nat;
  reports : list report }.

Definition set_base (s : t) (b : AttackerRemote.t) : t :=
  Self b (remote_connection_file s) (mqtt_thread s) (threads_started s)
       (reports s).
Definition set_file (s : t) (path : string) : t :=
  Self (base s) path (mqtt_thread s) (threads_started s) (reports s).
Definition do_report (s : t) (r : report) : t :=
  Self (base s) (remote_connection_file s) (mqtt_thread s)
       (threads_started s) (r :: reports s).
Definition start_thread (s : t) : t :=
  Self (base s) (remote_connection_file s) true (S (threads_started s))
       (reports s).

(** [s.startswith(c)] and [s.endswith(c)] for a one-character [c]. *)
Definition startswith (s : string) (c : ascii) : bool :=
  match s with
  | EmptyString => false
  | String a _ => Ascii.eqb a c
  end.

Fixpoint endswith (s : string) (c : ascii) : bool :=
  match s with
  | EmptyString => false
  | String a EmptyString => Ascii.eqb a c
  | String _ r => endswith r c
  end.

(** [os.path.join(a, b)]. *)
Definition join (a b : string) : string :=
  if startswith b "/" then b
  else if String.eqb a "" || endswith a "/" then a ++ b
  else a ++ "/" ++ b.

Definition default_name : string := "MQTTSampleConnection.txt".

(** Lines 94 and 101: the two validations of the parameters. *)
Definition required_keys : list string := ["type"; "address"; "port"; "topic"].

Definition has_required_keys (params : gmap string param) : bool :=
  forallb (fun key => match params !! key with
                      | Some _ => true
                      | None => false
                      end) required_keys.

Definition is_placeholder (value : param) : bool :=
  match value with
  | PStr s => startswith s "<" || endswith s ">"
  | POther => false
  end.

Definition has_placeholder (params : gmap string param) : bool :=
  existsb (fun kv => is_placeholder (snd kv)) (map_to_list params).

Section Environment.
(** [os.getcwd()]. *)
Variable getcwd : string.
(** [os.path.exists]. *)
Variable path_exists : string -> bool.
(** [read_mqtt_params]: the parameters of a file, or [None] when it
    raises. *)
Variable read_mqtt_params : string -> option (gmap string param).
(** [self.mqtt_thread.is_alive()]. *)
Variable is_alive : bool.

(** Lines 57-62: the default locations. *)
Definition default_candidates : list string :=
  [ "/src/" ++ default_name;
    "/src/mqtt_samples/" ++ default_name;
    join getcwd default_name ].

(** Lines 51-62. *)
Definition candidate_names (s : t) : list string :=
  ((if String.eqb (remote_connection_file s) "" then []
    else [remote_connection_file s])
   ++ default_candidates)%list.

(** Lines 64-70: the first candidate that is not empty and exists. *)
Definition found (names : list string) : option string :=
  List.find (fun path => negb (String.eqb path "") && path_exists path) names.

(** [__try_enable], lines 42-117; the sleeps are left out. *)
Definition __try_enable (s : t) : t :=
  let names := candidate_names s in
  match found names with
  | None => do_report s (NotFound names)
  | Some path =>
      let s := set_file s path in
      match read_mqtt_params (remote_connection_file s) with
      | None => do_report s (ParseFailed (remote_connection_file s))
      | Some connection_params =>
          if negb (has_required_keys connection_params) then
            do_report s (MissingKeys (remote_connection_file s))
          else if has_placeholder connection_params then
            do_report s (Placeholders (remote_connection_file s))
          else
            let s := do_report s (ParamsFound connection_params) in
            let s := if negb (mqtt_thread s) || negb is_alive
                     then start_thread s else s in
            set_base s (AttackerRemote.set_enabled (base s) true)
      end
  end.

(** [str.lower()] beyond ASCII, [os.getenv] and the attack primitives, as
    [process_messages] uses them. *)
Variable unicode_lower : string -> string.
Variable getenv : string -> option string.
Variable primitive_raises : AttackerRemote.attack_call -> bool.

(** [_logic], lines 33-40; the sleep is left out. *)
Definition _logic (s : t) : t :=
  if negb (AttackerRemote.enabled (base s)) then __try_enable s
  else
    match AttackerRemote.attacksQueue (base s) with
    | msg :: rest =>
        set_base s
          (AttackerRemote.process_messages unicode_lower getenv primitive_raises msg
             (AttackerRemote.set_queue (base s) rest))
    | [] => s
    end.
End Environment.
End AttackerLoop.

(** * Vocabulary of the statements *)

(** ** Frames and triples *)

(** Membership of a tag name in a list of names. *)
Definition mem (n : string) (l : list string) : bool :=
  existsb (String.eqb n) l.

(** The tags the devices use. *)
Definition tag_names : list string := map fst TAG.TAG_LIST.

(** Nothing stands in the way of a cycle started in [w0]: the store answers
    every access and every tag of [TAG_LIST] is registered. *)
Definition healthy {D} (e : env) (w0 : world D) : Prop :=
  (∀ k, avail e k = true) ∧
  (∀ n, mem n tag_names = true → is_Some (rows w0 !! n)).

(** The writes a device has performed since the write log was [since]. *)
Definition new_writes {D} (w : world D) (since : list (string * Q))
    : list (string * Q) :=
  take (length (writes w) - length since) (writes w).

(** [w] is [w0] after some accesses that left the tags of [keep] alone. *)
Record frame {D} (keep : list string) (w0 w : world D) : Prop := Frame {
  frame_rows : ∀ n, mem n keep = true → rows w !! n = rows w0 !! n;
  frame_dom : ∀ n, is_Some (rows w0 !! n) → is_Some (rows w !! n);
  frame_writes : ∃ l, writes w = l ++ writes w0
                      ∧ ∀ n v, (n, v) ∈ l → mem n keep = false }.

Definition hoare {D A} (e : env) (P : world D → Prop) (m : M D A)
    (Q : A → world D → Prop) (E : world D → Prop) : Prop :=
  ∀ w, P w →
    match m e w with
    | (Ok a, w') => Q a w'
    | (Err _, w') => E w'
    end.

(** [m] leaves the tags of [keep] alone, fails only in an unhealthy cycle,
    and its result satisfies [R]. *)
Definition keeps {D A} (e : env) (keep : list string) (w0 : world D)
    (m : M D A) (R : A → Prop) : Prop :=
  hoare e (frame keep w0) m
    (fun a w => frame keep w0 w ∧ R a)
    (fun w => frame keep w0 w ∧ ¬ healthy e w0).

(** ** ControlLogic *)

(** The seven controlled actuators and their tag pairs, as [PLC1._logic]
    passes them to [_check_manual_input]. *)
Inductive actuator :=
| control_rods
| pump_speed
| cooling_valve
| loop_valve
| pressurizer_heater
| pressurizer_spray
| pressurizer_valve.

Definition mode_tag (a : actuator) : string :=
  match a with
  | control_rods => TAG.TAG_CORE_CONTROL_ROD_MODE
  | pump_speed => TAG.TAG_CORE_RCP_MODE
  | cooling_valve => TAG.TAG_CORE_COOLANT_VALVE_MODE
  | loop_valve => TAG.TAG_PRIMARY_LOOP_VALVE_MODE
  | pressurizer_heater => TAG.TAG_CORE_PRESSURIZER_HEATER_MODE
  | pressurizer_spray => TAG.TAG_CORE_PRESSURIZER_SPRAY_MODE
  | pressurizer_valve => TAG.TAG_CORE_PRESSURIZER_VALVE_MODE
  end.

Definition command_tag (a : actuator) : string :=
  match a with
  | control_rods => TAG.TAG_CORE_CONTROL_ROD_POS_VALUE
  | pump_speed => TAG.TAG_CORE_RCP_SPEED_CMD
  | cooling_valve => TAG.TAG_CORE_COOLANT_VALVE_CMD
  | loop_valve => TAG.TAG_PRIMARY_LOOP_VALVE_CMD
  | pressurizer_heater => TAG.TAG_CORE_PRESSURIZER_HEATER_CMD
  | pressurizer_spray => TAG.TAG_CORE_PRESSURIZER_SPRAY_CMD
  | pressurizer_valve => TAG.TAG_CORE_PRESSURIZER_VALVE_CMD
  end.

(** The eight tags the alarm logic compares. *)
Definition alarm_inputs : list string :=
  [ TAG.TAG_CORE_TEMP_OUT_VALUE; TAG.TAG_CORE_PRESSURE_VALUE;
    TAG.TAG_CORE_FLOW_VALUE; TAG.TAG_PRIMARY_RAD_MON_VALUE;
    TAG.TAG_CORE_TEMP_OUT_MAX; TAG.TAG_CORE_PRESSURE_MAX;
    TAG.TAG_CORE_FLOW_MIN; TAG.TAG_PRIMARY_RAD_ALARM_MAX ].

(** What a cycle does to the alarm tag: it writes [v], or leaves the tag
    alone. *)
Definition alarm_effect (w0 w' : world unit) (written : option Q) : Prop :=
  match written with
  | Some v => tag_value w' TAG.TAG_CORE_ALARM_STATUS = Some v
              ∧ (TAG.TAG_CORE_ALARM_STATUS, v) ∈ new_writes w' (writes w0)
  | None => frame [TAG.TAG_CORE_ALARM_STATUS] w0 w'
  end.

(** A store that always answers; the wall clock is the access count. *)
Definition env0 : env := Env (fun _ => true) (fun k => Z.of_nat k).

(** The seeded store with some tags overwritten. *)
Definition store_with (l : list (string * Q)) : gmap string row :=
  foldr (fun p m => <[p.1 := Row p.2 0]> m) FactorySimulation.seeded l.

Definition plc_world (l : list (string * Q)) : world unit :=
  World tt (store_with l) [] 0.

(** What a cycle compares for the alarm: four readings and their limits. *)
Record readings := Readings {
  r_t_out : Q; r_p_core : Q; r_flow : Q; r_rad : Q;
  r_tmax : Q; r_pmax : Q; r_fmin : Q; r_radmax : Q }.

Definition reads (w : world unit) (r : readings) : Prop :=
  tag_value w TAG.TAG_CORE_TEMP_OUT_VALUE = Some (r_t_out r)
  ∧ tag_value w TAG.TAG_CORE_PRESSURE_VALUE = Some (r_p_core r)
  ∧ tag_value w TAG.TAG_CORE_FLOW_VALUE = Some (r_flow r)
  ∧ tag_value w TAG.TAG_PRIMARY_RAD_MON_VALUE = Some (r_rad r)
  ∧ tag_value w TAG.TAG_CORE_TEMP_OUT_MAX = Some (r_tmax r)
  ∧ tag_value w TAG.TAG_CORE_PRESSURE_MAX = Some (r_pmax r)
  ∧ tag_value w TAG.TAG_CORE_FLOW_MIN = Some (r_fmin r)
  ∧ tag_value w TAG.TAG_PRIMARY_RAD_ALARM_MAX = Some (r_radmax r).

(** At least one of the four trip conditions holds. *)
Definition tripping (r : readings) : Prop :=
  r_tmax r < r_t_out r ∨ r_pmax r < r_p_core r
  ∨ r_flow r < r_fmin r ∨ r_radmax r < r_rad r.

(** All four readings are within their hysteresis margins. *)
Definition within_hysteresis (r : readings) : Prop :=
  r_t_out r < r_tmax r - PLC1.HYST
  ∧ r_p_core r < r_pmax r - PLC1.P_HYST
  ∧ r_fmin r + 0.02 < r_flow r
  ∧ r_rad r < r_radmax r - PLC1.RAD_HYST.

(** The alarm tag holds a tripped (non-zero) status. *)
Definition tripped (w : world unit) : Prop :=
  ∃ a, tag_value w TAG.TAG_CORE_ALARM_STATUS = Some a ∧ truthy a = true.

(** The alarm tag holds the clear (zero) status. *)
Definition clear (w : world unit) : Prop :=
  ∃ a, tag_value w TAG.TAG_CORE_ALARM_STATUS = Some a ∧ truthy a = false.

(** [n] cycles of the controller in a row, nothing else touching the store. *)
Fixpoint cycles (n : nat) : M unit unit :=
  match n with
  | O => ret tt
  | S k => PLC1._logic ;;; cycles k
  end.

(** The seeded plant with the outlet temperature above its maximum and the
    alarm already tripped. *)
Definition hot_tripped : world unit :=
  plc_world [(TAG.TAG_CORE_TEMP_OUT_VALUE, 321); (TAG.TAG_CORE_ALARM_STATUS, 1)].

Definition hot_readings : readings :=
  Readings 321 15 0.6 0.02 320 15.5 0.5 0.20.

(** The seeded plant with the relief valve open and the pressure in the
    dead band. *)
Definition relief_latched : world unit :=
  plc_world [(TAG.TAG_CORE_PRESSURE_VALUE, 15.7);
             (TAG.TAG_CORE_RELIEF_VALVE_STATUS, 1)].

(** ** PhysicsEngine *)

(** What a tick reads from the store. *)
Record tick_inputs := TickInputs {
  i_flux : Q; i_temp_in : Q; i_temp_out : Q; i_pressure : Q; i_flow : Q;
  i_rcp_cmd : Q; i_cool_valve : Q; i_loop_valve : Q; i_rod_pos : Q;
  i_flux_sp : Q; i_heater_cmd : Q; i_spray_cmd : Q; i_relief_status : Q }.

Definition tick_reads (w : world FactorySimulation.t) (i : tick_inputs) : Prop :=
  tag_value w TAG.TAG_CORE_NEUTRON_FLUX_VALUE = Some (i_flux i)
  ∧ tag_value w TAG.TAG_CORE_TEMP_IN_VALUE = Some (i_temp_in i)
  ∧ tag_value w TAG.TAG_CORE_TEMP_OUT_VALUE = Some (i_temp_out i)
  ∧ tag_value w TAG.TAG_CORE_PRESSURE_VALUE = Some (i_pressure i)
  ∧ tag_value w TAG.TAG_CORE_FLOW_VALUE = Some (i_flow i)
  ∧ tag_value w TAG.TAG_CORE_RCP_SPEED_CMD = Some (i_rcp_cmd i)
  ∧ tag_value w TAG.TAG_CORE_COOLANT_VALVE_CMD = Some (i_cool_valve i)
  ∧ tag_value w TAG.TAG_PRIMARY_LOOP_VALVE_CMD = Some (i_loop_valve i)
  ∧ tag_value w TAG.TAG_CORE_CONTROL_ROD_POS_VALUE = Some (i_rod_pos i)
  ∧ tag_value w TAG.TAG_CORE_NEUTRON_FLUX_SP = Some (i_flux_sp i)
  ∧ tag_value w TAG.TAG_CORE_PRESSURIZER_HEATER_CMD = Some (i_heater_cmd i)
  ∧ tag_value w TAG.TAG_CORE_PRESSURIZER_SPRAY_CMD = Some (i_spray_cmd i)
  ∧ tag_value w TAG.TAG_CORE_RELIEF_VALVE_STATUS = Some (i_relief_status i).

(** A plant right after [init], 100 ms after its previous tick. *)
Definition fresh_self : FactorySimulation.t :=
  FactorySimulation.Self 100 0 0.5 0.5 (FactorySimulation.RadSpike false 0 0.02).

Definition factory0 : world FactorySimulation.t :=
  World fresh_self (store_with []) [] 0.

Definition inputs0 : tick_inputs :=
  TickInputs 0.8 290 300 15 0.6 0.6 0.5 0.5 50 0.9 0.2 0 0.

(** No noise, no spike: the spike draw is above [RAD_SPIKE_PROB]. *)
Definition quiet : FactorySimulation.entropy :=
  FactorySimulation.Entropy 0 0 0 0 0 0.5 0.5 0.5 1000.

(** Every Gaussian sample of the tick is zero. *)
Definition noise_free (rnd : FactorySimulation.entropy) : Prop :=
  FactorySimulation.z_flux rnd = 0
  ∧ FactorySimulation.z_temp rnd = 0
  ∧ FactorySimulation.z_pressure rnd = 0
  ∧ FactorySimulation.z_sg rnd = 0
  ∧ FactorySimulation.z_rad rnd = 0.

(** The spike draws and the wall clock of two ticks agree. *)
Definition same_spike_draws (rnd1 rnd2 : FactorySimulation.entropy) : Prop :=
  FactorySimulation.u_spike rnd1 = FactorySimulation.u_spike rnd2
  ∧ FactorySimulation.u_sec rnd1 = FactorySimulation.u_sec rnd2
  ∧ FactorySimulation.u_level rnd1 = FactorySimulation.u_level rnd2
  ∧ FactorySimulation.now rnd1 = FactorySimulation.now rnd2.

(** Another plant: other loop times with the same dt, a spike in progress,
    the alarm tripped, seven accesses already made. *)
Definition factory1 : world FactorySimulation.t :=
  World (FactorySimulation.Self 350 250 0.5 0.5
           (FactorySimulation.RadSpike true 2000 0.3))
        (store_with [(TAG.TAG_CORE_ALARM_STATUS, 1)]) [] 7.

(** No noise, and a spike draw below [RAD_SPIKE_PROB]. *)
Definition spiking : FactorySimulation.entropy :=
  FactorySimulation.Entropy 0 0 0 0 0 0.0001 0.5 0.5 1000.

(** The plant of [factory0] with a spike in progress until second 1000. *)
Definition factory_in_spike : world FactorySimulation.t :=
  World (FactorySimulation.Self 100 0 0.5 0.5
           (FactorySimulation.RadSpike true 1000 0.3))
        (store_with []) [] 0.

(** No noise, no new spike, at second 999 and at second 1001. *)
Definition before_expiry : FactorySimulation.entropy :=
  FactorySimulation.Entropy 0 0 0 0 0 0.5 0.5 0.5 999.
Definition after_expiry : FactorySimulation.entropy :=
  FactorySimulation.Entropy 0 0 0 0 0 0.5 0.5 0.5 1001.

(** The tags a tick writes, in the order it writes them. *)
Definition write_order : list string :=
  [ TAG.TAG_PRIMARY_LOOP_VALVE_POS_VALUE;
    TAG.TAG_CORE_NEUTRON_FLUX_VALUE; TAG.TAG_CORE_TEMP_IN_VALUE;
    TAG.TAG_CORE_TEMP_OUT_VALUE; TAG.TAG_CORE_PRESSURE_VALUE;
    TAG.TAG_CORE_FLOW_VALUE; TAG.TAG_SG_IN_PRESSURE_VALUE;
    TAG.TAG_PRIMARY_RAD_MON_VALUE ].

(** The tags a tick reads, in the order it reads them, and its 21 store
    accesses in order: the 13 reads, then the 8 writes. *)
Definition read_order : list string :=
  [ TAG.TAG_CORE_NEUTRON_FLUX_VALUE; TAG.TAG_CORE_TEMP_IN_VALUE;
    TAG.TAG_CORE_TEMP_OUT_VALUE; TAG.TAG_CORE_PRESSURE_VALUE;
    TAG.TAG_CORE_FLOW_VALUE; TAG.TAG_CORE_RCP_SPEED_CMD;
    TAG.TAG_CORE_COOLANT_VALVE_CMD; TAG.TAG_PRIMARY_LOOP_VALVE_CMD;
    TAG.TAG_CORE_CONTROL_ROD_POS_VALUE; TAG.TAG_CORE_NEUTRON_FLUX_SP;
    TAG.TAG_CORE_PRESSURIZER_HEATER_CMD; TAG.TAG_CORE_PRESSURIZER_SPRAY_CMD;
    TAG.TAG_CORE_RELIEF_VALVE_STATUS ].

Definition access_order : list string := read_order ++ write_order.

(** The tag of the [j]-th access of a tick, counted from 0. *)
Definition accessed (j : nat) : string := nth j access_order ""%string.

(** The store answers the [j]-th access of a tick started in [w0]: it can be
    reached then, and the tag accessed is registered. *)
Definition answers {D} (e : env) (w0 : world D) (j : nat) : bool :=
  avail e (accesses w0 + j)
  && match rows w0 !! accessed j with
     | Some _ => true
     | None => false
     end.

(** The store answers each of the first [j] accesses. *)
Definition answered {D} (e : env) (w0 : world D) (j : nat) : Prop :=
  ∀ i, (i < j)%nat → answers e w0 i = true.

(** The error of an access the store does not answer. *)
Definition failure {D} (e : env) (w0 : world D) (j : nat) : store_error :=
  if avail e (accesses w0 + j) then UnknownTag (accessed j) else Unavailable.

(** A tick started in [w0] has made [j] store accesses and the first [k]
    writes of [write_order], and nothing else to the store: the write log
    has grown by these writes, each tag written holds the value logged for
    it, every other tag keeps its row, and the same tags are registered. *)
Record progress {D} (w0 w : world D) (j k : nat) : Prop := Progress {
  progress_accesses : accesses w = (accesses w0 + j)%nat;
  progress_log : map fst (new_writes w (writes w0)) = rev (take k write_order);
  progress_length : (length (writes w0) <= length (writes w))%nat;
  progress_suffix : writes w = (new_writes w (writes w0) ++ writes w0)%list;
  progress_stand : ∀ n v, (n, v) ∈ new_writes w (writes w0) →
                          tag_value w n = Some v;
  progress_rows : ∀ n, n ∉ take k write_order → rows w !! n = rows w0 !! n;
  progress_dom : ∀ n, is_Some (rows w !! n) ↔ is_Some (rows w0 !! n) }.

(** The tick was ended with the error [err] by its access [j], the first
    one the store did not answer: of the 21 accesses the first 13 are
    reads, so the writes made before it are the first [j - 13]; ended by a
    read or by the first write, the tick has written nothing. *)
Definition aborted {D} (e : env) (w0 : world D) (err : store_error)
    (w : world D) : Prop :=
  ∃ j, (j < 21)%nat ∧ answered e w0 j ∧ answers e w0 j = false
       ∧ err = failure e w0 j ∧ progress w0 w (S j) (j - 13)
       ∧ ((j <= 13)%nat → writes w = writes w0 ∧ rows w = rows w0).

(** A triple whose exceptional postcondition sees the error. *)
Definition raises {D A} (e : env) (P : world D → Prop) (m : M D A)
    (Q : A → world D → Prop) (E : store_error → world D → Prop) : Prop :=
  ∀ w, P w →
    match m e w with
    | (Ok a, w') => Q a w'
    | (Err err, w') => E err w'
    end.

(** A store that stops answering at the device's 17th access, the write of
    the outlet temperature. *)
Definition env_fails_at_17 : env :=
  Env (fun k => (k <? 16)%nat) (fun k => Z.of_nat k).

(** The tag [n] holds a value equal to [q]. *)
Definition holds {D} (w : world D) (n : string) (q : Q) : bool :=
  match tag_value w n with
  | Some v => Qeq_bool v q
  | None => false
  end.

(** The device has written the tag [n] since the write log [since]. *)
Definition wrote {D} (w : world D) (since : list (string * Q)) (n : string)
    : bool :=
  existsb (fun p => String.eqb p.1 n) (new_writes w since).

(** ** AttackDispatcher *)

(** What a failing command leaves behind: the start and the failure are
    reported, nothing is launched, the flag is reset, the queue and the
    connection are as they were. *)
Definition failed_with (s s' : AttackerRemote.t)
    (fields : gmap string AttackerRemote.jvalue) (err : AttackerRemote.exn)
    : Prop :=
  s' = AttackerRemote.Self (AttackerRemote.enabled s) false
         (AttackerRemote.attacksQueue s)
         (AttackerRemote.Failure err
          :: AttackerRemote.StartProcessing (AttackerRemote.JObject fields)
          :: AttackerRemote.reports s)
         (AttackerRemote.launched s).

(** Every command the dispatcher has completed, holds, has queued or is
    about to queue, in order of arrival. *)
Definition backlog (c : AttackerRemote.config) : list AttackerRemote.message :=
  rev (AttackerRemote.completed c) ++ AttackerRemote.in_flight c
  ++ AttackerRemote.attacksQueue (AttackerRemote.state c)
  ++ AttackerRemote.pending_put c.

(** The commands a run delivers to [on_message]. *)
Definition arrivals (evs : list AttackerRemote.event)
    : list AttackerRemote.message :=
  flat_map (fun ev => match ev with
                      | AttackerRemote.Arrive m => [m]
                      | _ => []
                      end) evs.

(** The attack a command launches when its [try] block runs. *)
Definition effects_of (unicode_lower : string → string)
    (getenv : string → option string)
    (m : AttackerRemote.message) : list AttackerRemote.attack_call :=
  match AttackerRemote.body m with
  | AttackerRemote.JObject fields =>
      match AttackerRemote.decide_attack unicode_lower getenv (AttackerRemote.JObject fields) with
      | inr call => [call]
      | inl _ => []
      end
  | _ => []
  end.

(** The flag is set exactly while a [try] block runs, and the attacks
    launched so far are those of the completed commands. *)
Definition consistent (unicode_lower : string → string)
    (getenv : string → option string)
    (c : AttackerRemote.config) : Prop :=
  AttackerRemote.applying_attack (AttackerRemote.state c)
  = AttackerRemote.executing c
  ∧ AttackerRemote.launched (AttackerRemote.state c)
    = flat_map (effects_of unicode_lower getenv) (AttackerRemote.completed c).

(** What an event adds to the accepted arrivals. *)
Definition accepted_here (c : AttackerRemote.config) (ev : AttackerRemote.event)
    : list AttackerRemote.message :=
  match ev, AttackerRemote.rpc c with
  | AttackerRemote.Arrive m, AttackerRemote.Waiting =>
      if AttackerRemote.executing c then [] else [m]
  | _, _ => []
  end.

(** No command of the runs below holds a string that is not ASCII. *)
Definition no_unicode : string → string := fun s => s.

Definition no_env : string → option string := fun _ => None.
Definition never_raises : AttackerRemote.attack_call → bool := fun _ => false.

(** A ddos command that names no target. *)
Definition ddos_fields : gmap string AttackerRemote.jvalue :=
  <["attack"%string := AttackerRemote.JStr "ddos"]>
    (<["timeout"%string := AttackerRemote.JNum 5]> ∅).

Definition ddos_without_target : AttackerRemote.message :=
  AttackerRemote.Message 1 "attacks/ddos" (AttackerRemote.JObject ddos_fields).

(** An enabled dispatcher with nothing queued. *)
Definition idle_dispatcher : AttackerRemote.t :=
  AttackerRemote.Self true false [] [] [].

(** Three deliveries: A is accepted and run, B arrives while A runs, C
    arrives after A has finished. *)
Definition msg_A : AttackerRemote.message :=
  AttackerRemote.Message 1 "attacks/a"
    (AttackerRemote.JObject (<["attack"%string := AttackerRemote.JStr "ip-scan"]> ∅)).
Definition msg_B : AttackerRemote.message :=
  AttackerRemote.Message 2 "attacks/b"
    (AttackerRemote.JObject (<["attack"%string := AttackerRemote.JStr "port-scan"]> ∅)).
Definition msg_C : AttackerRemote.message :=
  AttackerRemote.Message 3 "attacks/c"
    (AttackerRemote.JObject (<["attack"%string := AttackerRemote.JStr "port-scan"]> ∅)).

Definition overlapping_run : list AttackerRemote.event :=
  [ AttackerRemote.TryEnable true; AttackerRemote.Arrive msg_A;
    AttackerRemote.Put; AttackerRemote.Poll; AttackerRemote.Begin;
    AttackerRemote.Arrive msg_B ].

(** B is delivered between the dispatcher taking A from the queue and
    [process_messages] setting the flag; then A runs, and the dispatcher
    polls again. *)
Definition race_run : list AttackerRemote.event :=
  [ AttackerRemote.TryEnable true; AttackerRemote.Arrive msg_A;
    AttackerRemote.Put; AttackerRemote.Poll; AttackerRemote.Arrive msg_B;
    AttackerRemote.Begin; AttackerRemote.Put; AttackerRemote.Finish;
    AttackerRemote.Poll; AttackerRemote.Begin; AttackerRemote.Finish ].

(** ** ControlLogic: the automatic commands *)

(** The upper end of a command's range: percent for the rods, a fraction
    for the others. *)
Definition command_limit (a : actuator) : Q :=
  match a with
  | control_rods => 100
  | _ => 1
  end.

(** The tags [PLC1._logic] writes. *)
Definition plc_outputs : list string :=
  [ TAG.TAG_CORE_CONTROL_ROD_POS_VALUE; TAG.TAG_CORE_RCP_SPEED_CMD;
    TAG.TAG_CORE_COOLANT_VALVE_CMD; TAG.TAG_PRIMARY_LOOP_VALVE_CMD;
    TAG.TAG_CORE_PRESSURIZER_HEATER_CMD; TAG.TAG_CORE_PRESSURIZER_SPRAY_CMD;
    TAG.TAG_CORE_RELIEF_VALVE_STATUS; TAG.TAG_CORE_PRESSURIZER_VALVE_CMD;
    TAG.TAG_CORE_ALARM_STATUS ].

(** The five commands that move by fixed steps, the largest step up and the
    largest step down of each. *)
Definition stepped (a : actuator) : bool :=
  match a with
  | control_rods | pressurizer_valve => false
  | _ => true
  end.

Definition step_up (a : actuator) : Q :=
  match a with
  | pressurizer_heater | pressurizer_spray => 0.03
  | _ => 0.02
  end.

Definition step_down (a : actuator) : Q :=
  match a with
  | pressurizer_heater | pressurizer_spray => 0.02
  | _ => 0.01
  end.

(** The seeded plant with the pump speed command far out of range. *)
Definition pump_out_of_range : world unit :=
  plc_world [(TAG.TAG_CORE_RCP_SPEED_CMD, 7.5)].


(** ** PhysicsEngine: lags and the radiation spike *)

(** [x] lies between [a] and [b], whichever is the larger. *)
Definition between (a b x : Q) : Prop :=
  (a <= b → a <= x ∧ x <= b) ∧ (b <= a → b <= x ∧ x <= a).

(** The radiation a tick reports for a level and the noise sample. *)
Definition reported_radiation (rnd : FactorySimulation.entropy) (lvl : Q) : Q :=
  py_max 0 (lvl + FactorySimulation.gauss 0 0.005 (FactorySimulation.z_rad rnd)).

(** ** AttackDispatcher: targets and the connection file *)

(** The devices [find_device_address] knows: the lower-case name, the
    environment variable that overrides the address, the legacy address. *)
Definition device_table : list (string * string * string) :=
  [ ("plc1", "PLC1_HOST", "192.168.0.11");
    ("plc2", "PLC2_HOST", "192.168.0.12");
    ("hmi1", "HMI1_HOST", "192.168.0.21");
    ("hmi2", "HMI2_HOST", "192.168.0.22") ]%string.

(** What the file system and the client thread answer to one call of
    [__try_enable]. *)
Record surroundings := Surroundings {
  path_exists : string → bool;
  read_mqtt_params : string → option (gmap string AttackerLoop.param);
  is_alive : bool }.

Definition try_enable_in (getcwd : string) (s : AttackerLoop.t)
    (x : surroundings) : AttackerLoop.t :=
  AttackerLoop.__try_enable getcwd (path_exists x) (read_mqtt_params x)
    (is_alive x) s.

(** The parameters pass the two validations. *)
Definition valid_params (params : gmap string AttackerLoop.param) : Prop :=
  (∀ key, key ∈ AttackerLoop.required_keys → is_Some (params !! key))
  ∧ (∀ key v, params !! key = Some (AttackerLoop.PStr v) →
       AttackerLoop.startswith v "<" = false
       ∧ AttackerLoop.endswith v ">" = false).

(** A dispatcher just constructed, no connection file configured. *)
Definition fresh_dispatcher : AttackerLoop.t :=
  AttackerLoop.Self (AttackerRemote.Self false false [] [] []) "" false 0 [].

(** Connection parameters that pass both validations. *)
Definition broker_params : gmap string AttackerLoop.param :=
  <["type"%string := AttackerLoop.PStr "mqtt"]>
    (<["address"%string := AttackerLoop.PStr "broker"]>
       (<["port"%string := AttackerLoop.POther]>
          (<["topic"%string := AttackerLoop.PStr "attacks"]> ∅))).

(** Only the first default file exists; it holds [broker_params]. *)
Definition default_file_only : surroundings :=
  Surroundings (String.eqb "/src/MQTTSampleConnection.txt")
    (fun _ => Some broker_params) false.


(** An enabled dispatcher with A and B queued. *)
Definition two_queued : AttackerLoop.t :=
  AttackerLoop.Self (AttackerRemote.Self true false [msg_A; msg_B] [] [])
    "" false 0 [].


(** * Proofs *)

(** ** Numerics *)

Lemma Qltb_lt x y : Qltb x y = true <-> x < y.
Proof.
  unfold Qltb. rewrite negb_true_iff, <- not_true_iff_false, Qle_bool_iff.
  split; [apply Qnot_le_lt | apply Qlt_not_le].
Qed.

Lemma Qltb_ge x y : Qltb x y = false <-> y <= x.
Proof. unfold Qltb. rewrite negb_false_iff. apply Qle_bool_iff. Qed.

Lemma Qgtb_gt x y : Qgtb x y = true <-> y < x.
Proof. apply Qltb_lt. Qed.

Lemma Qgtb_le x y : Qgtb x y = false <-> x <= y.
Proof. apply Qltb_ge. Qed.

Lemma py_max_l a b : a <= py_max a b.
Proof.
  unfold py_max. destruct (Qgtb b a) eqn:E; [|lra].
  apply Qgtb_gt in E. lra.
Qed.

Lemma py_max_r a b : b <= py_max a b.
Proof.
  unfold py_max. destruct (Qgtb b a) eqn:E; [lra|].
  apply Qgtb_le in E. lra.
Qed.

(** ** A program logic for device computations *)

Section Logic.
Context {D : Type}.
Implicit Types (w : world D) (e : env).

Lemma frame_refl keep w : frame keep w w.
Proof.
  split; [done | done |]. exists []. split; [done |].
  intros n v H. by apply elem_of_nil in H.
Qed.

Lemma frame_bump keep w0 w : frame keep w0 w → frame keep w0 (bump w).
Proof. intros [H1 H2 H3]. by split. Qed.

Lemma frame_put_self keep w0 w d :
  frame keep w0 w → frame keep w0 (World d (rows w) (writes w) (accesses w)).
Proof. intros [H1 H2 H3]. by split. Qed.

Lemma frame_set keep w0 w n r v k :
  mem n keep = false → frame keep w0 w →
  frame keep w0 (World (self w) (<[n := r]> (rows w)) ((n, v) :: writes w) k).
Proof.
  intros Hn [H1 H2 [l [Hl Hk]]]. split; simpl.
  - intros m Hm. rewrite lookup_insert_ne; [by apply H1 |].
    intros ->. congruence.
  - intros m Hm. destruct (decide (n = m)) as [->|Hne].
    + rewrite lookup_insert_eq. by eexists.
    + rewrite lookup_insert_ne by done. by apply H2.
  - exists ((n, v) :: l). split; [by rewrite Hl |].
    intros m u [Heq|Hin]%elem_of_cons; [congruence | by eapply Hk].
Qed.

Lemma frame_new_writes keep w0 w n v :
  frame keep w0 w → (n, v) ∈ new_writes w (writes w0) → mem n keep = false.
Proof.
  intros [_ _ [l [Hl Hk]]]. unfold new_writes. rewrite Hl, length_app.
  replace (length l + length (writes w0) - length (writes w0))%nat
    with (length l) by lia.
  rewrite take_app_length. apply Hk.
Qed.

Lemma frame_value keep w0 w n :
  frame keep w0 w → mem n keep = true → tag_value w n = tag_value w0 n.
Proof. intros [H _ _] Hn. unfold tag_value. by rewrite H. Qed.

Lemma healthy_frame keep e w0 w :
  frame keep w0 w → healthy e w0 → healthy e w.
Proof. intros [_ H _] [Ha Hr]. split; [done |]. intros n Hn. eauto. Qed.

(** *** Rules *)

Lemma hoare_ret {A} e (P : world D → Prop) (a : A) Q E :
  (∀ w, P w → Q a w) → hoare e P (ret a) Q E.
Proof. intros H w Hw. simpl. auto. Qed.

Lemma hoare_bind {A B} e P (m : M D A) (k : A → M D B) R Q E :
  hoare e P m R E → (∀ a, hoare e (R a) (k a) Q E) →
  hoare e P (bind m k) Q E.
Proof.
  intros Hm Hk w Hw. unfold bind. specialize (Hm w Hw).
  destruct (m e w) as [[a|x] w']; [by apply Hk | done].
Qed.

Lemma hoare_conseq {A} e (P P' : world D → Prop) (m : M D A)
    (Q Q' : A → world D → Prop) (E E' : world D → Prop) :
  hoare e P' m Q' E' →
  (∀ w, P w → P' w) → (∀ a w, Q' a w → Q a w) → (∀ w, E' w → E w) →
  hoare e P m Q E.
Proof.
  intros H HP HQ HE w Hw. specialize (H w (HP w Hw)).
  destruct (m e w) as [[a|x] w']; auto.
Qed.

Lemma keeps_ret {A} e keep w0 (a : A) (R : A → Prop) :
  R a → keeps e keep w0 (ret a) R.
Proof. intros H. apply hoare_ret. auto. Qed.

Lemma keeps_bind {A B} e keep w0 (m : M D A) (k : A → M D B) R R' :
  keeps e keep w0 m R → (∀ a, R a → keeps e keep w0 (k a) R') →
  keeps e keep w0 (bind m k) R'.
Proof.
  intros Hm Hk. eapply hoare_bind; [exact Hm |].
  intros a w [Hw Ha]. by apply Hk.
Qed.

Lemma keeps_get e keep w0 n :
  mem n tag_names = true →
  keeps e keep w0 (_get n)
    (fun a => mem n keep = true → tag_value w0 n = Some a).
Proof.
  intros Hn w Hw. unfold _get.
  destruct (avail e (accesses w)) eqn:Ha.
  - destruct (rows w !! n) as [r|] eqn:Hr.
    + split; [by apply frame_bump |]. intros Hk.
      unfold tag_value. rewrite <- (frame_rows _ _ _ Hw n Hk), Hr. done.
    + split; [by apply frame_bump |]. intros [_ Hreg].
      destruct (frame_dom _ _ _ Hw n (Hreg n Hn)) as [r' Hr']. congruence.
  - split; [by apply frame_bump |]. intros [Hav _].
    rewrite Hav in Ha. done.
Qed.

Lemma keeps_set e keep w0 n v :
  mem n tag_names = true → mem n keep = false →
  keeps e keep w0 (_set n v) (fun _ => True).
Proof.
  intros Hn Hk w Hw. unfold _set.
  destruct (avail e (accesses w)) eqn:Ha.
  - destruct (rows w !! n) as [r|] eqn:Hr.
    + split; [by apply frame_set | done].
    + split; [by apply frame_bump |]. intros [_ Hreg].
      destruct (frame_dom _ _ _ Hw n (Hreg n Hn)) as [r' Hr']. congruence.
  - split; [by apply frame_bump |]. intros [Hav _].
    rewrite Hav in Ha. done.
Qed.

(** A computation that keeps [keep] and is run from [w0] itself. *)
Lemma keeps_run {A} e keep w0 (m : M D A) R :
  keeps e keep w0 m R →
  match m e w0 with
  | (Ok a, w') => frame keep w0 w' ∧ R a
  | (Err _, w') => frame keep w0 w' ∧ ¬ healthy e w0
  end.
Proof. intros H. apply H, frame_refl. Qed.
End Logic.

(** ** ControlLogic: manual/auto arbitration *)

Lemma keeps_check_kept e keep (w0 : world unit) mode cmd :
  mem mode tag_names = true → mem mode keep = true →
  keeps e keep w0 (PLC1._check_manual_input mode cmd)
    (fun b => ∀ m0, tag_value w0 mode = Some m0 → b = PLC1.is_manual m0).
Proof.
  intros Hn Hk. unfold PLC1._check_manual_input.
  eapply keeps_bind; [by apply keeps_get |].
  intros a Ha. apply keeps_ret. intros m0 Hm0.
  rewrite (Ha Hk) in Hm0. congruence.
Qed.

Lemma keeps_check_any e keep (w0 : world unit) mode cmd :
  mem mode tag_names = true →
  keeps e keep w0 (PLC1._check_manual_input mode cmd) (fun _ => True).
Proof.
  intros Hn. unfold PLC1._check_manual_input.
  eapply keeps_bind; [by apply keeps_get |].
  intros a _. by apply keeps_ret.
Qed.

(** One statement of a cycle that leaves the kept tags alone. *)
Ltac keeps_leaf :=
  cbv beta zeta;
  lazymatch goal with
  | |- keeps _ _ _ (ret _) _ => apply keeps_ret; exact I
  | |- keeps _ _ _ (_set _ _) _ => apply keeps_set; reflexivity
  | |- keeps _ _ _ (bind (_get _) _) _ =>
      eapply keeps_bind; [apply keeps_get; reflexivity | intros ? _]
  | |- keeps _ _ _ (bind (_set _ _) _) _ =>
      eapply keeps_bind; [apply keeps_set; reflexivity | intros _ _]
  end.

(** A guarded block whose mode tag is not tracked: both branches keep. *)
Ltac keeps_guarded :=
  eapply keeps_bind with (R := fun _ => True);
  [ eapply keeps_bind;
    [ apply keeps_check_any; reflexivity
    | intros [|] _; cbn [negb]; repeat keeps_leaf ]
  | intros _ _ ].

(** A guarded block whose mode tag is known to hold the manual value [Hm]. *)
Ltac keeps_manual Hm Hman :=
  eapply keeps_bind with (R := fun _ => True);
  [ eapply keeps_bind;
    [ apply keeps_check_kept; reflexivity
    | let b := fresh "b" in let Hb := fresh "Hb" in
      intros b Hb; rewrite (Hb _ Hm), Hman; cbn [negb]; keeps_leaf ]
  | intros _ _ ].

Lemma PLC1_logic_keeps_manual e (w0 : world unit) (a : actuator) (m0 : Q) :
  tag_value w0 (mode_tag a) = Some m0 →
  PLC1.is_manual m0 = true →
  keeps e [mode_tag a; command_tag a] w0 PLC1._logic (fun _ => True).
Proof.
  intros Hm Hman. unfold PLC1._logic.
  do 13 keeps_leaf.
  destruct a; cbn [mode_tag command_tag] in *;
    do 6 (first [keeps_manual Hm Hman | keeps_guarded]);
    do 2 keeps_leaf;
    (first [keeps_manual Hm Hman | keeps_guarded]);
    keeps_leaf;
    repeat match goal with
           | |- keeps _ _ _ (if ?c then _ else _) _ => destruct c
           end;
    keeps_leaf.
Qed.

(** ** ControlLogic: cycles of a healthy store *)

Section Healthy.
Context {D : Type}.
Implicit Types (w : world D) (e : env).

Lemma hoare_keeps_bind {A B} e keep w0 (m : M D A) (k : A → M D B) R Q :
  healthy e w0 → keeps e keep w0 m R →
  (∀ a, R a → hoare e (frame keep w0) (k a) Q (fun _ => False)) →
  hoare e (frame keep w0) (bind m k) Q (fun _ => False).
Proof.
  intros Hh Hm Hk. eapply hoare_bind.
  - eapply hoare_conseq; [exact Hm | done | | ].
    + intros a w H. exact H.
    + intros w [_ Hn]. exact (Hn Hh).
  - intros a w [Hw Ha]. by apply Hk.
Qed.

Lemma hoare_keeps_last {A} e keep w0 (m : M D A) R (Q : A → world D → Prop) :
  healthy e w0 → keeps e keep w0 m R →
  (∀ a w, frame keep w0 w → R a → Q a w) →
  hoare e (frame keep w0) m Q (fun _ => False).
Proof.
  intros Hh Hm HQ. eapply hoare_conseq; [exact Hm | done | | ].
  - intros a w [Hw Ha]. by apply HQ.
  - intros w [_ Hn]. exact (Hn Hh).
Qed.

(** A write of a kept tag: from there on the tag holds the written
    value, and the rest of the cycle is reasoned about from the world
    the write leaves. *)
Lemma hoare_set_then {B} e keep w0 n v (k : unit → M D B) Q :
  healthy e w0 → mem n tag_names = true →
  (∀ w1, healthy e w1 → tag_value w1 n = Some v →
         hoare e (frame keep w1) (k tt) Q (fun _ => False)) →
  hoare e (frame keep w0) (bind (_set n v) k) Q (fun _ => False).
Proof.
  intros [Hav Hreg] Hn Hk w Hw. unfold bind, _set. rewrite Hav.
  destruct (frame_dom _ _ _ Hw n (Hreg n Hn)) as [r Hr]. rewrite Hr.
  match goal with
  | |- context [k tt e ?w1] => refine (Hk w1 _ _ w1 (frame_refl _ _))
  end.
  - split; [done |]. intros m Hm. simpl.
    destruct (decide (n = m)) as [->|Hne].
    + rewrite lookup_insert_eq. by eexists.
    + rewrite lookup_insert_ne by done.
      apply (frame_dom _ _ _ Hw), Hreg, Hm.
  - unfold tag_value. simpl. by rewrite lookup_insert_eq.
Qed.

(** The last write of a cycle, to a kept tag [n]: the tag holds the
    written value, the write is in the log, the other kept tags are as
    they were. *)
Lemma hoare_set_last e keep w0 n v :
  healthy e w0 → mem n tag_names = true →
  hoare e (frame keep w0) (_set n v)
    (fun _ w => tag_value w n = Some v
                ∧ (n, v) ∈ new_writes w (writes w0)
                ∧ ∀ m, mem m keep = true → m ≠ n →
                       rows w !! m = rows w0 !! m)
    (fun _ => False).
Proof.
  intros [Hav Hreg] Hn w Hw. unfold _set. rewrite Hav.
  destruct (frame_dom _ _ _ Hw n (Hreg n Hn)) as [r Hr]. rewrite Hr.
  destruct Hw as [H1 H2 [l [Hl Hk]]]. split; [| split].
  - unfold tag_value. simpl. by rewrite lookup_insert_eq.
  - unfold new_writes. simpl. rewrite Hl, length_app.
    replace (S (length l + length (writes w0)) - length (writes w0))%nat
      with (S (length l)) by lia.
    simpl. apply elem_of_cons. by left.
  - intros m Hm Hne. simpl. rewrite lookup_insert_ne by done. by apply H1.
Qed.

Lemma hoare_run {A} e keep w0 (m : M D A) Q :
  hoare e (frame keep w0) m Q (fun _ => False) →
  ∃ a w', m e w0 = (Ok a, w') ∧ Q a w'.
Proof.
  intros H. specialize (H w0 (frame_refl _ _)).
  destruct (m e w0) as [[a|x] w']; [eauto | done].
Qed.
End Healthy.

(** Use what a read of a kept tag returned. *)
Ltac learn Ha :=
  cbv beta in Ha;
  first
    [ specialize (Ha eq_refl);
      lazymatch type of Ha with
      | tag_value ?w ?n = Some ?a =>
          match goal with
          | H : tag_value w n = Some ?x |- _ =>
              rewrite H in Ha; injection Ha as <-
          end
      end
    | clear Ha ].

(** One statement of a healthy cycle. *)
Ltac hstep Hh :=
  cbv beta zeta;
  lazymatch goal with
  | |- hoare _ _ (bind (_get _) _) _ _ =>
      let a := fresh "a" in let Ha := fresh "Ha" in
      eapply hoare_keeps_bind;
      [ exact Hh | apply keeps_get; reflexivity | intros a Ha; learn Ha ]
  | |- hoare _ _ (bind (bind (PLC1._check_manual_input _ _) _) _) _ _ =>
      eapply hoare_keeps_bind with (R := fun _ => True);
      [ exact Hh
      | eapply keeps_bind;
        [ apply keeps_check_any; reflexivity
        | intros [|] _; cbn [negb]; repeat keeps_leaf ]
      | intros _ _ ]
  end.

Lemma PLC1_logic_relief e (w0 : world unit) (p_core pmax phihi relief0 : Q) :
  healthy e w0 →
  tag_value w0 TAG.TAG_CORE_PRESSURE_VALUE = Some p_core →
  tag_value w0 TAG.TAG_CORE_PRESSURE_MAX = Some pmax →
  tag_value w0 TAG.TAG_CORE_PRESSURE_HIHI = Some phihi →
  tag_value w0 TAG.TAG_CORE_RELIEF_VALVE_STATUS = Some relief0 →
  ∃ w', PLC1._logic e w0 = (Ok tt, w')
        ∧ tag_value w' TAG.TAG_CORE_RELIEF_VALVE_STATUS
          = Some (if Qgtb p_core phihi then 1
                  else if Qltb p_core (pmax - 0.05) then 0
                  else relief0).
Proof.
  intros Hh Hp Hpmax Hphihi Hrelief.
  pose (keep := [TAG.TAG_CORE_PRESSURE_VALUE; TAG.TAG_CORE_PRESSURE_MAX;
                 TAG.TAG_CORE_PRESSURE_HIHI; TAG.TAG_CORE_RELIEF_VALVE_STATUS]).
  destruct (hoare_run e keep w0 PLC1._logic
    (fun _ w' => tag_value w' TAG.TAG_CORE_RELIEF_VALVE_STATUS
       = Some (if Qgtb p_core phihi then 1
               else if Qltb p_core (pmax - 0.05) then 0 else relief0)))
    as ([] & w' & Hrun & Hpost); [| by exists w'].
  subst keep. unfold PLC1._logic.
  do 20 hstep Hh.
  cbv beta zeta.
  apply hoare_set_then; [exact Hh | reflexivity |].
  intros w1 Hh1 Hv1.
  eapply hoare_keeps_last with (R := fun _ => True); [exact Hh1 | |].
  - eapply keeps_bind with (R := fun _ => True);
      [ eapply keeps_bind;
        [ apply keeps_check_any; reflexivity
        | intros [|] _; cbn [negb]; repeat keeps_leaf ]
      | intros _ _ ].
    keeps_leaf.
    repeat match goal with
           | |- keeps _ _ _ (if ?c then _ else _) _ => destruct c
           end;
      keeps_leaf.
  - intros _ w Hw _.
    rewrite (frame_value _ _ _ TAG.TAG_CORE_RELIEF_VALVE_STATUS Hw eq_refl).
    exact Hv1.
Qed.

Lemma mem_subset (keep keep' : list string) :
  forallb (fun n => mem n keep) keep' = true →
  ∀ n, mem n keep' = true → mem n keep = true.
Proof.
  intros Hall n Hn. unfold mem in Hn.
  apply existsb_exists in Hn as (m & Hin & Heq).
  apply String.eqb_eq in Heq as <-.
  rewrite forallb_forall in Hall. by apply Hall.
Qed.

Lemma frame_weaken {D} (keep keep' : list string) (w0 w : world D) :
  forallb (fun n => mem n keep) keep' = true →
  frame keep w0 w → frame keep' w0 w.
Proof.
  intros Hsub [H1 H2 [l [Hl Hk]]]. split; [| done |].
  - intros n Hn. eapply H1, mem_subset; eauto.
  - exists l. split; [done |]. intros n v Hin.
    destruct (mem n keep') eqn:E; [| done].
    rewrite <- (Hk n v Hin). symmetry. eapply mem_subset; eauto.
Qed.

Lemma hoare_set_frame {D} e keep keep' (w0 : world D) n v :
  healthy e w0 → mem n tag_names = true →
  forallb (fun m => mem m keep) keep' = true → mem n keep' = false →
  hoare e (frame keep w0) (_set n v)
    (fun _ w => frame keep' w0 w
                ∧ tag_value w n = Some v
                ∧ (n, v) ∈ new_writes w (writes w0))
    (fun _ => False).
Proof.
  intros Hh Hn Hsub Hk w Hw.
  pose proof (hoare_set_last e keep w0 n v Hh Hn w Hw) as H.
  unfold _set in *. destruct Hh as [Hav Hreg]. rewrite Hav in *.
  destruct (rows w !! n) as [r|]; [| done].
  destruct H as (H1 & H2 & _). split; [| done].
  apply frame_set; [done |]. by eapply frame_weaken.
Qed.

Lemma PLC1_logic_alarm e (w0 : world unit)
    (t_out p_core flow rad tmax pmax fmin radmax alarm : Q) :
  healthy e w0 →
  tag_value w0 TAG.TAG_CORE_TEMP_OUT_VALUE = Some t_out →
  tag_value w0 TAG.TAG_CORE_PRESSURE_VALUE = Some p_core →
  tag_value w0 TAG.TAG_CORE_FLOW_VALUE = Some flow →
  tag_value w0 TAG.TAG_PRIMARY_RAD_MON_VALUE = Some rad →
  tag_value w0 TAG.TAG_CORE_TEMP_OUT_MAX = Some tmax →
  tag_value w0 TAG.TAG_CORE_PRESSURE_MAX = Some pmax →
  tag_value w0 TAG.TAG_CORE_FLOW_MIN = Some fmin →
  tag_value w0 TAG.TAG_PRIMARY_RAD_ALARM_MAX = Some radmax →
  tag_value w0 TAG.TAG_CORE_ALARM_STATUS = Some alarm →
  ∃ w', PLC1._logic e w0 = (Ok tt, w')
        ∧ frame alarm_inputs w0 w'
        ∧ alarm_effect w0 w'
            (if truthy alarm then
               if Qltb t_out (tmax - PLC1.HYST)
                  && Qltb p_core (pmax - PLC1.P_HYST)
                  && Qgtb flow (fmin + 0.02)
                  && Qltb rad (radmax - PLC1.RAD_HYST)
               then Some 0 else None
             else
               if Qgtb t_out tmax || Qgtb p_core pmax
                  || Qltb flow fmin || Qgtb rad radmax
               then Some 1 else None).
Proof.
  intros Hh Ht Hp Hf Hr Htm Hpm Hfm Hrm Hal.
  pose (keep := alarm_inputs ++ [TAG.TAG_CORE_ALARM_STATUS]).
  match goal with
  | |- ∃ w', _ ∧ _ ∧ alarm_effect _ _ ?d => set (written := d)
  end.
  destruct (hoare_run e keep w0 PLC1._logic
              (fun _ w' => frame alarm_inputs w0 w'
                           ∧ alarm_effect w0 w' written))
    as ([] & w' & Hrun & Hpost); [| by exists w'].
  subst keep. unfold alarm_inputs, app. unfold PLC1._logic.
  do 20 hstep Hh.
  cbv beta zeta.
  eapply hoare_keeps_bind with (R := fun _ => True);
    [ exact Hh | apply keeps_set; reflexivity | intros _ _ ].
  hstep Hh. hstep Hh. cbv beta zeta. subst written.
  destruct (truthy alarm).
  - destruct (_ && _).
    + intros w Hw.
      pose proof (hoare_set_frame e
                    (alarm_inputs ++ [TAG.TAG_CORE_ALARM_STATUS])
                    alarm_inputs w0
                    TAG.TAG_CORE_ALARM_STATUS 0 Hh eq_refl eq_refl eq_refl
                    w Hw) as H.
      destruct (_set _ _ e w) as [[[]|x] w2]; [| done].
      destruct H as (H1 & H2 & H3). split; [exact H1 | exact (conj H2 H3)].
    + apply hoare_ret. intros w Hw.
      split; [| unfold alarm_effect];
        (eapply frame_weaken; [| exact Hw]); reflexivity.
  - destruct (_ || _).
    + intros w Hw.
      pose proof (hoare_set_frame e
                    (alarm_inputs ++ [TAG.TAG_CORE_ALARM_STATUS])
                    alarm_inputs w0
                    TAG.TAG_CORE_ALARM_STATUS 1 Hh eq_refl eq_refl eq_refl
                    w Hw) as H.
      destruct (_set _ _ e w) as [[[]|x] w2]; [| done].
      destruct H as (H1 & H2 & H3). split; [exact H1 | exact (conj H2 H3)].
    + apply hoare_ret. intros w Hw.
      split; [| unfold alarm_effect];
        (eapply frame_weaken; [| exact Hw]); reflexivity.
Qed.

(** ** The concrete stores are healthy *)

Lemma seeded_registered n :
  mem n tag_names = true → is_Some (FactorySimulation.seeded !! n).
Proof.
  intros Hn. unfold mem in Hn.
  apply existsb_exists in Hn as (m & Hin & Heq).
  apply String.eqb_eq in Heq as <-.
  unfold tag_names in Hin. cbn in Hin.
  repeat (destruct Hin as [<- | Hin]; [vm_compute; eauto |]).
  destruct Hin.
Qed.

Lemma store_with_registered l n :
  mem n tag_names = true → is_Some (store_with l !! n).
Proof.
  intros Hn. induction l as [|[m v] l IH]; simpl.
  - by apply seeded_registered.
  - destruct (decide (m = n)) as [->|Hne].
    + rewrite lookup_insert_eq. eauto.
    + by rewrite lookup_insert_ne.
Qed.

Lemma healthy_env0 {D} (d : D) l ws k :
  healthy env0 (World d (store_with l) ws k).
Proof. split; [done |]. intros n Hn. by apply store_with_registered. Qed.

(** ** ControlLogic: the claims *)

Lemma trip_expr r :
  Qgtb (r_t_out r) (r_tmax r) || Qgtb (r_p_core r) (r_pmax r)
  || Qltb (r_flow r) (r_fmin r) || Qgtb (r_rad r) (r_radmax r) = true
  ↔ tripping r.
Proof.
  unfold tripping.
  rewrite !orb_true_iff, !Qgtb_gt, Qltb_lt. tauto.
Qed.

Lemma clear_expr r :
  Qltb (r_t_out r) (r_tmax r - PLC1.HYST)
  && Qltb (r_p_core r) (r_pmax r - PLC1.P_HYST)
  && Qgtb (r_flow r) (r_fmin r + 0.02)
  && Qltb (r_rad r) (r_radmax r - PLC1.RAD_HYST) = true
  ↔ within_hysteresis r.
Proof.
  unfold within_hysteresis.
  rewrite !andb_true_iff, Qgtb_gt, !Qltb_lt. tauto.
Qed.

Lemma tripping_not_within r : tripping r → ¬ within_hysteresis r.
Proof.
  unfold tripping, within_hysteresis, PLC1.HYST, PLC1.P_HYST, PLC1.RAD_HYST.
  intros H (H1 & H2 & H3 & H4). lra.
Qed.

Lemma reads_frame (w0 w : world unit) r :
  frame alarm_inputs w0 w → reads w0 r → reads w r.
Proof.
  intros Hw (H1 & H2 & H3 & H4 & H5 & H6 & H7 & H8). unfold reads.
  rewrite !(frame_value _ _ _ _ Hw) by reflexivity. tauto.
Qed.

(** The alarm lemma on [readings]. *)
Lemma PLC1_logic_alarm_readings e (w0 : world unit) r alarm :
  healthy e w0 → reads w0 r →
  tag_value w0 TAG.TAG_CORE_ALARM_STATUS = Some alarm →
  ∃ w', PLC1._logic e w0 = (Ok tt, w')
        ∧ frame alarm_inputs w0 w'
        ∧ (truthy alarm = true → within_hysteresis r →
           alarm_effect w0 w' (Some 0))
        ∧ (truthy alarm = true → ¬ within_hysteresis r →
           alarm_effect w0 w' None)
        ∧ (truthy alarm = false → tripping r → alarm_effect w0 w' (Some 1))
        ∧ (truthy alarm = false → ¬ tripping r → alarm_effect w0 w' None).
Proof.
  intros Hh (H1 & H2 & H3 & H4 & H5 & H6 & H7 & H8) Hal.
  destruct (PLC1_logic_alarm e w0 _ _ _ _ _ _ _ _ _ Hh H1 H2 H3 H4 H5 H6 H7 H8 Hal)
    as (w' & Hrun & Hfr & Heff).
  exists w'. split; [done |]. split; [done |].
  pose proof (trip_expr r) as Htrip. pose proof (clear_expr r) as Hclear.
  destruct (truthy alarm);
    match type of Heff with
    | context [if ?c then _ else _] => destruct c eqn:E
    end;
    (split; [| split; [| split]]); intros Ha Hr; try done; exfalso;
    first [ tauto
          | apply Hclear in Hr; congruence
          | apply Htrip in Hr; congruence ].
Qed.

Lemma alarm_effect_written (w0 w' : world unit) v :
  alarm_effect w0 w' (Some v) →
  (truthy v = true → tripped w') ∧ (truthy v = false → clear w').
Proof. intros [Hv _]. split; intros Ht; exists v; done. Qed.

Lemma alarm_effect_kept (w0 w' : world unit) :
  alarm_effect w0 w' None →
  (tripped w0 → tripped w') ∧ (clear w0 → clear w')
  ∧ rows w' !! TAG.TAG_CORE_ALARM_STATUS = rows w0 !! TAG.TAG_CORE_ALARM_STATUS
  ∧ ∀ v, (TAG.TAG_CORE_ALARM_STATUS, v) ∉ new_writes w' (writes w0).
Proof.
  intros Hfr. cbn [alarm_effect] in Hfr.
  pose proof (frame_value _ _ _ TAG.TAG_CORE_ALARM_STATUS Hfr eq_refl) as Hv.
  split; [| split; [| split]].
  - intros (a & Ha & Ht). exists a. by rewrite Hv.
  - intros (a & Ha & Ht). exists a. by rewrite Hv.
  - by apply (frame_rows _ _ _ Hfr).
  - intros v Hin. by apply (frame_new_writes _ _ _ _ _ Hfr) in Hin.
Qed.

Lemma not_tripped_and_clear (w : world unit) : tripped w → clear w → False.
Proof. intros (a & Ha & Ht) (b & Hb & Hc). congruence. Qed.

Lemma cycles_stay_tripped e r n :
  ∀ w0 : world unit, healthy e w0 → reads w0 r → tripped w0 → tripping r →
    ∃ wn, cycles n e w0 = (Ok tt, wn) ∧ tripped wn.
Proof.
  induction n as [|n IH]; intros w0 Hh Hr Ht Htr.
  - by exists w0.
  - destruct Ht as (a & Ha & Hta).
    destruct (PLC1_logic_alarm_readings e w0 r a Hh Hr Ha)
      as (w' & Hrun & Hfr & _ & Hkeep & _).
    specialize (Hkeep Hta (tripping_not_within r Htr)).
    apply alarm_effect_kept in Hkeep as (Hkeep & _).
    destruct (IH w') as (wn & Hn & Htn).
    + by eapply healthy_frame.
    + by eapply reads_frame.
    + apply Hkeep. by exists a.
    + done.
    + exists wn. split; [| done]. cbn [cycles]. unfold bind. by rewrite Hrun.
Qed.

(** C1. For each of the seven controlled actuators: if its mode tag holds a
    manual value (1 or 2) when a ControlLogic cycle starts, the cycle, whether
    it completes or is cut short by a store failure, does not write the
    actuator's command tag; the tag's row (value and last-write timestamp)
    after the cycle is its row before the cycle. *)
Theorem manual_mode_freezes_command e (w0 : world unit) (a : actuator) (m0 : Q) :
  tag_value w0 (mode_tag a) = Some m0 →
  PLC1.is_manual m0 = true →
  let w' := (PLC1._logic e w0).2 in
  rows w' !! command_tag a = rows w0 !! command_tag a
  ∧ tag_value w' (command_tag a) = tag_value w0 (command_tag a)
  ∧ ∀ v, (command_tag a, v) ∉ new_writes w' (writes w0).
Proof.
  intros Hm Hman w'.
  pose proof (keeps_run e _ w0 _ _ (PLC1_logic_keeps_manual e w0 a m0 Hm Hman))
    as H.
  subst w'. destruct (PLC1._logic e w0) as [[u|x] w']; simpl;
    destruct H as [Hfr _];
    (assert (Hc : mem (command_tag a) [mode_tag a; command_tag a] = true)
       by (by destruct a));
    (split; [by apply (frame_rows _ _ _ Hfr) |]);
    (split; [by apply (frame_value _ _ _ _ Hfr) |]);
    intros v Hin; apply (frame_new_writes _ _ _ _ _ Hfr) in Hin; congruence.
Qed.

Lemma manual_mode_freezes_command_witness :
  let w0 := plc_world [(TAG.TAG_CORE_RCP_MODE, 2); (TAG.TAG_CORE_RCP_SPEED_CMD, 0.37)] in
  let w' := (PLC1._logic env0 w0).2 in
  rows w' !! command_tag pump_speed = rows w0 !! command_tag pump_speed
  ∧ tag_value w' (command_tag pump_speed) = tag_value w0 (command_tag pump_speed)
  ∧ ∀ v, (command_tag pump_speed, v) ∉ new_writes w' (writes w0).
Proof.
  intros w0.
  apply (manual_mode_freezes_command env0 w0 pump_speed 2); reflexivity.
Defined.

(** C2. The alarm latch over {clear, tripped}, in a cycle of a healthy
    store: from clear it goes to tripped exactly when one of the four trip
    conditions holds; from tripped it goes to clear exactly when all four
    readings are within their hysteresis margins, so an outlet temperature
    below its max but less than one hysteresis unit below it keeps the latch
    tripped; and from tripped, with a trip condition holding, any number of
    cycles in a row leave it tripped. *)
Theorem alarm_latch_transitions e (w0 : world unit) (r : readings) :
  healthy e w0 → reads w0 r →
  (clear w0 →
     ∃ w', PLC1._logic e w0 = (Ok tt, w')
           ∧ (tripped w' ↔ tripping r) ∧ (clear w' ↔ ¬ tripping r))
  ∧ (tripped w0 →
     ∃ w', PLC1._logic e w0 = (Ok tt, w')
           ∧ (clear w' ↔ within_hysteresis r)
           ∧ (tripped w' ↔ ¬ within_hysteresis r)
           ∧ (r_tmax r - PLC1.HYST <= r_t_out r → tripped w'))
  ∧ (tripped w0 → tripping r →
     ∀ n, ∃ wn, cycles n e w0 = (Ok tt, wn) ∧ tripped wn).
Proof.
  intros Hh Hr. split; [| split].
  - intros (a & Ha & Hc).
    destruct (PLC1_logic_alarm_readings e w0 r a Hh Hr Ha)
      as (w' & Hrun & Hfr & _ & _ & Htrip & Hkeep).
    exists w'. split; [done |].
    pose proof (trip_expr r) as Hdec.
    destruct (_ || _) in Hdec.
    + assert (Ht : tripping r) by (by apply Hdec).
      apply (alarm_effect_written w0 w' 1) in Htrip as [Htrip _]; [| done..].
      specialize (Htrip eq_refl). split; split; try done.
      intros Hcl. exfalso. eauto using not_tripped_and_clear.
    + assert (Ht : ¬ tripping r) by (intros Ht; apply Hdec in Ht; done).
      apply alarm_effect_kept in Hkeep as (_ & Hkeep & _); [| done..].
      assert (Hcl : clear w') by (apply Hkeep; by exists a).
      split; split; try done.
      intros Htr. exfalso. eauto using not_tripped_and_clear.
  - intros (a & Ha & Ht).
    destruct (PLC1_logic_alarm_readings e w0 r a Hh Hr Ha)
      as (w' & Hrun & Hfr & Hclear & Hkeep & _ & _).
    exists w'. split; [done |].
    pose proof (clear_expr r) as Hdec.
    assert (Hcases : (within_hysteresis r ∧ clear w')
                     ∨ (¬ within_hysteresis r ∧ tripped w')).
    { destruct (_ && _) in Hdec.
      - left. assert (Hw : within_hysteresis r) by (by apply Hdec).
        split; [done |].
        apply (alarm_effect_written w0 w' 0) in Hclear as [_ Hclear];
          [by apply Hclear | done..].
      - right. assert (Hw : ¬ within_hysteresis r)
          by (intros Hw; apply Hdec in Hw; done).
        split; [done |].
        apply alarm_effect_kept in Hkeep as (Hkeep & _); [| done..].
        apply Hkeep. by exists a. }
    split; [| split].
    + destruct Hcases as [[? ?]|[? ?]]; split; try done.
      intros Hcl. exfalso. eauto using not_tripped_and_clear.
    + destruct Hcases as [[? ?]|[? ?]]; split; try done.
      intros Htr. exfalso. eauto using not_tripped_and_clear.
    + intros Hle. destruct Hcases as [[Hw _]|[_ ?]]; [| done].
      destruct Hw as [Hw _]. exfalso. lra.
  - intros Ht Htr n. by apply cycles_stay_tripped with (r := r).
Qed.

Lemma alarm_latch_transitions_witness :
  (clear hot_tripped →
     ∃ w', PLC1._logic env0 hot_tripped = (Ok tt, w')
           ∧ (tripped w' ↔ tripping hot_readings)
           ∧ (clear w' ↔ ¬ tripping hot_readings))
  ∧ (tripped hot_tripped →
     ∃ w', PLC1._logic env0 hot_tripped = (Ok tt, w')
           ∧ (clear w' ↔ within_hysteresis hot_readings)
           ∧ (tripped w' ↔ ¬ within_hysteresis hot_readings)
           ∧ (r_tmax hot_readings - PLC1.HYST <= r_t_out hot_readings
              → tripped w'))
  ∧ (tripped hot_tripped → tripping hot_readings →
     ∀ n, ∃ wn, cycles n env0 hot_tripped = (Ok tt, wn) ∧ tripped wn).
Proof.
  apply (alarm_latch_transitions env0 hot_tripped hot_readings).
  - apply healthy_env0.
  - repeat split; reflexivity.
Defined.

(** C4. The relief valve status against its two thresholds, in a cycle of a
    healthy store: the status is 1 (open) after the cycle when the core
    pressure exceeds the high-high threshold; where the thresholds leave a
    dead band (the closing threshold, the normal maximum less 0.05, is not
    above the high-high threshold) it is 0 (closed) when the core pressure is
    below the closing threshold; and it is the status it had before the cycle
    when the core pressure lies between the two thresholds. *)
Theorem relief_valve_dead_band e (w0 : world unit) (p_core pmax phihi relief0 : Q) :
  healthy e w0 →
  tag_value w0 TAG.TAG_CORE_PRESSURE_VALUE = Some p_core →
  tag_value w0 TAG.TAG_CORE_PRESSURE_MAX = Some pmax →
  tag_value w0 TAG.TAG_CORE_PRESSURE_HIHI = Some phihi →
  tag_value w0 TAG.TAG_CORE_RELIEF_VALVE_STATUS = Some relief0 →
  ∃ w', PLC1._logic e w0 = (Ok tt, w')
        ∧ (phihi < p_core →
           tag_value w' TAG.TAG_CORE_RELIEF_VALVE_STATUS = Some 1)
        ∧ (pmax - 0.05 <= phihi → p_core < pmax - 0.05 →
           tag_value w' TAG.TAG_CORE_RELIEF_VALVE_STATUS = Some 0)
        ∧ (pmax - 0.05 <= p_core → p_core <= phihi →
           tag_value w' TAG.TAG_CORE_RELIEF_VALVE_STATUS = Some relief0).
Proof.
  intros Hh Hp Hpm Hph Hrel.
  destruct (PLC1_logic_relief e w0 p_core pmax phihi relief0 Hh Hp Hpm Hph Hrel)
    as (w' & Hrun & Hv).
  exists w'. split; [done |]. rewrite Hv.
  destruct (Qgtb p_core phihi) eqn:E1; [apply Qgtb_gt in E1 | apply Qgtb_le in E1];
    (destruct (Qltb p_core (pmax - 0.05)) eqn:E2;
     [apply Qltb_lt in E2 | apply Qltb_ge in E2]);
    repeat split; intros; try done; exfalso; lra.
Qed.

Lemma relief_valve_dead_band_witness :
  ∃ w', PLC1._logic env0 relief_latched = (Ok tt, w')
        ∧ (15.9 < 15.7 →
           tag_value w' TAG.TAG_CORE_RELIEF_VALVE_STATUS = Some 1)
        ∧ (15.5 - 0.05 <= 15.9 → 15.7 < 15.5 - 0.05 →
           tag_value w' TAG.TAG_CORE_RELIEF_VALVE_STATUS = Some 0)
        ∧ (15.5 - 0.05 <= 15.7 → 15.7 <= 15.9 →
           tag_value w' TAG.TAG_CORE_RELIEF_VALVE_STATUS = Some 1).
Proof.
  apply (relief_valve_dead_band env0 relief_latched 15.7 15.5 15.9 1).
  - apply healthy_env0.
  - reflexivity.
  - reflexivity.
  - reflexivity.
  - reflexivity.
Defined.

(** C9. The alarm tag is written only on a transition: in a cycle of a
    healthy store that starts clear with no trip condition holding, or starts
    tripped with the all-four-within-hysteresis condition not holding, the
    cycle does not write the alarm tag, and the tag's row (value and
    last-write timestamp) is unchanged. *)
Theorem alarm_written_only_on_transition e (w0 : world unit) (r : readings) :
  healthy e w0 → reads w0 r →
  (clear w0 ∧ ¬ tripping r) ∨ (tripped w0 ∧ ¬ within_hysteresis r) →
  ∃ w', PLC1._logic e w0 = (Ok tt, w')
        ∧ rows w' !! TAG.TAG_CORE_ALARM_STATUS
          = rows w0 !! TAG.TAG_CORE_ALARM_STATUS
        ∧ ∀ v, (TAG.TAG_CORE_ALARM_STATUS, v) ∉ new_writes w' (writes w0).
Proof.
  intros Hh Hr Hcase.
  assert (∃ a, tag_value w0 TAG.TAG_CORE_ALARM_STATUS = Some a) as [a Ha].
  { destruct Hcase as [[(a & Ha & _) _]|[(a & Ha & _) _]]; eauto. }
  destruct (PLC1_logic_alarm_readings e w0 r a Hh Hr Ha)
    as (w' & Hrun & Hfr & _ & Hk1 & _ & Hk2).
  exists w'. split; [done |].
  assert (Hkeep : alarm_effect w0 w' None).
  { destruct Hcase as [[(b & Hb & Ht) Hn]|[(b & Hb & Ht) Hn]];
      assert (b = a) as -> by congruence; auto. }
  by apply alarm_effect_kept in Hkeep as (_ & _ & Hrows & Hlog).
Qed.

Lemma alarm_written_only_on_transition_witness :
  ∃ w', PLC1._logic env0 hot_tripped = (Ok tt, w')
        ∧ rows w' !! TAG.TAG_CORE_ALARM_STATUS
          = rows hot_tripped !! TAG.TAG_CORE_ALARM_STATUS
        ∧ ∀ v, (TAG.TAG_CORE_ALARM_STATUS, v)
               ∉ new_writes w' (writes hot_tripped).
Proof.
  apply (alarm_written_only_on_transition env0 hot_tripped hot_readings).
  - apply healthy_env0.
  - repeat split; reflexivity.
  - right. split.
    + exists 1. split; reflexivity.
    + intros [H _]. vm_compute in H. discriminate.
Defined.

(** ** PhysicsEngine: running a tick symbolically *)

Section Run.
Context {D : Type}.
Implicit Types (w : world D) (e : env).

Lemma run_get {B} e w n v (k : Q → M D B) :
  avail e (accesses w) = true → tag_value w n = Some v →
  bind (_get n) k e w = k v e (bump w).
Proof.
  intros Ha Hv. unfold bind, _get, tag_value in *. rewrite Ha.
  destruct (rows w !! n) as [r|]; [| done]. by injection Hv as <-.
Qed.

Lemma run_set {B} e w n v (k : unit → M D B) :
  avail e (accesses w) = true → is_Some (rows w !! n) →
  bind (_set n v) k e w
  = k tt e (World (self w) (<[n := Row v (wall e (accesses w))]> (rows w))
                  ((n, v) :: writes w) (S (accesses w))).
Proof.
  intros Ha [r Hr]. unfold bind, _set. by rewrite Ha, Hr.
Qed.

Lemma run_set_last e w n v :
  avail e (accesses w) = true → is_Some (rows w !! n) →
  _set n v e w
  = (Ok tt, World (self w) (<[n := Row v (wall e (accesses w))]> (rows w))
                  ((n, v) :: writes w) (S (accesses w))).
Proof. intros Ha [r Hr]. unfold _set. by rewrite Ha, Hr. Qed.

Lemma run_get_self {B} e w (k : D → M D B) :
  bind get_self k e w = k (self w) e w.
Proof. done. Qed.

Lemma run_put_self {B} e w d (k : unit → M D B) :
  bind (put_self d) k e w = k tt e (World d (rows w) (writes w) (accesses w)).
Proof. done. Qed.

Lemma is_Some_insert (m : gmap string row) n n' r :
  is_Some (m !! n) → is_Some (<[n' := r]> m !! n).
Proof.
  intros H. destruct (decide (n' = n)) as [->|Hne].
  - rewrite lookup_insert_eq. eauto.
  - by rewrite lookup_insert_ne.
Qed.
End Run.

Lemma run_if_put_self {D B} e (w : world D) (c : bool) d (k : unit → M D B) :
  bind (if c then put_self d else ret tt) k e w
  = k tt e (World (if c then d else self w) (rows w) (writes w) (accesses w)).
Proof. destruct c, w; reflexivity. Qed.

Ltac tidy :=
  cbv beta zeta;
  cbn [bump self rows writes accesses
       FactorySimulation.set_valve_eff FactorySimulation.set_loop_valve_eff
       FactorySimulation.set_rad_spike FactorySimulation._valve_eff
       FactorySimulation._loop_valve_eff FactorySimulation._rad_spike
       FactorySimulation._current_loop_time FactorySimulation._last_loop_time
       FactorySimulation.active FactorySimulation.until
       FactorySimulation.level].

(** One statement of a tick of a healthy store. *)
Ltac tick_step Hav Hreg :=
  first
    [ rewrite run_get_self
    | rewrite run_put_self
    | rewrite run_if_put_self
    | erewrite run_get by (first [apply Hav | eassumption])
    | rewrite run_set
        by (first [apply Hav
                  | cbn [rows bump]; repeat apply is_Some_insert;
                    apply Hreg; reflexivity])
    | rewrite run_set_last
        by (first [apply Hav
                  | cbn [rows bump]; repeat apply is_Some_insert;
                    apply Hreg; reflexivity]) ];
  tidy.

(** Look a tag up in a store built by the writes of a tick. *)
Ltac lookup_tag :=
  unfold tag_value; cbn [rows];
  repeat (rewrite lookup_insert_ne by (intro; discriminate));
  first [rewrite lookup_insert_eq; cbn [fmap option_fmap option_map value] | idtac].

Lemma loop_dt_pos s : 0 < FactorySimulation.loop_dt s.
Proof.
  unfold FactorySimulation.loop_dt. cbv zeta.
  destruct (Qle_bool _ 0) eqn:E; [reflexivity |].
  apply Qnot_le_lt. intros H. apply Qle_bool_iff in H. congruence.
Qed.

(** C8. A tick of a healthy store writes the core pressure
    0.98 * previous + 0.02 * baseline(new outlet temperature)
    + heater term - spray term - relief term + noise, where the baseline is
    14.7 + 0.035 * max(0, outlet - 290), the heater term is the heater
    command times a positive constant, the spray term is the spray command
    times a positive constant, and the relief term is a positive constant
    when the relief valve is open and zero when it is closed; so a positive
    heater command adds to the pressure, and a positive spray command and an
    open relief valve take from it. *)
Theorem pressure_update rnd e (w0 : world FactorySimulation.t) (i : tick_inputs) :
  healthy e w0 → tick_reads w0 i →
  let dt_s := FactorySimulation.loop_dt (self w0) / 1000 in
  let k_heater := 0.98 * PHYSICS.PRESSURE_K_HEATER * dt_s in
  let k_spray := 0.98 * PHYSICS.PRESSURE_K_SPRAY * dt_s in
  let k_relief := 0.98 * PHYSICS.PRESSURE_K_RELIEF * dt_s in
  let relief_open := if truthy (i_relief_status i) then 1 else 0 in
  let noise := FactorySimulation.gauss 0 0.002 (FactorySimulation.z_pressure rnd) in
  ∃ w' pressure' temp_out',
    FactorySimulation._logic rnd e w0 = (Ok tt, w')
    ∧ tag_value w' TAG.TAG_CORE_PRESSURE_VALUE = Some pressure'
    ∧ tag_value w' TAG.TAG_CORE_TEMP_OUT_VALUE = Some temp_out'
    ∧ pressure' == 0.98 * i_pressure i
                   + 0.02 * (14.7 + 0.035 * py_max 0 (temp_out' - 290))
                   + k_heater * i_heater_cmd i
                   - k_spray * i_spray_cmd i
                   - k_relief * relief_open
                   + noise
    ∧ 0 < k_heater ∧ 0 < k_spray ∧ 0 < k_relief
    ∧ (0 < i_heater_cmd i → 0 < k_heater * i_heater_cmd i)
    ∧ (0 < i_spray_cmd i → 0 < k_spray * i_spray_cmd i)
    ∧ (truthy (i_relief_status i) = true → 0 < k_relief * relief_open).
Proof.
  intros [Hav Hreg]
    (H1 & H2 & H3 & H4 & H5 & H6 & H7 & H8 & H9 & H10 & H11 & H12 & H13).
  intros dt_s k_heater k_spray k_relief relief_open noise.
  pose proof (loop_dt_pos (self w0)) as Hdt.
  destruct w0 as [s0 rows0 writes0 acc0].
  unfold FactorySimulation._logic.
  repeat tick_step Hav Hreg.
  eexists _, _, _. split; [reflexivity |].
  split; [lookup_tag; reflexivity |].
  split; [lookup_tag; reflexivity |].
  cbn [self] in *.
  assert (Hs : 0 < dt_s).
  { subst dt_s. unfold Qdiv. apply Qmult_lt_0_compat; [exact Hdt | reflexivity]. }
  assert (Hk : 0 < k_heater ∧ 0 < k_spray ∧ 0 < k_relief).
  { subst k_heater k_spray k_relief.
    unfold PHYSICS.PRESSURE_K_HEATER, PHYSICS.PRESSURE_K_SPRAY,
      PHYSICS.PRESSURE_K_RELIEF. repeat split; lra. }
  split; [| destruct Hk as (Hkh & Hks & Hkr);
            repeat (split; [assumption |]); repeat split;
            [ intros; by apply Qmult_lt_0_compat
            | intros; by apply Qmult_lt_0_compat
            | intros Ht; subst relief_open; rewrite Ht; lra ] ].
  unfold FactorySimulation.pressure_model, FactorySimulation.pressure_base,
    PHYSICS.PRESSURE_K_TEMP, PHYSICS.AMBIENT_TEMP.
  subst k_heater k_spray k_relief relief_open noise dt_s. cbv zeta.
  ring.
Qed.

Lemma factory0_reads : tick_reads factory0 inputs0.
Proof. repeat split; reflexivity. Qed.

Lemma pressure_update_witness :
  let dt_s := FactorySimulation.loop_dt (self factory0) / 1000 in
  let k_heater := 0.98 * PHYSICS.PRESSURE_K_HEATER * dt_s in
  let k_spray := 0.98 * PHYSICS.PRESSURE_K_SPRAY * dt_s in
  let k_relief := 0.98 * PHYSICS.PRESSURE_K_RELIEF * dt_s in
  let relief_open := if truthy (i_relief_status inputs0) then 1 else 0 in
  let noise := FactorySimulation.gauss 0 0.002 (FactorySimulation.z_pressure quiet) in
  ∃ w' pressure' temp_out',
    FactorySimulation._logic quiet env0 factory0 = (Ok tt, w')
    ∧ tag_value w' TAG.TAG_CORE_PRESSURE_VALUE = Some pressure'
    ∧ tag_value w' TAG.TAG_CORE_TEMP_OUT_VALUE = Some temp_out'
    ∧ pressure' == 0.98 * i_pressure inputs0
                   + 0.02 * (14.7 + 0.035 * py_max 0 (temp_out' - 290))
                   + k_heater * i_heater_cmd inputs0
                   - k_spray * i_spray_cmd inputs0
                   - k_relief * relief_open
                   + noise
    ∧ 0 < k_heater ∧ 0 < k_spray ∧ 0 < k_relief
    ∧ (0 < i_heater_cmd inputs0 → 0 < k_heater * i_heater_cmd inputs0)
    ∧ (0 < i_spray_cmd inputs0 → 0 < k_spray * i_spray_cmd inputs0)
    ∧ (truthy (i_relief_status inputs0) = true → 0 < k_relief * relief_open).
Proof.
  apply (pressure_update quiet env0 factory0 inputs0).
  - apply healthy_env0.
  - apply factory0_reads.
Defined.

(** C10. Whatever control-rod position the tick reads, the reactivity of
    the flux update is at least 0.05, and with a positive flux setpoint the
    flux target is positive. *)
Theorem reactivity_floor (rod_pos flux_sp : Q) :
  0.05 <= FactorySimulation.reactivity rod_pos
  ∧ (0 < flux_sp → 0 < FactorySimulation.flux_target flux_sp rod_pos).
Proof.
  split; [apply py_max_l |].
  intros Hsp. unfold FactorySimulation.flux_target.
  eapply Qlt_le_trans; [| apply py_max_r].
  apply Qmult_lt_0_compat; [exact Hsp |].
  eapply Qlt_le_trans; [| apply (py_max_l 0.05)]. reflexivity.
Qed.

Lemma reactivity_floor_witness :
  0.05 <= FactorySimulation.reactivity 150
  ∧ 0 < FactorySimulation.flux_target 0.9 150.
Proof.
  destruct (reactivity_floor 150 0.9) as [H1 H2].
  split; [exact H1 | apply H2; reflexivity].
Defined.

(** ** PhysicsEngine: determinism *)

(** C7, as the code has it. Two noise-free ticks of healthy stores that read
    the same input tag values, start from the same two effective valve
    positions and use the same dt write the same flux, inlet and outlet
    temperature, pressure, flow, steam-generator inlet pressure and loop-valve
    position, whatever the rest of the two stores, their spike states, their
    spike draws and their clocks are; they write the same radiation when,
    besides, the radiation-spike state, the spike draws and the wall clock are
    the same. *)
Theorem noise_free_tick_deterministic rnd1 rnd2 e1 e2
    (w1 w2 : world FactorySimulation.t) (i : tick_inputs) :
  healthy e1 w1 → healthy e2 w2 →
  tick_reads w1 i → tick_reads w2 i →
  FactorySimulation._valve_eff (self w1) = FactorySimulation._valve_eff (self w2) →
  FactorySimulation._loop_valve_eff (self w1)
  = FactorySimulation._loop_valve_eff (self w2) →
  FactorySimulation.loop_dt (self w1) = FactorySimulation.loop_dt (self w2) →
  noise_free rnd1 → noise_free rnd2 →
  ∃ w1' w2',
    FactorySimulation._logic rnd1 e1 w1 = (Ok tt, w1')
    ∧ FactorySimulation._logic rnd2 e2 w2 = (Ok tt, w2')
    ∧ tag_value w1' TAG.TAG_CORE_NEUTRON_FLUX_VALUE
      = tag_value w2' TAG.TAG_CORE_NEUTRON_FLUX_VALUE
    ∧ tag_value w1' TAG.TAG_CORE_TEMP_IN_VALUE
      = tag_value w2' TAG.TAG_CORE_TEMP_IN_VALUE
    ∧ tag_value w1' TAG.TAG_CORE_TEMP_OUT_VALUE
      = tag_value w2' TAG.TAG_CORE_TEMP_OUT_VALUE
    ∧ tag_value w1' TAG.TAG_CORE_PRESSURE_VALUE
      = tag_value w2' TAG.TAG_CORE_PRESSURE_VALUE
    ∧ tag_value w1' TAG.TAG_CORE_FLOW_VALUE
      = tag_value w2' TAG.TAG_CORE_FLOW_VALUE
    ∧ tag_value w1' TAG.TAG_SG_IN_PRESSURE_VALUE
      = tag_value w2' TAG.TAG_SG_IN_PRESSURE_VALUE
    ∧ tag_value w1' TAG.TAG_PRIMARY_LOOP_VALVE_POS_VALUE
      = tag_value w2' TAG.TAG_PRIMARY_LOOP_VALVE_POS_VALUE
    ∧ (FactorySimulation._rad_spike (self w1)
       = FactorySimulation._rad_spike (self w2) →
       same_spike_draws rnd1 rnd2 →
       tag_value w1' TAG.TAG_PRIMARY_RAD_MON_VALUE
       = tag_value w2' TAG.TAG_PRIMARY_RAD_MON_VALUE).
Proof.
  intros [Hav1 Hreg1] [Hav2 Hreg2]
    (H1 & H2 & H3 & H4 & H5 & H6 & H7 & H8 & H9 & H10 & H11 & H12 & H13)
    (G1 & G2 & G3 & G4 & G5 & G6 & G7 & G8 & G9 & G10 & G11 & G12 & G13)
    Hve Hlve Hdt (N1 & N2 & N3 & N4 & N5) (O1 & O2 & O3 & O4 & O5).
  destruct w1 as [s1 rows1 writes1 acc1], w2 as [s2 rows2 writes2 acc2].
  cbn [self] in Hve, Hlve, Hdt.
  unfold FactorySimulation._logic.
  repeat tick_step Hav1 Hreg1. repeat tick_step Hav2 Hreg2.
  eexists _, _. split; [reflexivity |]. split; [reflexivity |].
  rewrite N1, N2, N3, N4, N5, O1, O2, O3, O4, O5, Hve, Hlve, Hdt.
  repeat (split; [lookup_tag; lookup_tag; reflexivity |]).
  intros Hsp (U1 & U2 & U3 & U4). cbn [self] in Hsp.
  lookup_tag; lookup_tag. rewrite U1, U2, U3, U4.
  destruct s1 as [cur1 last1 ve1 lve1 sp1], s2 as [cur2 last2 ve2 lve2 sp2].
  cbn [FactorySimulation._rad_spike] in Hsp. subst sp2. tidy.
  repeat (match goal with
          | |- context [if ?c then _ else _] =>
              lazymatch c with
              | context [if _ then _ else _] => fail
              | _ => destruct c
              end
          end; tidy);
    reflexivity.
Qed.

Lemma noise_free_tick_deterministic_witness :
  ∃ w1' w2',
    FactorySimulation._logic quiet env0 factory0 = (Ok tt, w1')
    ∧ FactorySimulation._logic spiking env0 factory1 = (Ok tt, w2')
    ∧ tag_value w1' TAG.TAG_CORE_NEUTRON_FLUX_VALUE
      = tag_value w2' TAG.TAG_CORE_NEUTRON_FLUX_VALUE
    ∧ tag_value w1' TAG.TAG_CORE_TEMP_IN_VALUE
      = tag_value w2' TAG.TAG_CORE_TEMP_IN_VALUE
    ∧ tag_value w1' TAG.TAG_CORE_TEMP_OUT_VALUE
      = tag_value w2' TAG.TAG_CORE_TEMP_OUT_VALUE
    ∧ tag_value w1' TAG.TAG_CORE_PRESSURE_VALUE
      = tag_value w2' TAG.TAG_CORE_PRESSURE_VALUE
    ∧ tag_value w1' TAG.TAG_CORE_FLOW_VALUE
      = tag_value w2' TAG.TAG_CORE_FLOW_VALUE
    ∧ tag_value w1' TAG.TAG_SG_IN_PRESSURE_VALUE
      = tag_value w2' TAG.TAG_SG_IN_PRESSURE_VALUE
    ∧ tag_value w1' TAG.TAG_PRIMARY_LOOP_VALVE_POS_VALUE
      = tag_value w2' TAG.TAG_PRIMARY_LOOP_VALVE_POS_VALUE
    ∧ (FactorySimulation._rad_spike (self factory0)
       = FactorySimulation._rad_spike (self factory1) →
       same_spike_draws quiet spiking →
       tag_value w1' TAG.TAG_PRIMARY_RAD_MON_VALUE
       = tag_value w2' TAG.TAG_PRIMARY_RAD_MON_VALUE).
Proof.
  apply (noise_free_tick_deterministic quiet spiking env0 env0
           factory0 factory1 inputs0).
  - apply healthy_env0.
  - apply healthy_env0.
  - apply factory0_reads.
  - repeat split; reflexivity.
  - reflexivity.
  - reflexivity.
  - reflexivity.
  - repeat split; reflexivity.
  - repeat split; reflexivity.
Defined.

(** C7 as stated fails. Two noise-free ticks from the same store, the same
    device state and the same dt write different radiation values when only
    the spike draw differs (0.02 against 0.27), and when only the wall clock
    differs (0.3 against 0.02). *)
Lemma noise_free_ticks_differ_in_radiation :
  noise_free quiet ∧ noise_free spiking
  ∧ noise_free before_expiry ∧ noise_free after_expiry
  ∧ (∃ q1 q2,
       tag_value (FactorySimulation._logic quiet env0 factory0).2
         TAG.TAG_PRIMARY_RAD_MON_VALUE = Some q1
       ∧ tag_value (FactorySimulation._logic spiking env0 factory0).2
           TAG.TAG_PRIMARY_RAD_MON_VALUE = Some q2
       ∧ q1 == 0.02 ∧ q2 == 0.27)
  ∧ (∃ q1 q2,
       tag_value (FactorySimulation._logic before_expiry env0 factory_in_spike).2
         TAG.TAG_PRIMARY_RAD_MON_VALUE = Some q1
       ∧ tag_value (FactorySimulation._logic after_expiry env0 factory_in_spike).2
           TAG.TAG_PRIMARY_RAD_MON_VALUE = Some q2
       ∧ q1 == 0.3 ∧ q2 == 0.02).
Proof.
  repeat (split; [repeat split; reflexivity |]).
  split; eexists _, _;
    (split; [vm_compute; reflexivity |]);
    (split; [vm_compute; reflexivity |]);
    split; reflexivity.
Qed.

(** ** PhysicsEngine: store failures *)

Lemma write_order_NoDup : NoDup write_order.
Proof.
  unfold write_order.
  repeat (apply NoDup_cons; split;
          [rewrite ?elem_of_cons, elem_of_nil; intuition discriminate |]).
  apply NoDup_nil_2.
Qed.

Lemma take_write_order_fresh k n :
  write_order !! k = Some n → n ∉ take k write_order.
Proof.
  intros Hn Hin. apply list_elem_of_lookup in Hin as [i Hi].
  pose proof (lookup_take_Some write_order k i n) as [Htake _].
  destruct (Htake Hi) as [Hi' Hlt].
  pose proof (NoDup_lookup _ _ _ _ write_order_NoDup Hi' Hn). lia.
Qed.

Section Progress.
Context {D : Type}.
Implicit Types (w : world D) (e : env).

Lemma raises_ret {A} e (P : world D → Prop) (a : A) Q E :
  (∀ w, P w → Q a w) → raises e P (ret a) Q E.
Proof. intros H w Hw. simpl. auto. Qed.

Lemma raises_bind {A B} e P (m : M D A) (k : A → M D B) R Q E :
  raises e P m R E → (∀ a, raises e (R a) (k a) Q E) →
  raises e P (bind m k) Q E.
Proof.
  intros Hm Hk w Hw. unfold bind. specialize (Hm w Hw).
  destruct (m e w) as [[a|x] w']; [by apply Hk | done].
Qed.

Lemma progress_start w0 : progress w0 w0 0 0.
Proof.
  assert (Hnew : new_writes w0 (writes w0) = [])
    by (unfold new_writes; by rewrite Nat.sub_diag, take_0).
  split; [lia | by rewrite Hnew | done | by rewrite Hnew | | done | done].
  intros n v Hin. rewrite Hnew in Hin. by apply elem_of_nil in Hin.
Qed.

Lemma progress_bump w0 w j k :
  progress w0 w j k → progress w0 (bump w) (S j) k.
Proof. intros [H1 H2 H3 Hs H4 H5 H6]. split; simpl; [lia | done..]. Qed.

Lemma progress_put_self w0 w j k d :
  progress w0 w j k →
  progress w0 (World d (rows w) (writes w) (accesses w)) j k.
Proof. intros [H1 H2 H3 Hs H4 H5 H6]. by split. Qed.

Lemma progress_write w0 w j k n v ts :
  write_order !! k = Some n → is_Some (rows w !! n) → progress w0 w j k →
  progress w0 (World (self w) (<[n := Row v ts]> (rows w))
                     ((n, v) :: writes w) (S (accesses w))) (S j) (S k).
Proof.
  intros Hn Hreg [H1 H2 H3 Hs H4 H5 H6].
  assert (Hnew : new_writes
            (World (self w) (<[n := Row v ts]> (rows w))
                   ((n, v) :: writes w) (S (accesses w))) (writes w0)
          = (n, v) :: new_writes w (writes w0)).
  { unfold new_writes. cbn [writes length].
    replace (S (length (writes w)) - length (writes w0))%nat
      with (S (length (writes w) - length (writes w0))) by lia.
    by rewrite firstn_cons. }
  split; rewrite ?Hnew; cbn [accesses writes rows self].
  - lia.
  - cbn [map fst]. rewrite H2.
    erewrite take_S_r by done. by rewrite rev_app_distr.
  - cbn [length]. lia.
  - cbn [app]. by rewrite <- Hs.
  - intros n' v' Hin. unfold tag_value. cbn [rows].
    apply elem_of_cons in Hin as [[= -> ->] | Hin].
    + by rewrite lookup_insert_eq.
    + rewrite lookup_insert_ne; [by apply H4 |].
      intros <-. apply (take_write_order_fresh k n Hn).
      apply list_elem_of_In, in_rev. rewrite <- H2.
      apply in_map_iff. exists (n, v').
      split; [reflexivity | by apply list_elem_of_In].
  - intros m Hm. erewrite take_S_r in Hm by done.
    rewrite elem_of_app, list_elem_of_singleton in Hm.
    rewrite lookup_insert_ne by (intros ->; tauto).
    apply H5. tauto.
  - intros m. rewrite <- H6. destruct (decide (n = m)) as [-> | Hne].
    + rewrite lookup_insert_eq. split; [done | by eexists].
    + by rewrite lookup_insert_ne.
Qed.

(** An access the store answers, and one it does not. *)
Lemma answered_next e w0 w j k n :
  progress w0 w j k → answered e w0 j → accessed j = n →
  avail e (accesses w) = true → is_Some (rows w !! n) →
  answered e w0 (S j).
Proof.
  intros Hp Ha Hn Hav Hreg i Hi.
  destruct (decide (i = j)) as [-> | Hne]; [| apply Ha; lia].
  unfold answers. rewrite <- (progress_accesses _ _ _ _ Hp), Hav, Hn.
  apply (progress_dom _ _ _ _ Hp) in Hreg as [r ->]. reflexivity.
Qed.

Lemma aborted_here e w0 w j n :
  (j < 21)%nat → progress w0 w j (j - 13) → answered e w0 j →
  accessed j = n →
  (avail e (accesses w) = false
   ∨ avail e (accesses w) = true ∧ rows w !! n = None) →
  aborted e w0
    (if avail e (accesses w) then UnknownTag n else Unavailable) (bump w).
Proof.
  intros Hj Hp Ha Hn Hfail. exists j.
  split; [exact Hj |]. split; [exact Ha |].
  pose proof (progress_accesses _ _ _ _ Hp) as Hacc.
  split; [| split; [| split; [by apply progress_bump |]]].
  3: { intros Hread. replace (j - 13)%nat with 0%nat in Hp by lia.
       destruct Hp as [_ Hlog _ Hs _ Hrows _]. cbn [take rev] in Hlog.
       apply map_eq_nil in Hlog. rewrite Hlog in Hs. cbn [bump writes rows].
       split; [exact Hs |]. apply map_eq. intros n'. apply Hrows.
       cbn [take]. apply not_elem_of_nil. }
  - unfold answers. rewrite <- Hacc, Hn.
    destruct Hfail as [-> | [-> Hnone]]; [reflexivity |].
    destruct (rows w0 !! n) eqn:E; [| reflexivity].
    assert (is_Some (rows w !! n)) as [r' Hr]
      by (apply (progress_dom _ _ _ _ Hp); by eexists).
    congruence.
  - unfold failure. by rewrite <- Hacc, Hn.
Qed.

Lemma tick_get e w0 j k n :
  (j < 21)%nat → (j - 13)%nat = k → accessed j = n →
  raises e (fun w => progress w0 w j k ∧ answered e w0 j) (_get n)
    (fun _ w => progress w0 w (S j) k ∧ answered e w0 (S j))
    (aborted e w0).
Proof.
  intros Hj Hk Hn w [Hp Ha]. unfold _get. subst k.
  pose proof (aborted_here e w0 w j n Hj Hp Ha Hn) as Hab.
  destruct (avail e (accesses w)) eqn:Hav; [| apply Hab; by left].
  destruct (rows w !! n) as [r |] eqn:Hr; [| apply Hab; by right].
  split; [by apply progress_bump |].
  eapply answered_next; eauto.
Qed.

Lemma tick_set e w0 j k n v :
  (j < 21)%nat → (j - 13)%nat = k → accessed j = n →
  write_order !! k = Some n →
  raises e (fun w => progress w0 w j k ∧ answered e w0 j) (_set n v)
    (fun _ w => progress w0 w (S j) (S k) ∧ answered e w0 (S j))
    (aborted e w0).
Proof.
  intros Hj Hk Hn Hw w [Hp Ha]. unfold _set. subst k.
  pose proof (aborted_here e w0 w j n Hj Hp Ha Hn) as Hab.
  destruct (avail e (accesses w)) eqn:Hav; [| apply Hab; by left].
  destruct (rows w !! n) as [r |] eqn:Hr; [| apply Hab; by right].
  split; [apply progress_write; eauto |].
  eapply answered_next; eauto.
Qed.

Lemma tick_get_self e w0 j k :
  raises e (fun w => progress w0 w j k ∧ answered e w0 j) get_self
    (fun _ w => progress w0 w j k ∧ answered e w0 j) (aborted e w0).
Proof. intros w Hw. done. Qed.

Lemma tick_put_self e w0 j k d :
  raises e (fun w => progress w0 w j k ∧ answered e w0 j) (put_self d)
    (fun _ w => progress w0 w j k ∧ answered e w0 j) (aborted e w0).
Proof. intros w [Hp Ha]. split; [by apply progress_put_self | done]. Qed.

Lemma tick_if_put_self e w0 j k (c : bool) d :
  raises e (fun w => progress w0 w j k ∧ answered e w0 j)
    (if c then put_self d else ret tt)
    (fun _ w => progress w0 w j k ∧ answered e w0 j) (aborted e w0).
Proof. destruct c; [apply tick_put_self | by apply raises_ret]. Qed.
End Progress.

(** One statement of a tick, failures included. *)
Ltac abort_step :=
  cbv beta zeta;
  lazymatch goal with
  | |- raises _ _ (bind (_get _) _) _ _ =>
      eapply raises_bind;
      [apply tick_get; [lia | reflexivity | reflexivity] | intros ?]
  | |- raises _ _ (bind (_set _ _) _) _ _ =>
      eapply raises_bind;
      [apply tick_set; [lia | reflexivity | reflexivity | reflexivity]
      | intros ?]
  | |- raises _ _ (bind get_self _) _ _ =>
      eapply raises_bind; [apply tick_get_self | intros ?]
  | |- raises _ _ (bind (put_self _) _) _ _ =>
      eapply raises_bind; [apply tick_put_self | intros ?]
  | |- raises _ _ (bind (if _ then put_self _ else ret tt) _) _ _ =>
      eapply raises_bind; [apply tick_if_put_self | intros ?]
  | |- raises _ _ (_set _ _) _ _ =>
      apply tick_set; [lia | reflexivity | reflexivity | reflexivity]
  end.

(** C5, as the code has it. A tick makes 13 reads and then its 8 writes in
    [write_order]. It completes exactly when the store answers all 21
    accesses, and has then made all 8 writes. Otherwise the first access the
    store does not answer ends the tick there and its error is returned to
    the caller: the writes made before that access stand, each tag written
    holding the value written, no later write is made and every other tag
    keeps its row; so a tick ended by one of its reads or by its first write
    has written nothing, and a tick ended by a later write has written
    part of its outputs. *)
Theorem tick_aborts_at_failure rnd e (w0 : world FactorySimulation.t) :
  match FactorySimulation._logic rnd e w0 with
  | (Ok _, w') => answered e w0 21 ∧ progress w0 w' 21 8
  | (Err err, w') => aborted e w0 err w'
  end.
Proof.
  assert (H : raises e (fun w => progress w0 w 0 0 ∧ answered e w0 0)
                (FactorySimulation._logic rnd)
                (fun _ w => progress w0 w 21 8 ∧ answered e w0 21)
                (aborted e w0)).
  { unfold FactorySimulation._logic. repeat abort_step. }
  specialize (H w0).
  destruct (FactorySimulation._logic rnd e w0) as [[[] | err] w'].
  - destruct H as [Hp Ha]; [| by split].
    split; [apply progress_start | intros i Hi; lia].
  - apply H. split; [apply progress_start | intros i Hi; lia].
Qed.

(** C5 as stated fails. The tick of [factory0] whose 17th access fails ends
    in an error and leaves the flux tag with the value it wrote (0.745, not
    the 0.8 it read), while the pressure tag, not written, still holds 15: a
    partial write. *)
Lemma failed_tick_leaves_partial_write :
  let out := FactorySimulation._logic quiet env_fails_at_17 factory0 in
  out.1 = Err Unavailable
  ∧ holds factory0 TAG.TAG_CORE_NEUTRON_FLUX_VALUE 0.8 = true
  ∧ holds out.2 TAG.TAG_CORE_NEUTRON_FLUX_VALUE 0.745 = true
  ∧ wrote out.2 (writes factory0) TAG.TAG_CORE_NEUTRON_FLUX_VALUE = true
  ∧ holds out.2 TAG.TAG_CORE_PRESSURE_VALUE 15 = true
  ∧ wrote out.2 (writes factory0) TAG.TAG_CORE_PRESSURE_VALUE = false.
Proof. repeat split; vm_compute; reflexivity. Qed.

(** ** AttackDispatcher: a failing command *)

Section Dispatcher.
Import AttackerRemote.
Variable unicode_lower : string → string.
Variable getenv : string → option string.
Variable primitive_raises : attack_call → bool.

(** Close a case of [decide_attack]: the lookup that fails is a required
  field that is missing, or no required field is missing after all. *)
Ltac close_case Hin Hnone :=
first
  [ eexists; split; [reflexivity |]; split;
    [ apply list_elem_of_In; simpl; tauto | assumption ]
  | exfalso; apply list_elem_of_In in Hin; simpl in Hin;
    intuition (subst; congruence) ].

Lemma decide_attack_missing fields k :
fields !! "attack"%string = Some (JStr k) →
(∃ tag, tag ∈ required unicode_lower k fields ∧ fields !! tag = None) →
∃ t, decide_attack unicode_lower getenv (JObject fields) = inl (CannotFindTag t)
     ∧ t ∈ required unicode_lower k fields ∧ fields !! t = None.
Proof.
intros Hattack (tag & Hin & Hnone).
unfold decide_attack, link_target, mode_is_link, find_tag_in_msg, required
  in *.
rewrite Hattack. cbn [and_then pure raise attack_is].
destruct (String.eqb k "ip-scan") eqn:E1.
{ apply String.eqb_eq in E1. subst k. by apply elem_of_nil in Hin. }
destruct (String.eqb k "ddos") eqn:E2.
{ destruct (fields !! "timeout"%string) eqn:Ht;
    cbn [and_then pure raise]; [| close_case Hin Hnone].
  destruct (fields !! "target"%string) eqn:Hg;
    cbn [and_then pure raise]; close_case Hin Hnone. }
destruct (String.eqb k "port-scan") eqn:E3.
{ apply String.eqb_eq in E3. subst k. by apply elem_of_nil in Hin. }
destruct (String.eqb k "mitm") eqn:E4.
{ destruct (fields !! "mode"%string) as [mode|] eqn:Hm;
    cbn [and_then pure raise]; [| close_case Hin Hnone].
  destruct (fields !! "timeout"%string) eqn:Ht;
    cbn [and_then pure raise]; [| close_case Hin Hnone].
  destruct mode as [| b | n | m]; cbn [and_then pure raise];
    try close_case Hin Hnone.
  destruct (String.eqb (lower unicode_lower m) "link"); cbn [and_then pure raise];
    [| close_case Hin Hnone].
  destruct (fields !! "target1"%string) eqn:H1;
    cbn [and_then pure raise]; [| close_case Hin Hnone].
  destruct (fields !! "target2"%string) eqn:H2;
    cbn [and_then pure raise]; close_case Hin Hnone. }
destruct (String.eqb k "replay") eqn:E5; [| by apply elem_of_nil in Hin].
destruct (fields !! "mode"%string) as [mode|] eqn:Hm;
  cbn [and_then pure raise]; [| close_case Hin Hnone].
destruct (fields !! "timeout"%string) eqn:Ht;
  cbn [and_then pure raise]; [| close_case Hin Hnone].
destruct (fields !! "replay"%string) eqn:Hr;
  cbn [and_then pure raise]; [| close_case Hin Hnone].
destruct mode as [| b | n | m]; cbn [and_then pure raise];
  try close_case Hin Hnone.
destruct (String.eqb (lower unicode_lower m) "link"); cbn [and_then pure raise];
  [| close_case Hin Hnone].
destruct (fields !! "target1"%string) eqn:H1;
  cbn [and_then pure raise]; [| close_case Hin Hnone].
destruct (fields !! "target2"%string) eqn:H2;
  cbn [and_then pure raise]; close_case Hin Hnone.
Qed.

Lemma decide_attack_unrecognized fields a :
fields !! "attack"%string = Some a → recognized a = false →
decide_attack unicode_lower getenv (JObject fields) = inl (AttackNotRecognized a).
Proof.
intros Hattack Hrec. unfold decide_attack, find_tag_in_msg.
rewrite Hattack. cbn [and_then pure raise].
destruct a as [| b | n | k]; try reflexivity.
cbn [recognized attack_is] in *.
repeat (apply orb_false_elim in Hrec as [Hrec ?]).
by repeat match goal with H : String.eqb _ _ = false |- _ => rewrite H; clear H end.
Qed.

Lemma process_messages_fails msg s fields err :
body msg = JObject fields →
decide_attack unicode_lower getenv (JObject fields) = inl err →
failed_with s (process_messages unicode_lower getenv primitive_raises msg s) fields err.
Proof.
intros Hbody Hdec. unfold failed_with, process_messages, try_block.
rewrite Hbody, Hdec. reflexivity.
Qed.

(** C6. A command object whose attack field is missing, or is not one of the
  five recognized kinds, or which lacks a field its kind requires, fails
  alone: [process_messages] returns, having reported the start and the
  error and launched nothing, with the in-flight flag reset and the queue
  untouched; a command that arrives next is queued, and an enabled
  dispatcher polling next takes the command at the head of the queue. *)
Theorem bad_command_fails_alone msg (s : t) fields :
body msg = JObject fields →
fields !! "attack"%string = None
∨ (∃ a, fields !! "attack"%string = Some a ∧ recognized a = false)
∨ (∃ k tag, fields !! "attack"%string = Some (JStr k)
            ∧ tag ∈ required unicode_lower k fields ∧ fields !! tag = None) →
let s' := process_messages unicode_lower getenv primitive_raises msg s in
(∃ err, failed_with s s' fields err
        ∧ (fields !! "attack"%string = None → err = CannotFindTag "attack")
        ∧ (∀ a, fields !! "attack"%string = Some a → recognized a = false →
                err = AttackNotRecognized a)
        ∧ (∀ k, fields !! "attack"%string = Some (JStr k) →
                recognized (JStr k) = true →
                ∃ tag, err = CannotFindTag tag ∧ tag ∈ required unicode_lower k fields
                       ∧ fields !! tag = None))
∧ applying_attack s' = false
∧ launched s' = launched s
∧ (∀ next, attacksQueue (on_message next s') = (attacksQueue s ++ [next])%list)
∧ (∀ next rest rpc done,
     enabled s = true → attacksQueue s = next :: rest →
     step unicode_lower getenv primitive_raises (Config s' Idle rpc done) Poll
     = Config (set_queue s' rest) (Fetched next) rpc done).
Proof.
intros Hbody Hbad s'.
assert (∃ err, failed_with s s' fields err
        ∧ (fields !! "attack"%string = None → err = CannotFindTag "attack")
        ∧ (∀ a, fields !! "attack"%string = Some a → recognized a = false →
                err = AttackNotRecognized a)
        ∧ (∀ k, fields !! "attack"%string = Some (JStr k) →
                recognized (JStr k) = true →
                ∃ tag, err = CannotFindTag tag ∧ tag ∈ required unicode_lower k fields
                       ∧ fields !! tag = None)) as Hfail.
{ destruct Hbad as [Hnone | [(a & Ha & Hrec) | (k & tag & Hk & Hin & Hnone)]].
  - exists (CannotFindTag "attack"). split; [| split; [done | split]].
    + apply process_messages_fails; [done |].
      unfold decide_attack, find_tag_in_msg. by rewrite Hnone.
    + intros a Ha. congruence.
    + intros k Hk. congruence.
  - exists (AttackNotRecognized a). split; [| split; [congruence | split]].
    + apply process_messages_fails; [done |].
      by apply decide_attack_unrecognized.
    + intros a' Ha' _. congruence.
    + intros k Hk Hr. congruence.
  - destruct (decide_attack_missing fields k Hk) as (t & Hdec & Ht & Htn);
      [by exists tag |].
    exists (CannotFindTag t). split; [| split; [congruence | split]].
    + by apply process_messages_fails.
    + intros a Ha Hrec. exfalso.
      assert (a = JStr k) as -> by congruence.
      cbn [recognized] in Hrec. unfold required in Hin.
      repeat (apply orb_false_elim in Hrec as [Hrec ?]).
      repeat match goal with
             | H : String.eqb _ _ = false |- _ => rewrite H in Hin; clear H
             end.
      by apply elem_of_nil in Hin.
    + intros k' Hk' _. assert (k' = k) as -> by congruence. eauto. }
destruct Hfail as (err & Hs' & Herr). split; [by exists err |].
unfold failed_with in Hs'. fold s' in Hs'. rewrite Hs'.
repeat split.
intros next rest rpc done Hen Hq. cbn. by rewrite Hen, Hq.
Qed.
End Dispatcher.

(** ** AttackDispatcher: drop on busy *)

Section Interleaving.
Import AttackerRemote.
Variable unicode_lower : string → string.
Variable getenv : string → option string.
Variable primitive_raises : attack_call → bool.

(** A document that is not an object launches nothing: the lookup of the
  attack field raises. *)
Lemma decide_attack_other v :
decide_attack unicode_lower getenv (JOther v)
= inl (match v with
       | JStr s => if contains s "attack" then TypeError
                   else CannotFindTag "attack"
       | _ => TypeError
       end).
Proof.
unfold decide_attack, find_tag_in_msg.
destruct v as [| b | n | s]; try reflexivity.
by destruct (contains s "attack").
Qed.

Lemma decide_attack_array items :
decide_attack unicode_lower getenv (JArray items)
= inl (if existsb (fun v => match v with
                            | JStr a => String.eqb a "attack"
                            | _ => false
                            end) items
       then TypeError else CannotFindTag "attack").
Proof.
unfold decide_attack, find_tag_in_msg. by destruct (existsb _ items).
Qed.

Lemma try_block_effects m s :
let s' := except_block (try_block unicode_lower getenv primitive_raises m s) in
applying_attack s' = applying_attack s
∧ attacksQueue s' = attacksQueue s
∧ enabled s' = enabled s
∧ launched s' = (effects_of unicode_lower getenv m ++ launched s)%list.
Proof.
unfold try_block, effects_of.
destruct (body m) as [| fields | v | items]; cbn -[decide_attack];
  [done | | by rewrite decide_attack_other | by rewrite decide_attack_array].
destruct (decide_attack unicode_lower getenv (JObject fields))
  as [err | call]; cbn; [done |].
destruct (primitive_raises call); done.
Qed.

(** Case analysis on one step. *)
Ltac step_cases Hflag :=
cbn -[try_block except_block rev] in Hflag |- *;
rewrite ?Hflag; cbn -[try_block except_block rev];
repeat match goal with
       | |- context [if enabled ?s then _ else _] =>
           destruct (enabled s) eqn:?
       | |- context [match attacksQueue ?s with _ => _ end] =>
           destruct (attacksQueue s) eqn:?
       end;
cbn -[try_block except_block rev].

Lemma step_consistent c ev :
consistent unicode_lower getenv c → consistent unicode_lower getenv (step unicode_lower getenv primitive_raises c ev).
Proof.
destruct c as [s d r done]. intros [Hflag Hlaunch].
unfold consistent, step.
destruct ev, d, r; step_cases Hflag; try (split; done).
all: match goal with
     | |- context [try_block _ _ _ ?m ?s] =>
         destruct (try_block_effects m s) as (_ & _ & _ & Hl)
     end;
  split; [reflexivity |]; cbn -[try_block except_block] in *;
  by rewrite Hl, Hlaunch.
Qed.

Lemma step_backlog c ev :
consistent unicode_lower getenv c →
backlog (step unicode_lower getenv primitive_raises c ev)
= (backlog c ++ accepted_here c ev)%list.
Proof.
destruct c as [s d r done]. intros [Hflag _].
unfold backlog, accepted_here, step.
destruct ev, d, r; step_cases Hflag;
  repeat match goal with
         | H : attacksQueue _ = _ |- _ => rewrite H; clear H
         end;
  try (by rewrite ?app_nil_r, <- ?app_assoc).
all: match goal with
     | |- context [try_block _ _ _ ?m ?s] =>
         destruct (try_block_effects m s) as (_ & Hq & _ & _)
     end;
  cbn -[try_block except_block] in *; rewrite Hq;
  by rewrite ?app_nil_r, <- ?app_assoc.
Qed.

Lemma run_backlog evs :
∀ c, consistent unicode_lower getenv c →
  consistent unicode_lower getenv (run unicode_lower getenv primitive_raises c evs)
  ∧ backlog (run unicode_lower getenv primitive_raises c evs)
    = (backlog c ++ accepted unicode_lower getenv primitive_raises c evs)%list.
Proof.
induction evs as [|ev evs IH]; intros c Hc; cbn [run fold_left accepted].
- by rewrite app_nil_r.
- destruct (IH (step unicode_lower getenv primitive_raises c ev)) as [H1 H2];
    [by apply step_consistent |].
  split; [exact H1 |]. unfold run in H2. rewrite H2, step_backlog by done.
  unfold accepted_here. by rewrite <- app_assoc.
Qed.

Lemma accepted_arrivals evs :
∀ c m, m ∈ accepted unicode_lower getenv primitive_raises c evs → m ∈ arrivals evs.
Proof.
induction evs as [|ev evs IH]; intros c m; cbn [accepted arrivals flat_map].
- done.
- rewrite !elem_of_app. intros [H|H]; [left | right; by eapply IH].
  destruct ev, (rpc c); try (by apply elem_of_nil in H).
  destruct (executing c); [by apply elem_of_nil in H | done].
Qed.

Lemma refused_arrivals evs :
∀ c m, m ∈ refused unicode_lower getenv primitive_raises c evs → m ∈ arrivals evs.
Proof.
induction evs as [|ev evs IH]; intros c m; cbn [refused arrivals flat_map].
- done.
- rewrite !elem_of_app. intros [H|H]; [left | right; exact (IH _ _ H)].
  destruct ev, (rpc c); try (by apply elem_of_nil in H).
  destruct (executing c); [done | by apply elem_of_nil in H].
Qed.

Lemma refused_not_accepted evs :
∀ c m, NoDup (arrivals evs) →
  m ∈ refused unicode_lower getenv primitive_raises c evs →
  m ∉ accepted unicode_lower getenv primitive_raises c evs.
Proof.
induction evs as [|ev evs IH]; intros c m Hnd;
  cbn [accepted refused arrivals flat_map] in *.
- intros H. by apply elem_of_nil in H.
- apply NoDup_app in Hnd as (_ & Hdisj & Hnd).
  rewrite !elem_of_app. intros [Hr|Hr] [Ha|Ha].
  + destruct ev, (rpc c); try (by apply elem_of_nil in Hr).
    destruct (executing c);
      [by apply elem_of_nil in Ha | by apply elem_of_nil in Hr].
  + apply accepted_arrivals in Ha.
    destruct ev, (rpc c); try (by apply elem_of_nil in Hr).
    destruct (executing c); [| by apply elem_of_nil in Hr].
    apply list_elem_of_singleton in Hr as ->.
    eapply Hdisj; [| exact Ha]. by apply list_elem_of_singleton.
  + pose proof (refused_arrivals _ _ _ Hr) as Hin.
    destruct ev, (rpc c); try (by apply elem_of_nil in Ha).
    destruct (executing c); [by apply elem_of_nil in Ha |].
    apply list_elem_of_singleton in Ha as ->.
    eapply Hdisj; [| exact Hin]. by apply list_elem_of_singleton.
  + exact (IH _ _ Hnd Hr Ha).
Qed.

Lemma initial_consistent : consistent unicode_lower getenv initial.
Proof. by split. Qed.

(** C3, as the code has it. In every interleaving of the receive thread and
  the dispatcher, from the initial configuration: the in-flight flag is set
  exactly while a [try] block runs, between [process_messages] setting it
  and resetting it; [on_message] run without interruption is its two steps,
  the test of the flag and the [put]; an arrival that tests the flag while
  it is set only adds its two reports; the commands completed, in hand,
  queued or about to be queued are exactly the arrivals that tested the
  flag while it was clear, in order of arrival, and the attacks launched are
  those of the completed commands, so an arrival that found the flag set is
  never queued, never executed and has no effect; and once the [try] block
  has finished, the next arrival is queued again. *)
Theorem drop_on_busy (evs : list event) :
let c := run unicode_lower getenv primitive_raises initial evs in
applying_attack (state c) = executing c
∧ (∀ m, rpc c = Waiting →
     run unicode_lower getenv primitive_raises c [Arrive m; Put]
     = Config (on_message m (state c)) (dpc c) Waiting (completed c))
∧ (∀ m, applying_attack (state c) = true → rpc c = Waiting →
     step unicode_lower getenv primitive_raises c (Arrive m)
     = Config (do_report (do_report (state c) (Received m)) (Discarded m))
              (dpc c) Waiting (completed c))
∧ backlog c = accepted unicode_lower getenv primitive_raises initial evs
∧ launched (state c)
  = flat_map (effects_of unicode_lower getenv) (completed c)
∧ (NoDup (arrivals evs) →
   ∀ m, m ∈ refused unicode_lower getenv primitive_raises initial evs →
        m ∉ backlog c)
∧ (∀ m next, dpc c = Applying m → rpc c = Waiting →
     let c' := run unicode_lower getenv primitive_raises c
                 [Finish; Arrive next; Put] in
     applying_attack (state c') = false
     ∧ attacksQueue (state c') = (attacksQueue (state c) ++ [next])%list).
Proof.
intros c.
destruct (run_backlog evs initial initial_consistent) as [[Hflag Hl] Hb].
fold c in Hflag, Hl, Hb. cbn [backlog initial app] in Hb.
split; [exact Hflag |]. split; [| split; [| split; [| split; [| split]]]].
- intros m Hw. destruct c as [s d r done]. cbn in Hw. subst r.
  unfold on_message. cbn [run fold_left step state dpc rpc completed].
  destruct d; cbn [applying_attack do_report];
    destruct (applying_attack s); reflexivity.
- intros m Hset Hw. destruct c as [s d r done]. cbn in Hset, Hw |- *.
  subst r. destruct d; cbn; by rewrite Hset.
- exact Hb.
- exact Hl.
- intros Hnd m Hr. rewrite Hb. by apply refused_not_accepted.
- intros m next Hd Hw. destruct c as [s d r done]. cbn in Hd, Hw. subst d r.
  destruct (try_block_effects m s) as (_ & Hq & _ & _).
  cbn -[try_block except_block]. by rewrite Hq.
Qed.
End Interleaving.

(** ** AttackDispatcher: concrete runs *)

Lemma bad_command_fails_alone_witness :
  let s := idle_dispatcher in
  let fields := ddos_fields in
  let s' := AttackerRemote.process_messages no_unicode no_env never_raises
              ddos_without_target s in
  (∃ err, failed_with s s' fields err
          ∧ (fields !! "attack"%string = None →
             err = AttackerRemote.CannotFindTag "attack")
          ∧ (∀ a, fields !! "attack"%string = Some a →
                  AttackerRemote.recognized a = false →
                  err = AttackerRemote.AttackNotRecognized a)
          ∧ (∀ k, fields !! "attack"%string = Some (AttackerRemote.JStr k) →
                  AttackerRemote.recognized (AttackerRemote.JStr k) = true →
                  ∃ tag, err = AttackerRemote.CannotFindTag tag
                         ∧ tag ∈ AttackerRemote.required no_unicode k fields
                         ∧ fields !! tag = None))
  ∧ AttackerRemote.applying_attack s' = false
  ∧ AttackerRemote.launched s' = AttackerRemote.launched s
  ∧ (∀ next, AttackerRemote.attacksQueue (AttackerRemote.on_message next s')
             = AttackerRemote.attacksQueue s ++ [next])
  ∧ (∀ next rest rpc done,
       AttackerRemote.enabled s = true →
       AttackerRemote.attacksQueue s = next :: rest →
       AttackerRemote.step no_unicode no_env never_raises
         (AttackerRemote.Config s' AttackerRemote.Idle rpc done)
         AttackerRemote.Poll
       = AttackerRemote.Config (AttackerRemote.set_queue s' rest)
           (AttackerRemote.Fetched next) rpc done).
Proof.
  apply (bad_command_fails_alone no_unicode no_env never_raises ddos_without_target
           idle_dispatcher ddos_fields).
  - reflexivity.
  - right. right. exists "ddos"%string, "target"%string.
    split; [reflexivity |]. split; [| reflexivity].
    apply list_elem_of_In. simpl. tauto.
Defined.

Lemma drop_on_busy_witness :
  let c := AttackerRemote.run no_unicode no_env never_raises
             (AttackerRemote.initial) overlapping_run in
  AttackerRemote.applying_attack (AttackerRemote.state c)
  = AttackerRemote.executing c
  ∧ (∀ m, AttackerRemote.rpc c = AttackerRemote.Waiting →
       AttackerRemote.run no_unicode no_env never_raises c
         [AttackerRemote.Arrive m; AttackerRemote.Put]
       = AttackerRemote.Config
           (AttackerRemote.on_message m (AttackerRemote.state c))
           (AttackerRemote.dpc c) AttackerRemote.Waiting
           (AttackerRemote.completed c))
  ∧ (∀ m, AttackerRemote.applying_attack (AttackerRemote.state c) = true →
          AttackerRemote.rpc c = AttackerRemote.Waiting →
          AttackerRemote.step no_unicode no_env never_raises c
            (AttackerRemote.Arrive m)
          = AttackerRemote.Config
              (AttackerRemote.do_report
                 (AttackerRemote.do_report (AttackerRemote.state c)
                    (AttackerRemote.Received m))
                 (AttackerRemote.Discarded m))
              (AttackerRemote.dpc c) AttackerRemote.Waiting
              (AttackerRemote.completed c))
  ∧ backlog c
    = AttackerRemote.accepted no_unicode no_env never_raises
        AttackerRemote.initial overlapping_run
  ∧ AttackerRemote.launched (AttackerRemote.state c)
    = flat_map (effects_of no_unicode no_env) (AttackerRemote.completed c)
  ∧ (NoDup (arrivals overlapping_run) →
     ∀ m, m ∈ AttackerRemote.refused no_unicode no_env never_raises
                AttackerRemote.initial overlapping_run →
          m ∉ backlog c)
  ∧ (∀ m next, AttackerRemote.dpc c = AttackerRemote.Applying m →
       AttackerRemote.rpc c = AttackerRemote.Waiting →
       let c' := AttackerRemote.run no_unicode no_env never_raises c
                   [AttackerRemote.Finish; AttackerRemote.Arrive next;
                    AttackerRemote.Put] in
       AttackerRemote.applying_attack (AttackerRemote.state c') = false
       ∧ AttackerRemote.attacksQueue (AttackerRemote.state c')
         = AttackerRemote.attacksQueue (AttackerRemote.state c) ++ [next]).
Proof.
  apply (drop_on_busy no_unicode no_env never_raises overlapping_run).
Defined.

(** C3 as stated fails. The flag is not set together with taking a command
    from the queue: B is delivered after the dispatcher has taken A from
    the queue and called [process_messages], and before that has set the
    flag. B is not refused: it is queued while A executes with the flag set,
    it is executed after A, and both attacks are launched. *)
Lemma arrival_before_flag_is_executed :
  let run := AttackerRemote.run no_unicode no_env never_raises
               AttackerRemote.initial in
  AttackerRemote.dpc (run (take 4 race_run)) = AttackerRemote.Fetched msg_A
  ∧ AttackerRemote.dpc (run (take 7 race_run)) = AttackerRemote.Applying msg_A
  ∧ AttackerRemote.applying_attack
      (AttackerRemote.state (run (take 7 race_run))) = true
  ∧ AttackerRemote.attacksQueue
      (AttackerRemote.state (run (take 7 race_run))) = [msg_B]
  ∧ AttackerRemote.refused no_unicode no_env never_raises
      AttackerRemote.initial race_run = []
  ∧ AttackerRemote.completed (run race_run) = [msg_B; msg_A]
  ∧ AttackerRemote.launched (AttackerRemote.state (run race_run))
    = [AttackerRemote.scan_nmap_attack; AttackerRemote.scan_scapy_attack].
Proof. repeat split; vm_compute; reflexivity. Qed.

(** On that run: B is refused, and the dispatcher's backlog is A alone, also
    after A has finished and C has been queued behind it. *)
Example overlapping_run_drops_B :
  AttackerRemote.refused no_unicode no_env never_raises AttackerRemote.initial
    overlapping_run = [msg_B]
  ∧ backlog (AttackerRemote.run no_unicode no_env never_raises AttackerRemote.initial
               overlapping_run) = [msg_A]
  ∧ backlog (AttackerRemote.run no_unicode no_env never_raises AttackerRemote.initial
               (overlapping_run
                ++ [AttackerRemote.Finish; AttackerRemote.Arrive msg_C;
                    AttackerRemote.Put])) = [msg_A; msg_C]
  ∧ AttackerRemote.launched
      (AttackerRemote.state
         (AttackerRemote.run no_unicode no_env never_raises AttackerRemote.initial
            (overlapping_run
             ++ [AttackerRemote.Finish; AttackerRemote.Arrive msg_C;
                 AttackerRemote.Put])))
    = [AttackerRemote.scan_scapy_attack].
Proof. repeat split; vm_compute; reflexivity. Qed.

(** ** ControlLogic: what an automatic block writes *)

Section Blocks.
Context {D : Type}.
Implicit Types (w : world D) (e : env).

(** After a write the rest of the cycle is reasoned about from the world
    the write left. *)
Lemma hoare_from_root {A} e keep (P1 : world D → Prop) (m : M D A) Q E :
  (∀ w1, P1 w1 → hoare e (frame keep w1) m Q E) →
  hoare e (fun w => ∃ w1, P1 w1 ∧ frame keep w1 w) m Q E.
Proof. intros H w (w1 & H1 & Hw). by apply (H w1). Qed.

Lemma healthy_set e w n v ts :
  healthy e w →
  healthy e (World (self w) (<[n := Row v ts]> (rows w)) ((n, v) :: writes w)
                   (S (accesses w))).
Proof.
  intros [Hav Hreg]. split; [done |]. intros m Hm. simpl.
  by apply is_Some_insert, Hreg.
Qed.

(** A write of a kept tag [n], as a rule: the world it leaves is healthy,
    holds [v] in [n], and has the tags of [keep'] as they were. *)
Lemma hoare_set_root e keep keep' w0 n v :
  healthy e w0 → mem n tag_names = true →
  forallb (fun m => mem m keep) keep' = true → mem n keep' = false →
  hoare e (frame keep w0) (_set n v)
    (fun _ w => ∃ w1, (healthy e w1 ∧ tag_value w1 n = Some v
                       ∧ frame keep' w0 w1) ∧ frame keep w1 w)
    (fun _ => False).
Proof.
  intros Hh Hn Hsub Hk w Hw. unfold _set.
  destruct Hh as [Hav Hreg]. rewrite Hav.
  destruct (frame_dom _ _ _ Hw n (Hreg n Hn)) as [r Hr]. rewrite Hr.
  eexists. split; [| apply frame_refl]. split; [| split].
  - apply healthy_set. eapply healthy_frame; [exact Hw | by split].
  - unfold tag_value. simpl. by rewrite lookup_insert_eq.
  - apply frame_set; [done |]. by eapply frame_weaken.
Qed.
End Blocks.

(** An automatic block that reads the command and writes it back changed. *)
Lemma auto_block e keep keep' (w0 : world unit) mode cmd (f : Q → Q) m0 c0 :
  healthy e w0 →
  mem mode tag_names = true → mem cmd tag_names = true →
  mem mode keep = true → mem cmd keep = true →
  forallb (fun m => mem m keep) keep' = true → mem cmd keep' = false →
  tag_value w0 mode = Some m0 → PLC1.is_manual m0 = false →
  tag_value w0 cmd = Some c0 →
  hoare e (frame keep w0)
    (manual <- PLC1._check_manual_input mode cmd ;;
     if negb manual then c <- _get cmd ;; _set cmd (f c) else ret tt)
    (fun _ w => ∃ w1, (healthy e w1 ∧ tag_value w1 cmd = Some (f c0)
                       ∧ frame keep' w0 w1) ∧ frame keep w1 w)
    (fun _ => False).
Proof.
  intros Hh Hmn Hcn Hmk Hck Hsub Hk' Hm Hauto Hc.
  eapply hoare_keeps_bind;
    [exact Hh | by apply keeps_check_kept | intros b Hb].
  rewrite (Hb _ Hm), Hauto. cbn [negb].
  eapply hoare_keeps_bind; [exact Hh | by apply keeps_get | intros c Hcv].
  specialize (Hcv Hck). rewrite Hc in Hcv. injection Hcv as <-.
  by apply hoare_set_root.
Qed.

(** An automatic block that writes the command without reading it. *)
Lemma auto_block_write e keep keep' (w0 : world unit) mode cmd (v : Q) m0 :
  healthy e w0 →
  mem mode tag_names = true → mem cmd tag_names = true →
  mem mode keep = true →
  forallb (fun m => mem m keep) keep' = true → mem cmd keep' = false →
  tag_value w0 mode = Some m0 → PLC1.is_manual m0 = false →
  hoare e (frame keep w0)
    (manual <- PLC1._check_manual_input mode cmd ;;
     if negb manual then _set cmd v else ret tt)
    (fun _ w => ∃ w1, (healthy e w1 ∧ tag_value w1 cmd = Some v
                       ∧ frame keep' w0 w1) ∧ frame keep w1 w)
    (fun _ => False).
Proof.
  intros Hh Hmn Hcn Hmk Hsub Hk' Hm Hauto.
  eapply hoare_keeps_bind;
    [exact Hh | by apply keeps_check_kept | intros b Hb].
  rewrite (Hb _ Hm), Hauto. cbn [negb].
  by apply hoare_set_root.
Qed.

(** Carry what is known of the kept tags over to the new root. *)
Ltac transport Hf :=
  lazymatch type of Hf with
  | frame ?k ?wa ?wb =>
      repeat match goal with
             | H : tag_value wa ?n = Some ?x |- _ =>
                 first
                   [ assert (tag_value wb n = Some x)
                       by (rewrite (frame_value k wa wb n Hf eq_refl); exact H);
                     clear H
                   | clear H ]
             end
  end.

(** The rest of a cycle leaves the kept tags alone. *)
Ltac keeps_rest :=
  repeat first
    [ keeps_guarded
    | keeps_leaf
    | match goal with
      | |- keeps _ _ _ (if ?c then _ else _) _ => destruct c
      end ].

(** One statement of a healthy cycle, writes to other tags included. *)
Ltac hstep' Hh :=
  first
    [ hstep Hh
    | cbv beta zeta;
      lazymatch goal with
      | |- hoare _ _ (bind (_set _ _) _) _ _ =>
          eapply hoare_keeps_bind with (R := fun _ => True);
          [ exact Hh | apply keeps_set; reflexivity | intros _ _ ]
      end ].

(** The rest of the cycle after the block of interest: it keeps the tags
    that are still tracked, so the written command is the final one. *)
Ltac finish_cycle Hh1 :=
  eapply hoare_keeps_last with (R := fun _ => True);
  [ exact Hh1
  | keeps_rest
  | let w := fresh "w" in let Hw := fresh "Hw" in
    intros _ w Hw _;
    repeat match goal with
           | H : tag_value ?w1 ?n = Some ?x |- _ =>
               lazymatch type of Hw with
               | frame ?k w1 w =>
                   rewrite <- (frame_value k w1 w n Hw eq_refl) in H
               end
           end ].

Lemma PLC1_logic_rod e (w0 : world unit) (m0 flux flux_sp rod : Q) :
  healthy e w0 →
  tag_value w0 TAG.TAG_CORE_CONTROL_ROD_MODE = Some m0 →
  PLC1.is_manual m0 = false →
  tag_value w0 TAG.TAG_CORE_NEUTRON_FLUX_VALUE = Some flux →
  tag_value w0 TAG.TAG_CORE_NEUTRON_FLUX_SP = Some flux_sp →
  tag_value w0 TAG.TAG_CORE_CONTROL_ROD_POS_VALUE = Some rod →
  ∃ w', PLC1._logic e w0 = (Ok tt, w')
        ∧ tag_value w' TAG.TAG_CORE_CONTROL_ROD_POS_VALUE
          = Some (py_min (py_max (rod + (flux - flux_sp) * 4) 0) 100).
Proof.
  intros Hh Hm Hauto Hflux Hsp Hrod.
  pose (keep := [TAG.TAG_CORE_CONTROL_ROD_MODE;
                 TAG.TAG_CORE_CONTROL_ROD_POS_VALUE;
                 TAG.TAG_CORE_NEUTRON_FLUX_VALUE; TAG.TAG_CORE_NEUTRON_FLUX_SP]).
  destruct (hoare_run e keep w0 PLC1._logic
    (fun _ w' => tag_value w' TAG.TAG_CORE_CONTROL_ROD_POS_VALUE
       = Some (py_min (py_max (rod + (flux - flux_sp) * 4) 0) 100)))
    as ([] & w' & Hrun & Hpost); [| by exists w'].
  subst keep. unfold PLC1._logic.
  do 13 hstep' Hh. cbv beta zeta.
  eapply hoare_bind;
    [ eapply (auto_block _ _ [TAG.TAG_CORE_CONTROL_ROD_MODE]); try reflexivity; eassumption
    | intros ?; cbv beta; apply hoare_from_root; intros w1 (Hh1 & Hv1 & Hf1) ].
  clear Hf1.
  finish_cycle Hh1. exact Hv1.
Qed.

(** The proof of a closed form: [n] statements up to the block, the block,
    the rest of the cycle. *)
Tactic Notation "controller" ident(Hh) integer(n) constr(keep') :=
  unfold PLC1._logic;
  do n hstep' Hh; cbv beta zeta;
  eapply hoare_bind;
  [ eapply (auto_block _ _ keep'); try reflexivity; eassumption
  | let w1 := fresh "w1" in
    let Hh1 := fresh "Hh1" in let Hv1 := fresh "Hv1" in
    let Hf1 := fresh "Hf1" in
    intros ?; cbv beta; apply hoare_from_root; intros w1 (Hh1 & Hv1 & Hf1);
    clear Hf1; finish_cycle Hh1; exact Hv1 ].

Lemma PLC1_logic_pump e (w0 : world unit) (m0 t_out tmax flow fmin cmd : Q) :
  healthy e w0 →
  tag_value w0 TAG.TAG_CORE_RCP_MODE = Some m0 →
  PLC1.is_manual m0 = false →
  tag_value w0 TAG.TAG_CORE_TEMP_OUT_VALUE = Some t_out →
  tag_value w0 TAG.TAG_CORE_TEMP_OUT_MAX = Some tmax →
  tag_value w0 TAG.TAG_CORE_FLOW_VALUE = Some flow →
  tag_value w0 TAG.TAG_CORE_FLOW_MIN = Some fmin →
  tag_value w0 TAG.TAG_CORE_RCP_SPEED_CMD = Some cmd →
  ∃ w', PLC1._logic e w0 = (Ok tt, w')
        ∧ tag_value w' TAG.TAG_CORE_RCP_SPEED_CMD
          = Some (py_min (py_max
              (if Qgtb t_out (tmax - 3) || Qltb flow (fmin + 0.05)
               then cmd + 0.02
               else if Qltb t_out (tmax - 8) && Qgtb flow (fmin + 0.2)
                    then cmd - 0.01 else cmd) 0) 1).
Proof.
  intros Hh Hm Hauto Ht Htm Hf Hfm Hc.
  pose (keep := [TAG.TAG_CORE_RCP_MODE; TAG.TAG_CORE_RCP_SPEED_CMD;
                 TAG.TAG_CORE_TEMP_OUT_VALUE; TAG.TAG_CORE_TEMP_OUT_MAX;
                 TAG.TAG_CORE_FLOW_VALUE; TAG.TAG_CORE_FLOW_MIN]).
  match goal with
  | |- ∃ w', _ ∧ tag_value w' ?n = ?v =>
      destruct (hoare_run e keep w0 PLC1._logic
                  (fun _ w' => tag_value w' n = v))
        as ([] & w' & Hrun & Hpost); [| by exists w']
  end.
  subst keep. controller Hh 14 [TAG.TAG_CORE_RCP_MODE].
Qed.

Lemma PLC1_logic_coolant_valve e (w0 : world unit) (m0 t_out tmax v : Q) :
  healthy e w0 →
  tag_value w0 TAG.TAG_CORE_COOLANT_VALVE_MODE = Some m0 →
  PLC1.is_manual m0 = false →
  tag_value w0 TAG.TAG_CORE_TEMP_OUT_VALUE = Some t_out →
  tag_value w0 TAG.TAG_CORE_TEMP_OUT_MAX = Some tmax →
  tag_value w0 TAG.TAG_CORE_COOLANT_VALVE_CMD = Some v →
  ∃ w', PLC1._logic e w0 = (Ok tt, w')
        ∧ tag_value w' TAG.TAG_CORE_COOLANT_VALVE_CMD
          = Some (py_min (py_max
              (if Qgtb t_out (tmax - 2) then v + 0.02
               else if Qltb t_out (tmax - 10) then v - 0.01 else v) 0) 1).
Proof.
  intros Hh Hm Hauto Ht Htm Hc.
  pose (keep := [TAG.TAG_CORE_COOLANT_VALVE_MODE; TAG.TAG_CORE_COOLANT_VALVE_CMD;
                 TAG.TAG_CORE_TEMP_OUT_VALUE; TAG.TAG_CORE_TEMP_OUT_MAX]).
  match goal with
  | |- ∃ w', _ ∧ tag_value w' ?n = ?v =>
      destruct (hoare_run e keep w0 PLC1._logic
                  (fun _ w' => tag_value w' n = v))
        as ([] & w' & Hrun & Hpost); [| by exists w']
  end.
  subst keep. controller Hh 15 [TAG.TAG_CORE_COOLANT_VALVE_MODE].
Qed.

Lemma PLC1_logic_loop_valve e (w0 : world unit) (m0 t_out tmax flow fmin lv : Q) :
  healthy e w0 →
  tag_value w0 TAG.TAG_PRIMARY_LOOP_VALVE_MODE = Some m0 →
  PLC1.is_manual m0 = false →
  tag_value w0 TAG.TAG_CORE_TEMP_OUT_VALUE = Some t_out →
  tag_value w0 TAG.TAG_CORE_TEMP_OUT_MAX = Some tmax →
  tag_value w0 TAG.TAG_CORE_FLOW_VALUE = Some flow →
  tag_value w0 TAG.TAG_CORE_FLOW_MIN = Some fmin →
  tag_value w0 TAG.TAG_PRIMARY_LOOP_VALVE_CMD = Some lv →
  ∃ w', PLC1._logic e w0 = (Ok tt, w')
        ∧ tag_value w' TAG.TAG_PRIMARY_LOOP_VALVE_CMD
          = Some (py_min (py_max
              (if Qltb flow (fmin + 0.05) || Qgtb t_out (tmax - 5)
               then lv + 0.02
               else if Qgtb flow (fmin + 0.2) && Qltb t_out (tmax - 12)
                    then lv - 0.01 else lv) 0) 1).
Proof.
  intros Hh Hm Hauto Ht Htm Hf Hfm Hc.
  pose (keep := [TAG.TAG_PRIMARY_LOOP_VALVE_MODE; TAG.TAG_PRIMARY_LOOP_VALVE_CMD;
                 TAG.TAG_CORE_TEMP_OUT_VALUE; TAG.TAG_CORE_TEMP_OUT_MAX;
                 TAG.TAG_CORE_FLOW_VALUE; TAG.TAG_CORE_FLOW_MIN]).
  match goal with
  | |- ∃ w', _ ∧ tag_value w' ?n = ?v =>
      destruct (hoare_run e keep w0 PLC1._logic
                  (fun _ w' => tag_value w' n = v))
        as ([] & w' & Hrun & Hpost); [| by exists w']
  end.
  subst keep. controller Hh 16 [TAG.TAG_PRIMARY_LOOP_VALVE_MODE].
Qed.

Lemma PLC1_logic_heater e (w0 : world unit) (m0 p_core pmax h : Q) :
  healthy e w0 →
  tag_value w0 TAG.TAG_CORE_PRESSURIZER_HEATER_MODE = Some m0 →
  PLC1.is_manual m0 = false →
  tag_value w0 TAG.TAG_CORE_PRESSURE_VALUE = Some p_core →
  tag_value w0 TAG.TAG_CORE_PRESSURE_MAX = Some pmax →
  tag_value w0 TAG.TAG_CORE_PRESSURIZER_HEATER_CMD = Some h →
  ∃ w', PLC1._logic e w0 = (Ok tt, w')
        ∧ tag_value w' TAG.TAG_CORE_PRESSURIZER_HEATER_CMD
          = Some (py_min (py_max
              (if Qltb p_core (pmax - PLC1.P_HYST) then h + 0.03
               else if Qgtb p_core (pmax + 0.02) then h - 0.02 else h) 0) 1).
Proof.
  intros Hh Hm Hauto Hp Hpm Hc.
  pose (keep := [TAG.TAG_CORE_PRESSURIZER_HEATER_MODE;
                 TAG.TAG_CORE_PRESSURIZER_HEATER_CMD;
                 TAG.TAG_CORE_PRESSURE_VALUE; TAG.TAG_CORE_PRESSURE_MAX]).
  match goal with
  | |- ∃ w', _ ∧ tag_value w' ?n = ?v =>
      destruct (hoare_run e keep w0 PLC1._logic
                  (fun _ w' => tag_value w' n = v))
        as ([] & w' & Hrun & Hpost); [| by exists w']
  end.
  subst keep. controller Hh 17 [TAG.TAG_CORE_PRESSURIZER_HEATER_MODE].
Qed.

Lemma PLC1_logic_spray e (w0 : world unit) (m0 p_core pmax s : Q) :
  healthy e w0 →
  tag_value w0 TAG.TAG_CORE_PRESSURIZER_SPRAY_MODE = Some m0 →
  PLC1.is_manual m0 = false →
  tag_value w0 TAG.TAG_CORE_PRESSURE_VALUE = Some p_core →
  tag_value w0 TAG.TAG_CORE_PRESSURE_MAX = Some pmax →
  tag_value w0 TAG.TAG_CORE_PRESSURIZER_SPRAY_CMD = Some s →
  ∃ w', PLC1._logic e w0 = (Ok tt, w')
        ∧ tag_value w' TAG.TAG_CORE_PRESSURIZER_SPRAY_CMD
          = Some (py_min (py_max
              (if Qgtb p_core (pmax + 0.03) then s + 0.03
               else if Qltb p_core (pmax - PLC1.P_HYST) then s - 0.02 else s)
              0) 1).
Proof.
  intros Hh Hm Hauto Hp Hpm Hc.
  pose (keep := [TAG.TAG_CORE_PRESSURIZER_SPRAY_MODE;
                 TAG.TAG_CORE_PRESSURIZER_SPRAY_CMD;
                 TAG.TAG_CORE_PRESSURE_VALUE; TAG.TAG_CORE_PRESSURE_MAX]).
  match goal with
  | |- ∃ w', _ ∧ tag_value w' ?n = ?v =>
      destruct (hoare_run e keep w0 PLC1._logic
                  (fun _ w' => tag_value w' n = v))
        as ([] & w' & Hrun & Hpost); [| by exists w']
  end.
  subst keep. controller Hh 18 [TAG.TAG_CORE_PRESSURIZER_SPRAY_MODE].
Qed.

Lemma PLC1_logic_pressurizer_valve e (w0 : world unit)
    (m0 p_core pmax phihi relief0 : Q) :
  healthy e w0 →
  tag_value w0 TAG.TAG_CORE_PRESSURIZER_VALVE_MODE = Some m0 →
  PLC1.is_manual m0 = false →
  tag_value w0 TAG.TAG_CORE_PRESSURE_VALUE = Some p_core →
  tag_value w0 TAG.TAG_CORE_PRESSURE_MAX = Some pmax →
  tag_value w0 TAG.TAG_CORE_PRESSURE_HIHI = Some phihi →
  tag_value w0 TAG.TAG_CORE_RELIEF_VALVE_STATUS = Some relief0 →
  let relief := if Qgtb p_core phihi then 1
                else if Qltb p_core (pmax - 0.05) then 0 else relief0 in
  ∃ w', PLC1._logic e w0 = (Ok tt, w')
        ∧ tag_value w' TAG.TAG_CORE_RELIEF_VALVE_STATUS = Some relief
        ∧ tag_value w' TAG.TAG_CORE_PRESSURIZER_VALVE_CMD
          = Some (if truthy relief then 1 else 0).
Proof.
  intros Hh Hm Hauto Hp Hpm Hph Hrel relief.
  pose (keep := [TAG.TAG_CORE_PRESSURIZER_VALVE_MODE;
                 TAG.TAG_CORE_PRESSURIZER_VALVE_CMD;
                 TAG.TAG_CORE_PRESSURE_VALUE; TAG.TAG_CORE_PRESSURE_MAX;
                 TAG.TAG_CORE_PRESSURE_HIHI; TAG.TAG_CORE_RELIEF_VALVE_STATUS]).
  destruct (hoare_run e keep w0 PLC1._logic
    (fun _ w' => tag_value w' TAG.TAG_CORE_RELIEF_VALVE_STATUS = Some relief
                 ∧ tag_value w' TAG.TAG_CORE_PRESSURIZER_VALVE_CMD
                   = Some (if truthy relief then 1 else 0)))
    as ([] & w' & Hrun & Hpost); [| by exists w'].
  subst keep relief. unfold PLC1._logic.
  do 20 hstep' Hh. cbv beta zeta.
  eapply hoare_bind;
    [ apply (hoare_set_root _ _
               [TAG.TAG_CORE_PRESSURIZER_VALVE_MODE;
                TAG.TAG_CORE_PRESSURIZER_VALVE_CMD]); [exact Hh | reflexivity..]
    | intros ?; cbv beta; apply hoare_from_root; intros w1 (Hh1 & Hv1 & Hf1) ].
  transport Hf1. clear Hf1.
  eapply hoare_bind;
    [ eapply (auto_block_write _ _ [TAG.TAG_CORE_RELIEF_VALVE_STATUS]);
      try reflexivity; eassumption
    | intros ?; cbv beta; apply hoare_from_root; intros w2 (Hh2 & Hv2 & Hf2) ].
  transport Hf2. clear Hf2.
  finish_cycle Hh2. split; assumption.
Qed.

Lemma py_clamp_range x lo hi :
  lo <= hi → lo <= py_min (py_max x lo) hi ∧ py_min (py_max x lo) hi <= hi.
Proof.
  intros Hle. unfold py_min, py_max.
  destruct (Qgtb lo x) eqn:E1; [apply Qgtb_gt in E1 | apply Qgtb_le in E1];
    match goal with
    | |- context [Qltb hi ?y] =>
        destruct (Qltb hi y) eqn:E2;
        [apply Qltb_lt in E2 | apply Qltb_ge in E2]
    end; split; lra.
Qed.

(** Inside its range a clamped value is the value itself. *)
Lemma py_clamp_inside x lo hi :
  lo <= x → x <= hi → py_min (py_max x lo) hi = x.
Proof.
  intros H1 H2. unfold py_min, py_max.
  destruct (Qgtb lo x) eqn:E1; [apply Qgtb_gt in E1; lra |].
  destruct (Qltb hi x) eqn:E2; [apply Qltb_lt in E2; lra | done].
Qed.

(** Clamping moves a value no further than to the nearer end. *)
Lemma py_clamp_between x lo hi :
  lo <= hi →
  (x <= hi → py_min (py_max x lo) hi == py_max x lo)
  ∧ (lo <= x → py_max x lo = x)
  ∧ (x <= lo → py_min (py_max x lo) hi == lo)
  ∧ (hi <= x → py_min (py_max x lo) hi == hi).
Proof.
  intros Hle. unfold py_min, py_max.
  destruct (Qgtb lo x) eqn:E1; [apply Qgtb_gt in E1 | apply Qgtb_le in E1];
    match goal with
    | |- context [Qltb hi ?y] =>
        destruct (Qltb hi y) eqn:E2;
        [apply Qltb_lt in E2 | apply Qltb_ge in E2]
    end; repeat split; intros; try lra; try reflexivity.
Qed.

Lemma healthy_value {D} e (w : world D) n :
  healthy e w → mem n tag_names = true → ∃ v, tag_value w n = Some v.
Proof.
  intros [_ Hreg] Hn. destruct (Hreg n Hn) as [r Hr].
  exists (value r). unfold tag_value. by rewrite Hr.
Qed.

(** X1. In automatic mode a cycle of a healthy store leaves each of the
    seven commands inside its range (0 to 100 for the rods, 0 to 1 for the
    others), whatever value the command held before the cycle. *)
Theorem auto_command_in_range e (w0 : world unit) (a : actuator) (m0 : Q) :
  healthy e w0 →
  tag_value w0 (mode_tag a) = Some m0 →
  PLC1.is_manual m0 = false →
  ∃ w' v, PLC1._logic e w0 = (Ok tt, w')
          ∧ tag_value w' (command_tag a) = Some v
          ∧ 0 <= v ∧ v <= command_limit a.
Proof.
  intros Hh Hm Hauto.
  assert (Hval : ∀ n, mem n tag_names = true → ∃ v, tag_value w0 n = Some v)
    by (intros n Hn; by eapply healthy_value).
  destruct (Hval TAG.TAG_CORE_NEUTRON_FLUX_VALUE eq_refl) as [flux Hflux].
  destruct (Hval TAG.TAG_CORE_NEUTRON_FLUX_SP eq_refl) as [flux_sp Hsp].
  destruct (Hval TAG.TAG_CORE_TEMP_OUT_VALUE eq_refl) as [t_out Ht].
  destruct (Hval TAG.TAG_CORE_TEMP_OUT_MAX eq_refl) as [tmax Htm].
  destruct (Hval TAG.TAG_CORE_FLOW_VALUE eq_refl) as [flow Hf].
  destruct (Hval TAG.TAG_CORE_FLOW_MIN eq_refl) as [fmin Hfm].
  destruct (Hval TAG.TAG_CORE_PRESSURE_VALUE eq_refl) as [p_core Hp].
  destruct (Hval TAG.TAG_CORE_PRESSURE_MAX eq_refl) as [pmax Hpm].
  destruct (Hval TAG.TAG_CORE_PRESSURE_HIHI eq_refl) as [phihi Hph].
  destruct (Hval TAG.TAG_CORE_RELIEF_VALVE_STATUS eq_refl) as [relief0 Hrel].
  destruct (Hval (command_tag a)) as [c0 Hc]; [by destruct a |].
  destruct a; cbn [mode_tag command_tag command_limit] in *.
  - destruct (PLC1_logic_rod e w0 _ _ _ _ Hh Hm Hauto Hflux Hsp Hc)
      as (w' & Hrun & Hv).
    eexists _, _. split; [exact Hrun |]. split; [exact Hv |].
    by apply py_clamp_range.
  - destruct (PLC1_logic_pump e w0 _ _ _ _ _ _ Hh Hm Hauto Ht Htm Hf Hfm Hc)
      as (w' & Hrun & Hv).
    eexists _, _. split; [exact Hrun |]. split; [exact Hv |].
    by apply py_clamp_range.
  - destruct (PLC1_logic_coolant_valve e w0 _ _ _ _ Hh Hm Hauto Ht Htm Hc)
      as (w' & Hrun & Hv).
    eexists _, _. split; [exact Hrun |]. split; [exact Hv |].
    by apply py_clamp_range.
  - destruct (PLC1_logic_loop_valve e w0 _ _ _ _ _ _ Hh Hm Hauto Ht Htm Hf Hfm Hc)
      as (w' & Hrun & Hv).
    eexists _, _. split; [exact Hrun |]. split; [exact Hv |].
    by apply py_clamp_range.
  - destruct (PLC1_logic_heater e w0 _ _ _ _ Hh Hm Hauto Hp Hpm Hc)
      as (w' & Hrun & Hv).
    eexists _, _. split; [exact Hrun |]. split; [exact Hv |].
    by apply py_clamp_range.
  - destruct (PLC1_logic_spray e w0 _ _ _ _ Hh Hm Hauto Hp Hpm Hc)
      as (w' & Hrun & Hv).
    eexists _, _. split; [exact Hrun |]. split; [exact Hv |].
    by apply py_clamp_range.
  - destruct (PLC1_logic_pressurizer_valve e w0 _ _ _ _ _ Hh Hm Hauto Hp Hpm
                Hph Hrel) as (w' & Hrun & _ & Hv).
    eexists _, _. split; [exact Hrun |]. split; [exact Hv |].
    by destruct (truthy _).
Qed.

Lemma auto_command_in_range_witness :
  ∃ w' v, PLC1._logic env0 pump_out_of_range = (Ok tt, w')
          ∧ tag_value w' (command_tag pump_speed) = Some v
          ∧ 0 <= v ∧ v <= command_limit pump_speed.
Proof.
  apply (auto_command_in_range env0 pump_out_of_range pump_speed 3).
  - apply healthy_env0.
  - reflexivity.
  - reflexivity.
Defined.



Lemma stepped_clamp c up down x :
  0 <= c → c <= 1 → 0 <= up → 0 <= down →
  c - down <= x → x <= c + up →
  c - down <= py_min (py_max x 0) 1 ∧ py_min (py_max x 0) 1 <= c + up.
Proof.
  intros H0 H1 Hu Hd Hlo Hhi. unfold py_min, py_max.
  destruct (Qgtb 0 x) eqn:E1; [apply Qgtb_gt in E1 | apply Qgtb_le in E1];
    match goal with
    | |- context [Qltb 1 ?y] =>
        destruct (Qltb 1 y) eqn:E2;
        [apply Qltb_lt in E2 | apply Qltb_ge in E2]
    end; split; lra.
Qed.

(** X3. The five stepped commands (pump speed, cooling valve, loop valve,
    heater, spray) move by bounded steps: in automatic mode, from a value
    within 0 to 1, a cycle of a healthy store raises the command by at most
    its step up (0.02; 0.03 for heater and spray) and lowers it by at most
    its step down (0.01; 0.02 for heater and spray). *)
Theorem stepped_command_moves_by_steps e (w0 : world unit) (a : actuator)
    (m0 c0 : Q) :
  healthy e w0 →
  stepped a = true →
  tag_value w0 (mode_tag a) = Some m0 →
  PLC1.is_manual m0 = false →
  tag_value w0 (command_tag a) = Some c0 →
  0 <= c0 → c0 <= 1 →
  ∃ w' c', PLC1._logic e w0 = (Ok tt, w')
           ∧ tag_value w' (command_tag a) = Some c'
           ∧ c0 - step_down a <= c' ∧ c' <= c0 + step_up a.
Proof.
  intros Hh Hst Hm Hauto Hc Hlo Hhi.
  assert (Hval : ∀ n, mem n tag_names = true → ∃ v, tag_value w0 n = Some v)
    by (intros n Hn; by eapply healthy_value).
  destruct (Hval TAG.TAG_CORE_TEMP_OUT_VALUE eq_refl) as [t_out Ht].
  destruct (Hval TAG.TAG_CORE_TEMP_OUT_MAX eq_refl) as [tmax Htm].
  destruct (Hval TAG.TAG_CORE_FLOW_VALUE eq_refl) as [flow Hf].
  destruct (Hval TAG.TAG_CORE_FLOW_MIN eq_refl) as [fmin Hfm].
  destruct (Hval TAG.TAG_CORE_PRESSURE_VALUE eq_refl) as [p_core Hp].
  destruct (Hval TAG.TAG_CORE_PRESSURE_MAX eq_refl) as [pmax Hpm].
  destruct a; try discriminate Hst;
    cbn [mode_tag command_tag step_up step_down] in *.
  - destruct (PLC1_logic_pump e w0 _ _ _ _ _ _ Hh Hm Hauto Ht Htm Hf Hfm Hc)
      as (w' & Hrun & Hv).
    eexists _, _. split; [exact Hrun |]. split; [exact Hv |].
    apply stepped_clamp; try lra;
      (destruct (_ || _); [| destruct (_ && _)]); lra.
  - destruct (PLC1_logic_coolant_valve e w0 _ _ _ _ Hh Hm Hauto Ht Htm Hc)
      as (w' & Hrun & Hv).
    eexists _, _. split; [exact Hrun |]. split; [exact Hv |].
    apply stepped_clamp; try lra;
      (destruct (Qgtb _ _); [| destruct (Qltb _ _)]); lra.
  - destruct (PLC1_logic_loop_valve e w0 _ _ _ _ _ _ Hh Hm Hauto Ht Htm Hf Hfm Hc)
      as (w' & Hrun & Hv).
    eexists _, _. split; [exact Hrun |]. split; [exact Hv |].
    apply stepped_clamp; try lra;
      (destruct (_ || _); [| destruct (_ && _)]); lra.
  - destruct (PLC1_logic_heater e w0 _ _ _ _ Hh Hm Hauto Hp Hpm Hc)
      as (w' & Hrun & Hv).
    eexists _, _. split; [exact Hrun |]. split; [exact Hv |].
    apply stepped_clamp; try lra;
      (destruct (Qltb _ _); [| destruct (Qgtb _ _)]); lra.
  - destruct (PLC1_logic_spray e w0 _ _ _ _ Hh Hm Hauto Hp Hpm Hc)
      as (w' & Hrun & Hv).
    eexists _, _. split; [exact Hrun |]. split; [exact Hv |].
    apply stepped_clamp; try lra;
      (destruct (Qgtb _ _); [| destruct (Qltb _ _)]); lra.
Qed.

Lemma stepped_command_moves_by_steps_witness :
  ∃ w' c', PLC1._logic env0 (plc_world []) = (Ok tt, w')
           ∧ tag_value w' (command_tag pressurizer_heater) = Some c'
           ∧ 0.2 - step_down pressurizer_heater <= c'
           ∧ c' <= 0.2 + step_up pressurizer_heater.
Proof.
  apply (stepped_command_moves_by_steps env0 (plc_world [])
           pressurizer_heater 3 0.2).
  - apply healthy_env0.
  - reflexivity.
  - reflexivity.
  - reflexivity.
  - reflexivity.
  - vm_compute. discriminate.
  - vm_compute. discriminate.
Defined.

Lemma truthy_nonzero v : truthy v = true → ¬ v == 0.
Proof.
  unfold truthy. rewrite negb_true_iff. intros H Hz.
  apply Qeq_bool_iff in Hz. congruence.
Qed.

Lemma truthy_zero v : truthy v = false → v == 0.
Proof. unfold truthy. rewrite negb_false_iff. apply Qeq_bool_iff. Qed.

(** X4. In automatic mode the pressurizer valve command mirrors the relief
    valve: after a cycle of a healthy store the command is 1 when the relief
    status the cycle has just written is non-zero and 0 when it is zero. *)
Theorem pressurizer_valve_mirrors_relief e (w0 : world unit) (m0 : Q) :
  healthy e w0 →
  tag_value w0 TAG.TAG_CORE_PRESSURIZER_VALVE_MODE = Some m0 →
  PLC1.is_manual m0 = false →
  ∃ w' relief pv,
    PLC1._logic e w0 = (Ok tt, w')
    ∧ tag_value w' TAG.TAG_CORE_RELIEF_VALVE_STATUS = Some relief
    ∧ tag_value w' TAG.TAG_CORE_PRESSURIZER_VALVE_CMD = Some pv
    ∧ (¬ relief == 0 → pv = 1) ∧ (relief == 0 → pv = 0).
Proof.
  intros Hh Hm Hauto.
  destruct (healthy_value e w0 TAG.TAG_CORE_PRESSURE_VALUE Hh eq_refl)
    as [p_core Hp].
  destruct (healthy_value e w0 TAG.TAG_CORE_PRESSURE_MAX Hh eq_refl)
    as [pmax Hpm].
  destruct (healthy_value e w0 TAG.TAG_CORE_PRESSURE_HIHI Hh eq_refl)
    as [phihi Hph].
  destruct (healthy_value e w0 TAG.TAG_CORE_RELIEF_VALVE_STATUS Hh eq_refl)
    as [relief0 Hrel].
  destruct (PLC1_logic_pressurizer_valve e w0 _ _ _ _ _ Hh Hm Hauto Hp Hpm
              Hph Hrel) as (w' & Hrun & Hr & Hv).
  eexists _, _, _. split; [exact Hrun |]. split; [exact Hr |].
  split; [exact Hv |].
  destruct (truthy _) eqn:E; split; intros H; try done; exfalso.
  - apply truthy_nonzero in E. tauto.
  - apply truthy_zero in E. tauto.
Qed.

Lemma pressurizer_valve_mirrors_relief_witness :
  ∃ w' relief pv,
    PLC1._logic env0 relief_latched = (Ok tt, w')
    ∧ tag_value w' TAG.TAG_CORE_RELIEF_VALVE_STATUS = Some relief
    ∧ tag_value w' TAG.TAG_CORE_PRESSURIZER_VALVE_CMD = Some pv
    ∧ (¬ relief == 0 → pv = 1) ∧ (relief == 0 → pv = 0).
Proof.
  apply (pressurizer_valve_mirrors_relief env0 relief_latched 3).
  - apply healthy_env0.
  - reflexivity.
  - reflexivity.
Defined.

(** X5. Heater and spray work against each other: with both in automatic
    mode and both commands within 0 to 1, a cycle of a healthy store does not
    lower the heater or raise the spray when the pressure is more than the
    hysteresis below its maximum, does not raise the heater or lower the
    spray when it is more than 0.03 above, and never raises both. *)
Theorem heater_and_spray_oppose e (w0 : world unit)
    (mh ms p_core pmax h s : Q) :
  healthy e w0 →
  tag_value w0 TAG.TAG_CORE_PRESSURIZER_HEATER_MODE = Some mh →
  PLC1.is_manual mh = false →
  tag_value w0 TAG.TAG_CORE_PRESSURIZER_SPRAY_MODE = Some ms →
  PLC1.is_manual ms = false →
  tag_value w0 TAG.TAG_CORE_PRESSURE_VALUE = Some p_core →
  tag_value w0 TAG.TAG_CORE_PRESSURE_MAX = Some pmax →
  tag_value w0 TAG.TAG_CORE_PRESSURIZER_HEATER_CMD = Some h →
  tag_value w0 TAG.TAG_CORE_PRESSURIZER_SPRAY_CMD = Some s →
  0 <= h → h <= 1 → 0 <= s → s <= 1 →
  ∃ w' h' s',
    PLC1._logic e w0 = (Ok tt, w')
    ∧ tag_value w' TAG.TAG_CORE_PRESSURIZER_HEATER_CMD = Some h'
    ∧ tag_value w' TAG.TAG_CORE_PRESSURIZER_SPRAY_CMD = Some s'
    ∧ (p_core < pmax - PLC1.P_HYST → h <= h' ∧ s' <= s)
    ∧ (pmax + 0.03 < p_core → h' <= h ∧ s <= s')
    ∧ ¬ (h < h' ∧ s < s').
Proof.
  intros Hh Hmh Hah Hms Has Hp Hpm Hhv Hsv Hh0 Hh1 Hs0 Hs1.
  destruct (PLC1_logic_heater e w0 _ _ _ _ Hh Hmh Hah Hp Hpm Hhv)
    as (w' & Hrun & Hv).
  destruct (PLC1_logic_spray e w0 _ _ _ _ Hh Hms Has Hp Hpm Hsv)
    as (w'' & Hrun' & Hv').
  assert (w'' = w') as -> by congruence.
  eexists _, _, _. split; [exact Hrun |]. split; [exact Hv |].
  split; [exact Hv' |].
  unfold PLC1.P_HYST, py_min, py_max.
  repeat match goal with
         | |- context [if Qltb ?a ?b then _ else _] =>
             lazymatch b with context [if _ then _ else _] => fail | _ => idtac end;
             let E := fresh "E" in
             destruct (Qltb a b) eqn:E;
             [apply Qltb_lt in E | apply Qltb_ge in E]
         | |- context [if Qgtb ?a ?b then _ else _] =>
             lazymatch b with context [if _ then _ else _] => fail | _ => idtac end;
             let E := fresh "E" in
             destruct (Qgtb a b) eqn:E;
             [apply Qgtb_gt in E | apply Qgtb_le in E]
         end;
    repeat split; intros;
    repeat match goal with H : _ ∧ _ |- _ => destruct H end; lra.
Qed.

Lemma heater_and_spray_oppose_witness :
  ∃ w' h' s',
    PLC1._logic env0 (plc_world []) = (Ok tt, w')
    ∧ tag_value w' TAG.TAG_CORE_PRESSURIZER_HEATER_CMD = Some h'
    ∧ tag_value w' TAG.TAG_CORE_PRESSURIZER_SPRAY_CMD = Some s'
    ∧ (15 < 15.5 - PLC1.P_HYST → 0.2 <= h' ∧ s' <= 0)
    ∧ (15.5 + 0.03 < 15 → h' <= 0.2 ∧ 0 <= s')
    ∧ ¬ (0.2 < h' ∧ 0 < s').
Proof.
  apply (heater_and_spray_oppose env0 (plc_world []) 3 3 15 15.5 0.2 0);
    try reflexivity; try (vm_compute; discriminate).
  apply healthy_env0.
Defined.

(** ** ControlLogic: what a cycle leaves alone *)

(** One statement of a cycle that leaves one tag, known not to be an
    output, alone. *)
Ltac other_tag :=
  unfold mem; cbn [existsb]; rewrite orb_false_r, String.eqb_sym; assumption.

Ltac keeps_leaf_other :=
  cbv beta zeta;
  lazymatch goal with
  | |- keeps _ _ _ (ret _) _ => apply keeps_ret; exact I
  | |- keeps _ _ _ (_set _ _) _ => apply keeps_set; [reflexivity | other_tag]
  | |- keeps _ _ _ (bind (_get _) _) _ =>
      eapply keeps_bind; [apply keeps_get; reflexivity | intros ? _]
  | |- keeps _ _ _ (bind (_set _ _) _) _ =>
      eapply keeps_bind;
      [apply keeps_set; [reflexivity | other_tag] | intros _ _]
  | |- keeps _ _ _ (bind (bind (PLC1._check_manual_input _ _) _) _) _ =>
      eapply keeps_bind with (R := fun _ => True);
      [ eapply keeps_bind;
        [ apply keeps_check_any; reflexivity | intros [|] _; cbn [negb] ]
      | intros _ _ ]
  | |- keeps _ _ _ (if ?c then _ else _) _ => destruct c
  end.

Lemma PLC1_logic_keeps_other e (w0 : world unit) (n : string) :
  mem n plc_outputs = false →
  keeps e [n] w0 PLC1._logic (fun _ => True).
Proof.
  intros Hn. unfold mem, plc_outputs in Hn. cbn [existsb] in Hn.
  repeat (apply orb_false_elim in Hn as [? Hn]). clear Hn.
  unfold PLC1._logic. repeat keeps_leaf_other.
Qed.

(** X6. A controller cycle writes nothing but its nine outputs (the seven
    commands, the relief valve status and the alarm status): every other
    tag, sensor, setpoint, limit or mode, has after the cycle the row it had
    before, and is not in the cycle's write log, whether the cycle completes
    or is cut short by a store failure. *)
Theorem cycle_writes_only_outputs e (w0 : world unit) (n : string) :
  mem n plc_outputs = false →
  let w' := (PLC1._logic e w0).2 in
  rows w' !! n = rows w0 !! n
  ∧ ∀ v, (n, v) ∉ new_writes w' (writes w0).
Proof.
  intros Hn w'.
  pose proof (keeps_run e _ w0 _ _ (PLC1_logic_keeps_other e w0 n Hn)) as H.
  assert (Hmem : mem n [n] = true).
  { unfold mem. cbn [existsb]. by rewrite String.eqb_refl. }
  subst w'. destruct (PLC1._logic e w0) as [[u|x] w']; simpl;
    destruct H as [Hfr _];
    (split; [by apply (frame_rows _ _ _ Hfr) |]);
    intros v Hin; apply (frame_new_writes _ _ _ _ _ Hfr) in Hin; congruence.
Qed.

Lemma cycle_writes_only_outputs_witness :
  let w' := (PLC1._logic env0 hot_tripped).2 in
  rows w' !! TAG.TAG_CORE_TEMP_OUT_MAX = rows hot_tripped !! TAG.TAG_CORE_TEMP_OUT_MAX
  ∧ ∀ v, (TAG.TAG_CORE_TEMP_OUT_MAX, v) ∉ new_writes w' (writes hot_tripped).
Proof.
  apply (cycle_writes_only_outputs env0 hot_tripped TAG.TAG_CORE_TEMP_OUT_MAX).
  reflexivity.
Defined.

(** ** PhysicsEngine: bounds *)

Lemma healthy_tick_reads e (w0 : world FactorySimulation.t) :
  healthy e w0 → ∃ i, tick_reads w0 i.
Proof.
  intros Hh.
  assert (Hval : ∀ n, mem n tag_names = true → ∃ v, tag_value w0 n = Some v)
    by (intros n Hn; by eapply healthy_value).
  destruct (Hval TAG.TAG_CORE_NEUTRON_FLUX_VALUE eq_refl) as [v1 H1].
  destruct (Hval TAG.TAG_CORE_TEMP_IN_VALUE eq_refl) as [v2 H2].
  destruct (Hval TAG.TAG_CORE_TEMP_OUT_VALUE eq_refl) as [v3 H3].
  destruct (Hval TAG.TAG_CORE_PRESSURE_VALUE eq_refl) as [v4 H4].
  destruct (Hval TAG.TAG_CORE_FLOW_VALUE eq_refl) as [v5 H5].
  destruct (Hval TAG.TAG_CORE_RCP_SPEED_CMD eq_refl) as [v6 H6].
  destruct (Hval TAG.TAG_CORE_COOLANT_VALVE_CMD eq_refl) as [v7 H7].
  destruct (Hval TAG.TAG_PRIMARY_LOOP_VALVE_CMD eq_refl) as [v8 H8].
  destruct (Hval TAG.TAG_CORE_CONTROL_ROD_POS_VALUE eq_refl) as [v9 H9].
  destruct (Hval TAG.TAG_CORE_NEUTRON_FLUX_SP eq_refl) as [v10 H10].
  destruct (Hval TAG.TAG_CORE_PRESSURIZER_HEATER_CMD eq_refl) as [v11 H11].
  destruct (Hval TAG.TAG_CORE_PRESSURIZER_SPRAY_CMD eq_refl) as [v12 H12].
  destruct (Hval TAG.TAG_CORE_RELIEF_VALVE_STATUS eq_refl) as [v13 H13].
  exists (TickInputs v1 v2 v3 v4 v5 v6 v7 v8 v9 v10 v11 v12 v13).
  repeat split; assumption.
Qed.

Lemma py_max_floor x : 0 <= py_max 0 x.
Proof. apply py_max_l. Qed.

Lemma py_unit_clamp x : 0 <= py_max 0 (py_min 1 x) ∧ py_max 0 (py_min 1 x) <= 1.
Proof.
  unfold py_max, py_min.
  destruct (Qltb x 1) eqn:E1; [apply Qltb_lt in E1 | apply Qltb_ge in E1];
    match goal with
    | |- context [Qgtb ?y 0] =>
        destruct (Qgtb y 0) eqn:E2;
        [apply Qgtb_gt in E2 | apply Qgtb_le in E2]
    end; split; lra.
Qed.

(** X7. Whatever the store and the device hold and whatever the noise, a
    tick of a healthy store writes a flux, a steam-generator inlet pressure
    and a radiation that are not negative, a flow within 0 to 1.2 and a
    loop-valve position within 0 to 1, and leaves both effective valve
    positions of the device within 0 to 1. *)
Theorem tick_outputs_in_bounds rnd e (w0 : world FactorySimulation.t) :
  healthy e w0 →
  ∃ w' flux flow sg_pin rad pos,
    FactorySimulation._logic rnd e w0 = (Ok tt, w')
    ∧ tag_value w' TAG.TAG_CORE_NEUTRON_FLUX_VALUE = Some flux
    ∧ tag_value w' TAG.TAG_CORE_FLOW_VALUE = Some flow
    ∧ tag_value w' TAG.TAG_SG_IN_PRESSURE_VALUE = Some sg_pin
    ∧ tag_value w' TAG.TAG_PRIMARY_RAD_MON_VALUE = Some rad
    ∧ tag_value w' TAG.TAG_PRIMARY_LOOP_VALVE_POS_VALUE = Some pos
    ∧ 0 <= flux ∧ (0 <= flow ∧ flow <= 1.2) ∧ 0 <= sg_pin ∧ 0 <= rad
    ∧ (0 <= pos ∧ pos <= 1)
    ∧ pos = FactorySimulation._loop_valve_eff (self w')
    ∧ (0 <= FactorySimulation._valve_eff (self w')
       ∧ FactorySimulation._valve_eff (self w') <= 1).
Proof.
  intros Hh. destruct (healthy_tick_reads e w0 Hh) as
    (i & H1 & H2 & H3 & H4 & H5 & H6 & H7 & H8 & H9 & H10 & H11 & H12 & H13).
  destruct Hh as [Hav Hreg].
  destruct w0 as [[cur last ve lve sp] rows0 writes0 acc0].
  unfold FactorySimulation._logic.
  repeat tick_step Hav Hreg.
  eexists _, _, _, _, _, _. split; [reflexivity |].
  do 5 (split; [lookup_tag; reflexivity |]).
  split; [apply py_max_floor |].
  split; [apply py_clamp_range; lra |].
  split; [apply py_max_floor |].
  split; [apply py_max_floor |].
  split; [apply py_unit_clamp |].
  cbn [self].
  repeat match goal with
         | |- context [if ?c then _ else _] =>
             lazymatch c with
             | context [if _ then _ else _] => fail
             | _ => destruct c
             end
         end; tidy; (split; [reflexivity | apply py_unit_clamp]).
Qed.

Lemma tick_outputs_in_bounds_witness :
  ∃ w' flux flow sg_pin rad pos,
    FactorySimulation._logic quiet env0 factory0 = (Ok tt, w')
    ∧ tag_value w' TAG.TAG_CORE_NEUTRON_FLUX_VALUE = Some flux
    ∧ tag_value w' TAG.TAG_CORE_FLOW_VALUE = Some flow
    ∧ tag_value w' TAG.TAG_SG_IN_PRESSURE_VALUE = Some sg_pin
    ∧ tag_value w' TAG.TAG_PRIMARY_RAD_MON_VALUE = Some rad
    ∧ tag_value w' TAG.TAG_PRIMARY_LOOP_VALVE_POS_VALUE = Some pos
    ∧ 0 <= flux ∧ (0 <= flow ∧ flow <= 1.2) ∧ 0 <= sg_pin ∧ 0 <= rad
    ∧ (0 <= pos ∧ pos <= 1)
    ∧ pos = FactorySimulation._loop_valve_eff (self w')
    ∧ (0 <= FactorySimulation._valve_eff (self w')
       ∧ FactorySimulation._valve_eff (self w') <= 1).
Proof.
  apply (tick_outputs_in_bounds quiet env0 factory0).
  apply healthy_env0.
Defined.

(** ** PhysicsEngine: lags *)

Lemma lag_toward a b k :
  0 <= k → k <= 1 →
  (a <= b → a <= a + (b - a) * k ∧ a + (b - a) * k <= b)
  ∧ (b <= a → b <= a + (b - a) * k ∧ a + (b - a) * k <= a).
Proof. intros H0 H1. split; intros Hab; split; nra. Qed.

(** A lagged and clamped position stays between the position and its
    target. *)
Lemma lag_unit_clamp a b k :
  0 <= k → k <= 1 → 0 <= a → a <= 1 →
  let y := py_max 0 (py_min 1 (a + (b - a) * k)) in
  (a <= b → a <= y ∧ y <= b) ∧ (b <= a → b <= y ∧ y <= a).
Proof.
  intros Hk0 Hk1 Ha0 Ha1 y. subst y.
  destruct (lag_toward a b k Hk0 Hk1) as [Hup Hdown].
  set (x := a + (b - a) * k) in *.
  unfold py_max, py_min.
  destruct (Qltb x 1) eqn:E1; [apply Qltb_lt in E1 | apply Qltb_ge in E1];
    match goal with
    | |- context [Qgtb ?y 0] =>
        destruct (Qgtb y 0) eqn:E2;
        [apply Qgtb_gt in E2 | apply Qgtb_le in E2]
    end; split; intros Hab;
    first [specialize (Hup Hab) | specialize (Hdown Hab)]; split; lra.
Qed.

Lemma lag_flow_clamp a b k :
  0 <= k → k <= 1 → 0 <= a → a <= 1.2 →
  let y := py_min (py_max (a + (b - a) * k) 0) 1.2 in
  (a <= b → a <= y ∧ y <= b) ∧ (b <= a → b <= y ∧ y <= a).
Proof.
  intros Hk0 Hk1 Ha0 Ha1 y. subst y.
  destruct (lag_toward a b k Hk0 Hk1) as [Hup Hdown].
  set (x := a + (b - a) * k) in *.
  unfold py_max, py_min.
  destruct (Qgtb 0 x) eqn:E1; [apply Qgtb_gt in E1 | apply Qgtb_le in E1];
    match goal with
    | |- context [Qltb 1.2 ?y] =>
        destruct (Qltb 1.2 y) eqn:E2;
        [apply Qltb_lt in E2 | apply Qltb_ge in E2]
    end; split; intros Hab;
    first [specialize (Hup Hab) | specialize (Hdown Hab)]; split; lra.
Qed.

(** X8. The actuator lags do not overshoot when the tick is short: if the
    elapsed time satisfies VALVE_INERTIA * dt <= 1 (dt at most 333 ms) and the two effective valve positions and the flow start within
    their ranges, then after a tick of a healthy store each effective valve
    position lies between its old value and its command, the flow lies
    between its old value and the pump command, and the inlet temperature
    lies between its old value and the ambient temperature. *)
Theorem lags_do_not_overshoot rnd e (w0 : world FactorySimulation.t)
    (i : tick_inputs) :
  healthy e w0 → tick_reads w0 i →
  PHYSICS.VALVE_INERTIA * FactorySimulation.loop_dt (self w0) <= 1 →
  0 <= FactorySimulation._valve_eff (self w0) →
  FactorySimulation._valve_eff (self w0) <= 1 →
  0 <= FactorySimulation._loop_valve_eff (self w0) →
  FactorySimulation._loop_valve_eff (self w0) <= 1 →
  0 <= i_flow i → i_flow i <= 1.2 →
  ∃ w' flow' temp_in',
    FactorySimulation._logic rnd e w0 = (Ok tt, w')
    ∧ tag_value w' TAG.TAG_CORE_FLOW_VALUE = Some flow'
    ∧ tag_value w' TAG.TAG_CORE_TEMP_IN_VALUE = Some temp_in'
    ∧ between (FactorySimulation._valve_eff (self w0)) (i_cool_valve i)
        (FactorySimulation._valve_eff (self w'))
    ∧ between (FactorySimulation._loop_valve_eff (self w0)) (i_loop_valve i)
        (FactorySimulation._loop_valve_eff (self w'))
    ∧ between (i_flow i) (i_rcp_cmd i) flow'
    ∧ between (i_temp_in i) PHYSICS.AMBIENT_TEMP temp_in'.
Proof.
  intros [Hav Hreg]
    (H1 & H2 & H3 & H4 & H5 & H6 & H7 & H8 & H9 & H10 & H11 & H12 & H13)
    Hdt Hv0 Hv1 Hl0 Hl1 Hf0 Hf1.
  pose proof (loop_dt_pos (self w0)) as Hpos.
  destruct w0 as [[cur last ve lve sp] rows0 writes0 acc0].
  cbn [self FactorySimulation._valve_eff FactorySimulation._loop_valve_eff]
    in *.
  set (dt := FactorySimulation.loop_dt _) in *.
  unfold FactorySimulation._logic.
  repeat tick_step Hav Hreg.
  eexists _, _, _. split; [reflexivity |].
  do 2 (split; [lookup_tag; reflexivity |]).
  assert (Hk0 : 0 <= PHYSICS.VALVE_INERTIA * dt)
    by (unfold PHYSICS.VALVE_INERTIA in *; lra).
  assert (Hselfs :
    between ve (i_cool_valve i)
      (py_max 0 (py_min 1 (ve + (i_cool_valve i - ve)
                                * (PHYSICS.VALVE_INERTIA * dt))))
    ∧ between lve (i_loop_valve i)
        (py_max 0 (py_min 1 (lve + (i_loop_valve i - lve)
                                   * (PHYSICS.VALVE_INERTIA * dt))))).
  { split; by apply lag_unit_clamp. }
  destruct Hselfs as [Hve Hlve].
  split; [| split; [| split]].
  - cbn [self].
    repeat match goal with
           | |- context [if ?c then _ else _] =>
               lazymatch c with
               | context [if _ then _ else _] => fail
               | _ => destruct c
               end
           end; tidy; exact Hve.
  - cbn [self].
    repeat match goal with
           | |- context [if ?c then _ else _] =>
               lazymatch c with
               | context [if _ then _ else _] => fail
               | _ => destruct c
               end
           end; tidy; exact Hlve.
  - apply lag_flow_clamp; try assumption;
      unfold PHYSICS.FLOW_INERTIA, PHYSICS.VALVE_INERTIA in *; lra.
  - subst dt. set (dt := FactorySimulation.loop_dt _) in *.
    assert (Hk : 0 <= 0.001 * dt ∧ 0.001 * dt <= 1)
      by (unfold PHYSICS.VALVE_INERTIA in *; lra).
    destruct Hk as [Hk Hk'].
    destruct (lag_toward (i_temp_in i) PHYSICS.AMBIENT_TEMP (0.001 * dt)
                Hk Hk') as [Hup Hdown].
    split; intros Hab; [specialize (Hup Hab) | specialize (Hdown Hab)];
      split; lra.
Qed.

Lemma lags_do_not_overshoot_witness :
  ∃ w' flow' temp_in',
    FactorySimulation._logic quiet env0 factory0 = (Ok tt, w')
    ∧ tag_value w' TAG.TAG_CORE_FLOW_VALUE = Some flow'
    ∧ tag_value w' TAG.TAG_CORE_TEMP_IN_VALUE = Some temp_in'
    ∧ between (FactorySimulation._valve_eff (self factory0))
        (i_cool_valve inputs0) (FactorySimulation._valve_eff (self w'))
    ∧ between (FactorySimulation._loop_valve_eff (self factory0))
        (i_loop_valve inputs0) (FactorySimulation._loop_valve_eff (self w'))
    ∧ between (i_flow inputs0) (i_rcp_cmd inputs0) flow'
    ∧ between (i_temp_in inputs0) PHYSICS.AMBIENT_TEMP temp_in'.
Proof.
  apply (lags_do_not_overshoot quiet env0 factory0 inputs0);
    try (vm_compute; discriminate).
  - apply healthy_env0.
  - apply factory0_reads.
Defined.

(** ** PhysicsEngine: the radiation spike *)

(** X9. A spike in progress runs until its expiry time whatever the spike
    draw of the tick is: while the clock is before the expiry the spike
    state is unchanged and the tick reports the spike level plus noise,
    floored at 0; at or after the expiry the spike is cleared, its expiry
    and level are kept, and the tick reports the baseline plus noise. *)
Theorem spike_runs_until_expiry rnd e (w0 : world FactorySimulation.t) :
  healthy e w0 →
  FactorySimulation.active (FactorySimulation._rad_spike (self w0)) = true →
  let sp := FactorySimulation._rad_spike (self w0) in
  ∃ w' rad,
    FactorySimulation._logic rnd e w0 = (Ok tt, w')
    ∧ tag_value w' TAG.TAG_PRIMARY_RAD_MON_VALUE = Some rad
    ∧ (FactorySimulation.now rnd < FactorySimulation.until sp →
       FactorySimulation._rad_spike (self w') = sp
       ∧ rad = reported_radiation rnd (FactorySimulation.level sp))
    ∧ (FactorySimulation.until sp <= FactorySimulation.now rnd →
       FactorySimulation._rad_spike (self w')
       = FactorySimulation.RadSpike false (FactorySimulation.until sp)
           (FactorySimulation.level sp)
       ∧ rad = reported_radiation rnd PHYSICS.RAD_BASELINE).
Proof.
  intros Hh Hact sp. destruct (healthy_tick_reads e w0 Hh) as
    (i & H1 & H2 & H3 & H4 & H5 & H6 & H7 & H8 & H9 & H10 & H11 & H12 & H13).
  destruct Hh as [Hav Hreg].
  destruct w0 as [[cur last ve lve [act unt lvl]] rows0 writes0 acc0].
  cbn in Hact. subst act sp. cbn [self FactorySimulation._rad_spike
    FactorySimulation.until FactorySimulation.level].
  unfold FactorySimulation._logic.
  repeat tick_step Hav Hreg.
  eexists _, _. split; [reflexivity |].
  split; [lookup_tag; reflexivity |].
  cbn [self FactorySimulation._rad_spike FactorySimulation.active
       FactorySimulation.until FactorySimulation.level
       FactorySimulation.set_valve_eff FactorySimulation.set_loop_valve_eff
       FactorySimulation.set_rad_spike negb andb].
  destruct (Qle_bool unt (FactorySimulation.now rnd)) eqn:E;
    cbn [self FactorySimulation._rad_spike FactorySimulation.active
         FactorySimulation.until FactorySimulation.level
         FactorySimulation.set_valve_eff FactorySimulation.set_loop_valve_eff
         FactorySimulation.set_rad_spike negb andb];
    (split; intros Hn;
     [ try (apply Qle_bool_iff in E; lra)
     | try (apply Qle_bool_iff in Hn; congruence) ]);
    split; reflexivity.
Qed.

Lemma spike_runs_until_expiry_witness :
  let sp := FactorySimulation._rad_spike (self factory_in_spike) in
  ∃ w' rad,
    FactorySimulation._logic before_expiry env0 factory_in_spike = (Ok tt, w')
    ∧ tag_value w' TAG.TAG_PRIMARY_RAD_MON_VALUE = Some rad
    ∧ (FactorySimulation.now before_expiry < FactorySimulation.until sp →
       FactorySimulation._rad_spike (self w') = sp
       ∧ rad = reported_radiation before_expiry (FactorySimulation.level sp))
    ∧ (FactorySimulation.until sp <= FactorySimulation.now before_expiry →
       FactorySimulation._rad_spike (self w')
       = FactorySimulation.RadSpike false (FactorySimulation.until sp)
           (FactorySimulation.level sp)
       ∧ rad = reported_radiation before_expiry PHYSICS.RAD_BASELINE).
Proof.
  apply (spike_runs_until_expiry before_expiry env0 factory_in_spike).
  - apply healthy_env0.
  - reflexivity.
Defined.

(** X10. With no spike in progress the spike draw decides: a draw at or above
    RAD_SPIKE_PROB leaves the spike state unchanged and the tick reports the
    baseline plus noise; a draw below it, with the two uniform samples in
    0 to 1, starts a spike that expires 3 to 12 seconds after the clock and
    has a level within twice the baseline and RAD_SPIKE_MAX, and the same
    tick already reports that level plus noise. *)
Theorem spike_starts_on_draw rnd e (w0 : world FactorySimulation.t) :
  healthy e w0 →
  FactorySimulation.active (FactorySimulation._rad_spike (self w0)) = false →
  let sp := FactorySimulation._rad_spike (self w0) in
  let now := FactorySimulation.now rnd in
  ∃ w' rad,
    FactorySimulation._logic rnd e w0 = (Ok tt, w')
    ∧ tag_value w' TAG.TAG_PRIMARY_RAD_MON_VALUE = Some rad
    ∧ (PHYSICS.RAD_SPIKE_PROB <= FactorySimulation.u_spike rnd →
       FactorySimulation._rad_spike (self w') = sp
       ∧ rad = reported_radiation rnd PHYSICS.RAD_BASELINE)
    ∧ (FactorySimulation.u_spike rnd < PHYSICS.RAD_SPIKE_PROB →
       0 <= FactorySimulation.u_sec rnd → FactorySimulation.u_sec rnd <= 1 →
       0 <= FactorySimulation.u_level rnd →
       FactorySimulation.u_level rnd <= 1 →
       let sp' := FactorySimulation._rad_spike (self w') in
       FactorySimulation.active sp' = true
       ∧ now + 3 <= FactorySimulation.until sp'
       ∧ FactorySimulation.until sp' <= now + 12
       ∧ 2 * PHYSICS.RAD_BASELINE <= FactorySimulation.level sp'
       ∧ FactorySimulation.level sp' <= PHYSICS.RAD_SPIKE_MAX
       ∧ rad = reported_radiation rnd (FactorySimulation.level sp')).
Proof.
  intros Hh Hact sp now. destruct (healthy_tick_reads e w0 Hh) as
    (i & H1 & H2 & H3 & H4 & H5 & H6 & H7 & H8 & H9 & H10 & H11 & H12 & H13).
  destruct Hh as [Hav Hreg].
  destruct w0 as [[cur last ve lve [act unt lvl]] rows0 writes0 acc0].
  cbn in Hact. subst act sp now. cbn [self FactorySimulation._rad_spike
    FactorySimulation.until FactorySimulation.level].
  unfold FactorySimulation._logic.
  repeat tick_step Hav Hreg.
  eexists _, _. split; [reflexivity |].
  split; [lookup_tag; reflexivity |].
  cbn [self FactorySimulation._rad_spike FactorySimulation.active
       FactorySimulation.until FactorySimulation.level
       FactorySimulation.set_valve_eff FactorySimulation.set_loop_valve_eff
       FactorySimulation.set_rad_spike negb andb].
  destruct (Qltb (FactorySimulation.u_spike rnd) PHYSICS.RAD_SPIKE_PROB)
    eqn:E; [apply Qltb_lt in E | apply Qltb_ge in E];
    cbn [self FactorySimulation._rad_spike FactorySimulation.active
         FactorySimulation.until FactorySimulation.level
         FactorySimulation.set_valve_eff FactorySimulation.set_loop_valve_eff
         FactorySimulation.set_rad_spike negb andb].
  - split; [intros Hn; lra |].
    intros _ Hs0 Hs1 Hl0 Hl1.
    assert (Hlive : Qle_bool
              (FactorySimulation.now rnd
               + FactorySimulation.uniform (fst PHYSICS.RAD_SPIKE_SEC)
                   (snd PHYSICS.RAD_SPIKE_SEC) (FactorySimulation.u_sec rnd))
              (FactorySimulation.now rnd) = false).
    { destruct (Qle_bool _ _) eqn:E'; [| reflexivity].
      apply Qle_bool_iff in E'.
      unfold FactorySimulation.uniform, PHYSICS.RAD_SPIKE_SEC in E'.
      cbn [fst snd] in E'. lra. }
    rewrite Hlive.
    cbn [self FactorySimulation._rad_spike FactorySimulation.active
         FactorySimulation.until FactorySimulation.level
         FactorySimulation.set_valve_eff FactorySimulation.set_loop_valve_eff
         FactorySimulation.set_rad_spike negb andb].
    unfold FactorySimulation.uniform, PHYSICS.RAD_SPIKE_SEC,
      PHYSICS.RAD_BASELINE, PHYSICS.RAD_SPIKE_MAX.
    cbn [fst snd].
    repeat split; try reflexivity; lra.
  - split; [| intros Hn; lra].
    intros _. split; reflexivity.
Qed.

Lemma spike_starts_on_draw_witness :
  let sp := FactorySimulation._rad_spike (self factory0) in
  let now := FactorySimulation.now spiking in
  ∃ w' rad,
    FactorySimulation._logic spiking env0 factory0 = (Ok tt, w')
    ∧ tag_value w' TAG.TAG_PRIMARY_RAD_MON_VALUE = Some rad
    ∧ (PHYSICS.RAD_SPIKE_PROB <= FactorySimulation.u_spike spiking →
       FactorySimulation._rad_spike (self w') = sp
       ∧ rad = reported_radiation spiking PHYSICS.RAD_BASELINE)
    ∧ (FactorySimulation.u_spike spiking < PHYSICS.RAD_SPIKE_PROB →
       0 <= FactorySimulation.u_sec spiking →
       FactorySimulation.u_sec spiking <= 1 →
       0 <= FactorySimulation.u_level spiking →
       FactorySimulation.u_level spiking <= 1 →
       let sp' := FactorySimulation._rad_spike (self w') in
       FactorySimulation.active sp' = true
       ∧ now + 3 <= FactorySimulation.until sp'
       ∧ FactorySimulation.until sp' <= now + 12
       ∧ 2 * PHYSICS.RAD_BASELINE <= FactorySimulation.level sp'
       ∧ FactorySimulation.level sp' <= PHYSICS.RAD_SPIKE_MAX
       ∧ rad = reported_radiation spiking (FactorySimulation.level sp')).
Proof.
  apply (spike_starts_on_draw spiking env0 factory0).
  - apply healthy_env0.
  - reflexivity.
Defined.

(** ** PhysicsEngine: the thermal balance *)

(** X11. A tick of a healthy store writes the outlet temperature
    previous + heat gain - cooling loss + noise, where the heat gain is
    HEAT_GAIN_K * new flux * dt and is never negative, and the cooling loss
    is COOLING_K * flow * both effective valve positions * the excess of the
    previous outlet temperature over ambient * dt, with the flow taken
    after its lag and before its clamp.  At or below the ambient
    temperature nothing is removed; and when that flow is not negative the
    cooling loss is not negative either. *)
Theorem thermal_balance rnd e (w0 : world FactorySimulation.t)
    (i : tick_inputs) :
  healthy e w0 → tick_reads w0 i →
  let dt := FactorySimulation.loop_dt (self w0) in
  let noise := FactorySimulation.gauss 0 0.02 (FactorySimulation.z_temp rnd) in
  let flow := i_flow i + (i_rcp_cmd i - i_flow i) * (PHYSICS.FLOW_INERTIA * dt) in
  ∃ w' flux' temp_out',
    FactorySimulation._logic rnd e w0 = (Ok tt, w')
    ∧ tag_value w' TAG.TAG_CORE_NEUTRON_FLUX_VALUE = Some flux'
    ∧ tag_value w' TAG.TAG_CORE_TEMP_OUT_VALUE = Some temp_out'
    ∧ let heat_gain := PHYSICS.HEAT_GAIN_K * flux' * dt in
      let cool_loss :=
        PHYSICS.COOLING_K
        * (flow * (FactorySimulation._valve_eff (self w')
                   * FactorySimulation._loop_valve_eff (self w')))
        * py_max 0 (i_temp_out i - PHYSICS.AMBIENT_TEMP) * dt in
      temp_out' == i_temp_out i + heat_gain - cool_loss + noise
      ∧ 0 <= heat_gain
      ∧ (i_temp_out i <= PHYSICS.AMBIENT_TEMP → cool_loss == 0)
      ∧ (0 <= flow → 0 <= cool_loss).
Proof.
  intros [Hav Hreg]
    (H1 & H2 & H3 & H4 & H5 & H6 & H7 & H8 & H9 & H10 & H11 & H12 & H13)
    dt noise flow.
  pose proof (loop_dt_pos (self w0)) as Hpos. fold dt in Hpos.
  destruct w0 as [[cur last ve lve sp] rows0 writes0 acc0].
  cbn [self] in *.
  unfold FactorySimulation._logic.
  repeat tick_step Hav Hreg.
  eexists _, _, _. split; [reflexivity |].
  do 2 (split; [lookup_tag; reflexivity |]).
  cbv zeta.
  match goal with
  | |- context [PHYSICS.HEAT_GAIN_K * ?f * _] =>
      assert (Hflux : 0 <= f) by apply py_max_floor;
      generalize dependent f; intros flux' Hflux
  end.
  assert (Hexcess : 0 <= py_max 0 (i_temp_out i - PHYSICS.AMBIENT_TEMP))
    by apply py_max_floor.
  assert (Hcold : i_temp_out i <= PHYSICS.AMBIENT_TEMP →
                  py_max 0 (i_temp_out i - PHYSICS.AMBIENT_TEMP) = 0).
  { intros Hle. unfold py_max.
    destruct (Qgtb _ 0) eqn:E; [apply Qgtb_gt in E; lra | reflexivity]. }
  set (excess := py_max 0 (i_temp_out i - PHYSICS.AMBIENT_TEMP)) in *.
  destruct (py_unit_clamp (ve + (i_cool_valve i - ve)
                                * (PHYSICS.VALVE_INERTIA * dt))) as [Hv0 Hv1].
  destruct (py_unit_clamp (lve + (i_loop_valve i - lve)
                                 * (PHYSICS.VALVE_INERTIA * dt))) as [Hl0 Hl1].
  cbn [self].
  repeat match goal with
         | |- context [if ?c then _ else _] =>
             lazymatch c with
             | context [if _ then _ else _] => fail
             | _ => destruct c
             end
         end; tidy; fold dt; fold flow;
    set (ve' := py_max 0 (py_min 1 (ve + _))) in *;
    set (lve' := py_max 0 (py_min 1 (lve + _))) in *;
    subst noise; clearbody flow dt ve' lve' excess;
    (split; [reflexivity |]);
    (split; [unfold PHYSICS.HEAT_GAIN_K; nra |]);
    (split; [intros Hle; rewrite (Hcold Hle); ring |]);
    intros Hflow; unfold PHYSICS.COOLING_K;
    repeat apply Qmult_le_0_compat; lra.
Qed.

Lemma thermal_balance_witness :
  let dt := FactorySimulation.loop_dt (self factory0) in
  let noise := FactorySimulation.gauss 0 0.02 (FactorySimulation.z_temp quiet) in
  let flow := i_flow inputs0
              + (i_rcp_cmd inputs0 - i_flow inputs0)
                * (PHYSICS.FLOW_INERTIA * dt) in
  ∃ w' flux' temp_out',
    FactorySimulation._logic quiet env0 factory0 = (Ok tt, w')
    ∧ tag_value w' TAG.TAG_CORE_NEUTRON_FLUX_VALUE = Some flux'
    ∧ tag_value w' TAG.TAG_CORE_TEMP_OUT_VALUE = Some temp_out'
    ∧ let heat_gain := PHYSICS.HEAT_GAIN_K * flux' * dt in
      let cool_loss :=
        PHYSICS.COOLING_K
        * (flow * (FactorySimulation._valve_eff (self w')
                   * FactorySimulation._loop_valve_eff (self w')))
        * py_max 0 (i_temp_out inputs0 - PHYSICS.AMBIENT_TEMP) * dt in
      temp_out' == i_temp_out inputs0 + heat_gain - cool_loss + noise
      ∧ 0 <= heat_gain
      ∧ (i_temp_out inputs0 <= PHYSICS.AMBIENT_TEMP → cool_loss == 0)
      ∧ (0 <= flow → 0 <= cool_loss).
Proof.
  apply (thermal_balance quiet env0 factory0 inputs0).
  - apply healthy_env0.
  - apply factory0_reads.
Defined.

(** ** AttackDispatcher: resolving a device name *)

(** X12. [find_device_address] resolves a name without regard to case: for
    one of the four known devices it returns the value of the device's
    environment variable when that is set and not empty, and the legacy
    address otherwise, so the address is never empty; any other name raises
    the error that names the target as it was given. *)
Theorem find_device_address_resolves (unicode_lower : string → string)
    (getenv : string → option string)
    (name : string) :
  match AttackerRemote.find_device_address unicode_lower getenv (AttackerRemote.JStr name)
  with
  | inr addr =>
      addr ≠ ""%string
      ∧ ∃ var legacy,
          (AttackerRemote.lower unicode_lower name, var, legacy) ∈ device_table
          ∧ (getenv var = Some addr
             ∨ ((getenv var = None ∨ getenv var = Some ""%string)
                ∧ addr = legacy))
  | inl err =>
      err = AttackerRemote.TargetNotRecognized name
      ∧ ∀ var legacy,
          (AttackerRemote.lower unicode_lower name, var, legacy) ∉ device_table
  end.
Proof.
  unfold AttackerRemote.find_device_address, AttackerRemote.env_host,
    device_table.
  set (key := AttackerRemote.lower unicode_lower name).
  assert (Hin : ∀ k var legacy, key = k →
            (k, var, legacy) ∈ device_table →
            (key, var, legacy) ∈ device_table) by (by intros ? ? ? ->).
  destruct (String.eqb key "plc1") eqn:E1;
    [apply String.eqb_eq in E1 |
     destruct (String.eqb key "plc2") eqn:E2;
       [apply String.eqb_eq in E2 |
        destruct (String.eqb key "hmi1") eqn:E3;
          [apply String.eqb_eq in E3 |
           destruct (String.eqb key "hmi2") eqn:E4;
             [apply String.eqb_eq in E4 |]]]].
  5: { cbn. split; [reflexivity |]. intros var legacy Hmem.
       apply String.eqb_neq in E1, E2, E3, E4.
       apply list_elem_of_In in Hmem. simpl in Hmem.
       intuition congruence. }
  all: match goal with
       | |- context [match ?x with _ => _ end] =>
           lazymatch type of x with option string => idtac end;
           let v := lazymatch x with ?g ?v => v end in
           destruct x as [[| c r] |] eqn:Hv; cbn;
           (split; [discriminate |]);
           eexists v, _;
           (split; [eapply Hin; [eassumption |];
                    apply list_elem_of_In; simpl; tauto |]);
           first [ left; exact Hv
                 | right; split; [tauto | reflexivity] ]
       end.
Qed.

(** ** AttackDispatcher: the link targets *)



(** ** AttackDispatcher: each command at most once *)

Lemma accepted_sublist unicode_lower getenv primitive_raises evs :
  ∀ c, AttackerRemote.accepted unicode_lower getenv primitive_raises c evs
       `sublist_of` arrivals evs.
Proof.
  induction evs as [| ev evs IH]; intros c;
    cbn [AttackerRemote.accepted arrivals flat_map].
  - constructor.
  - apply sublist_app; [| apply IH].
    destruct ev, (AttackerRemote.rpc c); try apply sublist_nil_l.
    destruct (AttackerRemote.executing c);
      [apply sublist_nil_l | reflexivity].
Qed.

(** X14. In every interleaving of the two threads, the commands whose
    processing has finished are, oldest first, a subsequence of the
    commands delivered: they finish in the order they arrived, and when no
    delivery is repeated no command is processed twice. *)
Theorem commands_finish_once_in_order (unicode_lower : string → string)
    (getenv : string → option string)
    (primitive_raises : AttackerRemote.attack_call → bool)
    (evs : list AttackerRemote.event) :
  let c := AttackerRemote.run unicode_lower getenv primitive_raises AttackerRemote.initial
             evs in
  rev (AttackerRemote.completed c) `sublist_of` arrivals evs
  ∧ (NoDup (arrivals evs) → NoDup (AttackerRemote.completed c)).
Proof.
  intros c.
  destruct (run_backlog unicode_lower getenv primitive_raises evs AttackerRemote.initial
              (initial_consistent unicode_lower getenv)) as [_ Hb].
  fold c in Hb. cbn [backlog AttackerRemote.initial app] in Hb.
  assert (Hsub : rev (AttackerRemote.completed c) `sublist_of` arrivals evs).
  { etrans; [| apply (accepted_sublist unicode_lower getenv primitive_raises)].
    unfold backlog in Hb. cbn in Hb. rewrite <- Hb.
    apply sublist_inserts_r. reflexivity. }
  split; [exact Hsub |].
  intros Hnd. rewrite (Permutation_rev (AttackerRemote.completed c)).
  by eapply sublist_NoDup.
Qed.

Lemma commands_finish_once_in_order_witness :
  let c := AttackerRemote.run no_unicode no_env never_raises AttackerRemote.initial
             overlapping_run in
  rev (AttackerRemote.completed c) `sublist_of` arrivals overlapping_run
  ∧ (NoDup (arrivals overlapping_run) → NoDup (AttackerRemote.completed c)).
Proof.
  apply (commands_finish_once_in_order no_unicode no_env never_raises overlapping_run).
Defined.

(** ** AttackDispatcher: enabling *)

Lemma has_required_keys_spec params :
  AttackerLoop.has_required_keys params = true
  ↔ ∀ key, key ∈ AttackerLoop.required_keys → is_Some (params !! key).
Proof.
  unfold AttackerLoop.has_required_keys. rewrite forallb_forall. split.
  - intros H key Hin. apply list_elem_of_In in Hin. specialize (H key Hin).
    destruct (params !! key); [by eexists | discriminate].
  - intros H key Hin. apply list_elem_of_In in Hin.
    destruct (H key Hin) as [v ->]. reflexivity.
Qed.

Lemma has_placeholder_spec params :
  AttackerLoop.has_placeholder params = false
  ↔ ∀ key v, params !! key = Some (AttackerLoop.PStr v) →
      AttackerLoop.startswith v "<" = false
      ∧ AttackerLoop.endswith v ">" = false.
Proof.
  unfold AttackerLoop.has_placeholder. split.
  - intros H key v Hv. apply orb_false_elim.
    destruct (AttackerLoop.startswith v "<" || AttackerLoop.endswith v ">")
      eqn:E; [| reflexivity].
    exfalso. apply not_true_iff_false in H. apply H.
    apply existsb_exists. exists (key, AttackerLoop.PStr v).
    split; [| exact E].
    apply list_elem_of_In. by apply elem_of_map_to_list.
  - intros H. apply not_true_iff_false. intros He.
    apply existsb_exists in He as ([key value] & Hin & Hp).
    apply list_elem_of_In, elem_of_map_to_list in Hin.
    destruct value as [v |]; [| discriminate].
    destruct (H key v Hin) as [H1 H2]. cbn in Hp. by rewrite H1, H2 in Hp.
Qed.

(** X15. A call of [__try_enable] on a disabled dispatcher enables it
    exactly when the first candidate file that exists parses and its
    parameters pass both validations: all four required keys are present
    and no string value starts with a less-than sign or ends with a
    greater-than sign.  The file chosen is remembered as the connection
    file, a configured path that exists has precedence over the defaults,
    and a client thread is started unless one exists and is alive. *)
Theorem enabling_needs_valid_file getcwd (x : surroundings)
    (s : AttackerLoop.t) :
  AttackerRemote.enabled (AttackerLoop.base s) = false →
  let s' := try_enable_in getcwd s x in
  (AttackerRemote.enabled (AttackerLoop.base s') = true
   ↔ ∃ path params,
       AttackerLoop.found (path_exists x)
         (AttackerLoop.candidate_names getcwd s) = Some path
       ∧ read_mqtt_params x path = Some params
       ∧ valid_params params)
  ∧ (∀ path, AttackerLoop.found (path_exists x)
               (AttackerLoop.candidate_names getcwd s) = Some path →
       AttackerLoop.remote_connection_file s' = path
       ∧ path ≠ ""%string ∧ path_exists x path = true
       ∧ path ∈ AttackerLoop.candidate_names getcwd s)
  ∧ (AttackerLoop.remote_connection_file s ≠ ""%string →
     path_exists x (AttackerLoop.remote_connection_file s) = true →
     AttackerLoop.remote_connection_file s'
     = AttackerLoop.remote_connection_file s)
  ∧ (AttackerLoop.threads_started s'
     = if AttackerRemote.enabled (AttackerLoop.base s')
          && (negb (AttackerLoop.mqtt_thread s) || negb (is_alive x))
       then S (AttackerLoop.threads_started s)
       else AttackerLoop.threads_started s).
Proof.
  intros Hoff s'. subst s'. unfold try_enable_in, AttackerLoop.__try_enable.
  destruct x as [ex rd al]. cbn [path_exists read_mqtt_params is_alive].
  destruct (AttackerLoop.found ex (AttackerLoop.candidate_names getcwd s))
    as [path |] eqn:Hf.
  2: { cbn. rewrite Hoff. split; [| split; [| split]]; try done.
       split; [done |]. intros (? & ? & ? & _). discriminate. }
  assert (Hpath : path ≠ ""%string ∧ ex path = true
                  ∧ path ∈ AttackerLoop.candidate_names getcwd s).
  { apply find_some in Hf as [Hin Hok].
    apply andb_prop in Hok as [Hne Hex].
    apply negb_true_iff, String.eqb_neq in Hne.
    split; [exact Hne |]. split; [exact Hex |]. by apply list_elem_of_In. }
  assert (Hfirst : AttackerLoop.remote_connection_file s ≠ ""%string →
                   ex (AttackerLoop.remote_connection_file s) = true →
                   path = AttackerLoop.remote_connection_file s).
  { intros Hne Hex.
    unfold AttackerLoop.found, AttackerLoop.candidate_names in Hf.
    apply String.eqb_neq in Hne. rewrite Hne in Hf. cbn in Hf.
    rewrite Hne, Hex in Hf. cbn in Hf. congruence. }
  assert (Hchosen : ∀ p, Some path = Some p →
            path = p ∧ p ≠ ""%string ∧ ex p = true
            ∧ p ∈ AttackerLoop.candidate_names getcwd s)
    by (by intros ? [= <-]).
  cbn [AttackerLoop.set_file AttackerLoop.remote_connection_file].
  destruct (rd path) as [params |] eqn:Hr.
  2: { cbn. rewrite Hoff. split; [| split; [| split]]; try done.
       split; [done |]. intros (? & ? & [= <-] & ? & _). congruence. }
  destruct (AttackerLoop.has_required_keys params) eqn:Hk; cbn [negb].
  2: { cbn. rewrite Hoff. split; [| split; [| split]]; try done.
       split; [done |]. intros (? & ps & [= <-] & Hr' & Hkeys & _).
       assert (ps = params) as -> by congruence.
       apply has_required_keys_spec in Hkeys. congruence. }
  destruct (AttackerLoop.has_placeholder params) eqn:Hp.
  { cbn. rewrite Hoff. split; [| split; [| split]]; try done.
    split; [done |]. intros (? & ps & [= <-] & Hr' & _ & Hvals).
    assert (ps = params) as -> by congruence.
    apply has_placeholder_spec in Hvals. congruence. }
  destruct s as [b file [|] started rs], al; cbn in *;
    (split; [| split; [| split]]; try done;
     split; [| done]; intros _; exists path, params;
     split; [done |]; split; [done |];
     split; [by apply has_required_keys_spec
            | by apply has_placeholder_spec]).
Qed.

Lemma enabling_needs_valid_file_witness :
  let s' := try_enable_in "/app" fresh_dispatcher default_file_only in
  (AttackerRemote.enabled (AttackerLoop.base s') = true
   ↔ ∃ path params,
       AttackerLoop.found (path_exists default_file_only)
         (AttackerLoop.candidate_names "/app" fresh_dispatcher) = Some path
       ∧ read_mqtt_params default_file_only path = Some params
       ∧ valid_params params)
  ∧ (∀ path, AttackerLoop.found (path_exists default_file_only)
               (AttackerLoop.candidate_names "/app" fresh_dispatcher)
             = Some path →
       AttackerLoop.remote_connection_file s' = path
       ∧ path ≠ ""%string ∧ path_exists default_file_only path = true
       ∧ path ∈ AttackerLoop.candidate_names "/app" fresh_dispatcher)
  ∧ (AttackerLoop.remote_connection_file fresh_dispatcher ≠ ""%string →
     path_exists default_file_only
       (AttackerLoop.remote_connection_file fresh_dispatcher) = true →
     AttackerLoop.remote_connection_file s'
     = AttackerLoop.remote_connection_file fresh_dispatcher)
  ∧ (AttackerLoop.threads_started s'
     = if AttackerRemote.enabled (AttackerLoop.base s')
          && (negb (AttackerLoop.mqtt_thread fresh_dispatcher)
              || negb (is_alive default_file_only))
       then S (AttackerLoop.threads_started fresh_dispatcher)
       else AttackerLoop.threads_started fresh_dispatcher).
Proof.
  apply (enabling_needs_valid_file "/app" default_file_only fresh_dispatcher).
  reflexivity.
Defined.

(** ** AttackDispatcher: the connection file is chosen once *)







(** ** AttackDispatcher: working off the queue *)

(** X17. An enabled dispatcher works its queue off in order: with n
    commands queued and no new arrivals, n calls of [_logic] process them
    first come first served, each launching the attack it decides on, if
    any; they leave the queue empty, the dispatcher enabled and the
    connection file untouched, and a further call changes nothing. *)
Theorem queue_is_worked_off_in_order getcwd (x : surroundings)
    (unicode_lower : string → string) (getenv : string → option string)
    (primitive_raises : AttackerRemote.attack_call → bool)
    (s : AttackerLoop.t) (q : list AttackerRemote.message) :
  AttackerRemote.enabled (AttackerLoop.base s) = true →
  AttackerRemote.attacksQueue (AttackerLoop.base s) = q →
  let pass := AttackerLoop._logic getcwd (path_exists x) (read_mqtt_params x)
                (is_alive x) unicode_lower getenv primitive_raises in
  let s' := Nat.iter (length q) pass s in
  AttackerRemote.attacksQueue (AttackerLoop.base s') = []
  ∧ AttackerRemote.launched (AttackerLoop.base s')
    = (flat_map (effects_of unicode_lower getenv) (rev q)
       ++ AttackerRemote.launched (AttackerLoop.base s))%list
  ∧ AttackerRemote.enabled (AttackerLoop.base s') = true
  ∧ AttackerLoop.remote_connection_file s'
    = AttackerLoop.remote_connection_file s
  ∧ pass s' = s'.
Proof.
  intros Hen Hq pass s'. subst s'. revert s Hen Hq.
  induction q as [| m rest IH]; intros s Hen Hq; cbn [length].
  - cbn [Nat.iter nat_rect rev flat_map app].
    split; [exact Hq |]. split; [reflexivity |]. split; [exact Hen |].
    split; [reflexivity |].
    unfold pass, AttackerLoop._logic. by rewrite Hen, Hq.
  - assert (Hpass : pass s
              = AttackerLoop.set_base s
                  (AttackerRemote.process_messages unicode_lower getenv
                     primitive_raises m
                     (AttackerRemote.set_queue (AttackerLoop.base s) rest)))
      by (unfold pass, AttackerLoop._logic; by rewrite Hen, Hq).
    destruct (try_block_effects unicode_lower getenv primitive_raises m
                (AttackerRemote.set_applying
                   (AttackerRemote.set_queue (AttackerLoop.base s) rest)
                   true)) as (_ & Hqueue & Henabled & Hlaunched).
    rewrite Nat.iter_succ_r.
    destruct (IH (pass s)) as (H1 & H2 & H3 & H4 & H5).
    + rewrite Hpass. cbn -[AttackerRemote.try_block
                           AttackerRemote.except_block].
      rewrite Henabled. exact Hen.
    + rewrite Hpass. cbn -[AttackerRemote.try_block
                           AttackerRemote.except_block].
      rewrite Hqueue. reflexivity.
    + split; [exact H1 |]. split; [| split; [exact H3 | split; [| exact H5]]].
      * rewrite H2, Hpass.
        cbn -[AttackerRemote.try_block AttackerRemote.except_block].
        rewrite Hlaunched. cbn [rev]. rewrite flat_map_app. cbn [flat_map].
        by rewrite app_nil_r, <- app_assoc.
      * rewrite H4, Hpass. reflexivity.
Qed.

Lemma queue_is_worked_off_in_order_witness :
  let pass := AttackerLoop._logic "/app" (path_exists default_file_only)
                (read_mqtt_params default_file_only)
                (is_alive default_file_only) no_unicode no_env
                never_raises in
  let s' := Nat.iter (length [msg_A; msg_B]) pass two_queued in
  AttackerRemote.attacksQueue (AttackerLoop.base s') = []
  ∧ AttackerRemote.launched (AttackerLoop.base s')
    = flat_map (effects_of no_unicode no_env) (rev [msg_A; msg_B])
      ++ AttackerRemote.launched (AttackerLoop.base two_queued)
  ∧ AttackerRemote.enabled (AttackerLoop.base s') = true
  ∧ AttackerLoop.remote_connection_file s'
    = AttackerLoop.remote_connection_file two_queued
  ∧ pass s' = s'.
Proof.
  apply (queue_is_worked_off_in_order "/app" default_file_only no_unicode
           no_env never_raises two_queued [msg_A; msg_B]);
    reflexivity.
Defined.
